(** * Verification of the caching, debounce and fallback utilities

    A shallow embedding of the engineering core of the identity generator
    web application: the expiring background cache
    ([src/lib/backgroundContext.tsx]), the saved-identity store
    ([src/lib/identityData.ts]), the flag icon LRU cache
    ([src/lib/flagCache.ts]), the debounce hooks ([hooks/useDebounce.ts])
    and the timeout-guarded IP detection ([src/app/page.tsx] and its pure
    extraction in [src/lib/__tests__/ipFallback.test.ts]).

    Conventions.  JavaScript numbers that hold epoch milliseconds, delays
    and sizes are integers of [Z]; strings are [string]; an insertion-ordered
    [Map] is an association list; [localStorage] is a [gmap string string];
    a call that may throw returns a [completion]. *)

From Stdlib Require Import ZArith String List Bool Lia.
From stdpp Require Import base option list strings gmap pretty sorting.

Local Open Scope Z_scope.

(** ** Exceptions *)

(** The outcome of a JavaScript expression that may throw. *)
Inductive completion (A : Type) : Type :=
| Normal (a : A)
| Throw.
Arguments Normal {A} a.
Arguments Throw {A}.

(** ** Web Storage *)

Module LocalStorage.

(** The browser's [localStorage]: its entries, whether every access throws
    (storage disabled, [SecurityError]) and whether a write throws
    ([QuotaExceededError]). *)
Record t : Type := mk {
  items : gmap string string;
  denied : bool;
  full : bool
}.

Definition getItem (k : string) (ls : t) : completion (option string) :=
  if denied ls then Throw else Normal (items ls !! k).

Definition setItem (k v : string) (ls : t) : completion t :=
  if denied ls || full ls then Throw
  else Normal (mk (<[k := v]> (items ls)) (denied ls) (full ls)).

Definition removeItem (k : string) (ls : t) : completion t :=
  if denied ls then Throw
  else Normal (mk (delete k (items ls)) (denied ls) (full ls)).

(** A working, empty store. *)
Definition empty : t := mk ∅ false false.

End LocalStorage.

(** The JavaScript environment of a call: [window] is undefined during
    server-side rendering. *)
Record env : Type := mkEnv {
  window_defined : bool;
  localStorage : LocalStorage.t
}.

Definition with_storage (e : env) (ls : LocalStorage.t) : env :=
  mkEnv (window_defined e) ls.

(** A browser with a working store that holds [items]. *)
Definition browser (items : gmap string string) : env :=
  mkEnv true (LocalStorage.mk items false false).

(** [!s] for [s : string | null]: null and the empty string are falsy. *)
Definition falsy_string (s : option string) : bool :=
  match s with
  | None => true
  | Some s => String.eqb s ""
  end.

(** ** src/lib/backgroundContext.tsx *)

Module BackgroundContext.

Definition BG_CACHE_KEY : string := "app_background_cache".
Definition BG_CACHE_VERSION : string := "v1".
Definition BG_EXPIRE_TIME : Z := 24 * 60 * 60 * 1000.

Record BackgroundCache : Type := mkCache {
  url : string;
  timestamp : Z;
  version : string
}.

(** [isCacheValid(cache, now)] *)
Definition isCacheValid (cache : option BackgroundCache) (now : Z) : bool :=
  match cache with
  | None => false
  | Some c =>
    if negb (String.eqb (version c) BG_CACHE_VERSION) then false
    else
      let age := now - timestamp c in
      age <? BG_EXPIRE_TIME
  end.

Definition getCacheExpireTime : Z := BG_EXPIRE_TIME.

(** *** Properties of the validity predicate *)

(** What [localStorage] holds under the background key. *)
Definition stored (e : env) : option string :=
  LocalStorage.items (localStorage e) !! BG_CACHE_KEY.

(** A browser whose storage can be read and deleted from. *)
Definition readable (e : env) : Prop :=
  window_defined e = true /\ LocalStorage.denied (localStorage e) = false.

Lemma isCacheValid_true_iff (c : BackgroundCache) (now : Z) :
  isCacheValid (Some c) now = true <->
  version c = BG_CACHE_VERSION /\ now - timestamp c < BG_EXPIRE_TIME.
Proof.
  unfold isCacheValid.
  destruct (String.eqb_spec (version c) BG_CACHE_VERSION) as [Hv | Hv]; simpl.
  - rewrite Z.ltb_lt. tauto.
  - split; [discriminate | tauto].
Qed.

Lemma isCacheValid_false_iff (c : BackgroundCache) (now : Z) :
  isCacheValid (Some c) now = false <->
  version c <> BG_CACHE_VERSION \/ BG_EXPIRE_TIME <= now - timestamp c.
Proof.
  unfold isCacheValid.
  destruct (String.eqb_spec (version c) BG_CACHE_VERSION) as [Hv | Hv]; simpl.
  - rewrite Z.ltb_ge. intuition congruence.
  - tauto.
Qed.

(** C2.  [isCacheValid] is false for a null record, and for a record it is
    true exactly when the version is the current one and
    [now - timestamp] is strictly below the 24 hour TTL: a version
    mismatch gives false, an age of at least the TTL gives false (the age
    equal to the TTL included), and a timestamp in the future (a negative
    age) gives true. *)
Theorem isCacheValid_spec :
  BG_EXPIRE_TIME = 86400000 /\
  (forall now, isCacheValid None now = false) /\
  (forall c now,
     isCacheValid (Some c) now = true <->
     version c = "v1" /\ now - timestamp c < 86400000) /\
  (forall c now,
     isCacheValid (Some c) now = false <->
     version c <> "v1" \/ now - timestamp c >= 86400000) /\
  (forall u t, isCacheValid (Some (mkCache u t "v1")) (t + 86400000) = false) /\
  (forall u t, isCacheValid (Some (mkCache u t "v1")) (t + 86400000 - 1) = true) /\
  (forall u t now, now < t -> isCacheValid (Some (mkCache u t "v1")) now = true).
Proof.
  assert (Httl : BG_EXPIRE_TIME = 86400000) by reflexivity.
  assert (Hver : BG_CACHE_VERSION = "v1") by reflexivity.
  repeat split.
  - apply isCacheValid_true_iff in H. tauto.
  - apply isCacheValid_true_iff in H. rewrite Httl in H. tauto.
  - intros [Hv Hage]. apply isCacheValid_true_iff. rewrite Httl. tauto.
  - intros H. apply isCacheValid_false_iff in H. rewrite Httl, Hver in H.
    destruct H as [H | H]; [left; exact H | right; lia].
  - intros H. apply isCacheValid_false_iff. rewrite Httl, Hver.
    destruct H as [H | H]; [left; exact H | right; lia].
  - intros u t. apply isCacheValid_false_iff. right. rewrite Httl. simpl. lia.
  - intros u t. apply isCacheValid_true_iff. rewrite Httl. simpl. split; [reflexivity | lia].
  - intros u t now Hnow. apply isCacheValid_true_iff. rewrite Httl. simpl.
    split; [reflexivity | lia].
Qed.

Section WithJSON.

(** [JSON.parse] at the type the code gives its result,
    [BackgroundCache | null]: [Throw] is a [SyntaxError], [Normal None]
    the JSON text [null]. *)
Variable JSON_parse : string -> completion (option BackgroundCache).
Variable JSON_stringify : BackgroundCache -> string.

(** The [catch] block of [getCachedBackground]: try to remove the entry,
    ignore a failure, return null. *)
Definition discard_on_error (e : env) : option string * env :=
  match LocalStorage.removeItem BG_CACHE_KEY (localStorage e) with
  | Normal ls' => (None, with_storage e ls')
  | Throw => (None, e)
  end.

(** [getCachedBackground()], with the value [Date.now()] returns. *)
Definition getCachedBackground (now : Z) (e : env) : option string * env :=
  if negb (window_defined e) then (None, e)
  else
    match LocalStorage.getItem BG_CACHE_KEY (localStorage e) with
    | Throw => discard_on_error e
    | Normal cached =>
      if falsy_string cached then (None, e)
      else
        match JSON_parse (default "" cached) with
        | Throw => discard_on_error e
        | Normal data =>
          if negb (isCacheValid data now) then
            match LocalStorage.removeItem BG_CACHE_KEY (localStorage e) with
            | Normal ls' => (None, with_storage e ls')
            | Throw => discard_on_error e
            end
          else
            match data with
            | Some c => (Some (url c), e)
            | None => discard_on_error e
            end
        end
    end.

(** [setCachedBackground(url)] *)
Definition setCachedBackground (u : string) (now : Z) (e : env) : env :=
  if negb (window_defined e) then e
  else
    let data := mkCache u now BG_CACHE_VERSION in
    match LocalStorage.setItem BG_CACHE_KEY (JSON_stringify data) (localStorage e) with
    | Normal ls' => with_storage e ls'
    | Throw => e
    end.

(** [clearBackgroundCache()] *)
Definition clearBackgroundCache (e : env) : env :=
  if negb (window_defined e) then e
  else
    match LocalStorage.removeItem BG_CACHE_KEY (localStorage e) with
    | Normal ls' => with_storage e ls'
    | Throw => e
    end.

(** *** Properties of the cache read *)

(** The stored string is not empty and parses to a record that is valid
    at [now]. *)
Definition fresh_record (now : Z) (e : env) (c : BackgroundCache) : Prop :=
  exists s, stored e = Some s /\ s <> "" /\
            JSON_parse s = Normal (Some c) /\
            version c = BG_CACHE_VERSION /\
            now - timestamp c < BG_EXPIRE_TIME.

Lemma falsy_string_false (o : option string) :
  falsy_string o = false <-> exists s, o = Some s /\ s <> "".
Proof.
  destruct o as [s |]; simpl.
  - destruct (String.eqb_spec s "") as [-> | Hne].
    + split; [discriminate | intros (s' & [= <-] & Hs'); congruence].
    + split; [eauto | reflexivity].
  - split; [discriminate | intros (s' & Hs' & _); discriminate].
Qed.

(** A hit: the URL is returned and nothing is written. *)
Lemma getCachedBackground_hit (now : Z) (e : env) (c : BackgroundCache) :
  readable e -> fresh_record now e c ->
  getCachedBackground now e = (Some (url c), e).
Proof.
  intros [Hw Hd] (s & Hs & Hne & Hp & Hv & Hage).
  unfold getCachedBackground, LocalStorage.getItem.
  rewrite Hw, Hd. simpl. unfold stored in Hs. rewrite Hs. simpl.
  destruct (String.eqb_spec s "") as [-> | _]; [congruence |].
  rewrite Hp.
  assert (Hvalid : isCacheValid (Some c) now = true)
    by (apply isCacheValid_true_iff; tauto).
  rewrite Hvalid. reflexivity.
Qed.

(** Whatever is returned was a hit. *)
Lemma getCachedBackground_Some (now : Z) (e e' : env) (u : string) :
  getCachedBackground now e = (Some u, e') ->
  e' = e /\ readable e /\ exists c, fresh_record now e c /\ url c = u.
Proof.
  unfold getCachedBackground, LocalStorage.getItem, discard_on_error,
    LocalStorage.removeItem, readable.
  destruct (window_defined e) eqn:Hw; simpl; [| discriminate].
  destruct (LocalStorage.denied (localStorage e)) eqn:Hd; [discriminate |].
  destruct (falsy_string _) eqn:Hf; [discriminate |].
  apply falsy_string_false in Hf as (s & Hs & Hne). rewrite Hs. simpl.
  destruct (JSON_parse s) as [data |] eqn:Hp; [| discriminate].
  destruct (isCacheValid data now) eqn:Hvalid; simpl; [| discriminate].
  destruct data as [c |]; [| discriminate].
  intros [= <- <-]. apply isCacheValid_true_iff in Hvalid as [Hv Hage].
  split; [reflexivity |]. split; [tauto |].
  exists c. split; [| reflexivity]. exists s. tauto.
Qed.

(** A miss on a readable store: a non-empty stored string is removed, an
    absent or empty one is left as it is. *)
Lemma getCachedBackground_None (now : Z) (e e' : env) :
  readable e ->
  getCachedBackground now e = (None, e') ->
  if falsy_string (stored e) then e' = e
  else e' = clearBackgroundCache e /\ stored e' = None.
Proof.
  intros [Hw Hd].
  assert (Hclear : stored (clearBackgroundCache e) = None).
  { unfold clearBackgroundCache, LocalStorage.removeItem, stored.
    rewrite Hw, Hd. simpl. apply lookup_delete_eq. }
  revert Hclear.
  unfold getCachedBackground, LocalStorage.getItem, discard_on_error,
    clearBackgroundCache, LocalStorage.removeItem, stored.
  rewrite Hw, Hd. simpl. intros Hclear.
  destruct (falsy_string _) eqn:Hf; [congruence |].
  destruct (JSON_parse _) as [data |]; [| intros [= <-]; tauto].
  destruct (isCacheValid data now); simpl; [| intros [= <-]; tauto].
  destruct data; [discriminate | intros [= <-]; tauto].
Qed.

Definition HOUR : Z := 60 * 60 * 1000.

(** C9 (amended).  The read returns the stored URL exactly when the store
    is readable and holds a non-empty string that parses to a record with
    the current version and an age below the TTL, and then writes nothing.
    In every other case it returns null; on a readable store a non-empty
    stored string (expired, of another version or unparsable) is removed,
    while an absent or empty stored string is left as it is.  A record
    written at [T] reads back its URL at [T + 23h], reads null with the
    entry removed at [T + 25h], and a stored record of version [v0] reads
    null and is removed. *)
Theorem getCachedBackground_spec (now : Z) (e : env) :
  (forall u,
     (getCachedBackground now e).1 = Some u <->
     readable e /\ exists c, fresh_record now e c /\ url c = u) /\
  (is_Some (getCachedBackground now e).1 -> (getCachedBackground now e).2 = e) /\
  (readable e -> (getCachedBackground now e).1 = None ->
     (stored e = None \/ stored e = Some "" ->
        (getCachedBackground now e).2 = e) /\
     (forall s, stored e = Some s -> s <> "" ->
        (getCachedBackground now e).2 = clearBackgroundCache e /\
        stored (getCachedBackground now e).2 = None)) /\
  (forall u T,
     readable e -> LocalStorage.full (localStorage e) = false ->
     JSON_stringify (mkCache u T "v1") <> "" ->
     JSON_parse (JSON_stringify (mkCache u T "v1")) = Normal (Some (mkCache u T "v1")) ->
     let e1 := setCachedBackground u T e in
     getCachedBackground (T + 23 * HOUR) e1 = (Some u, e1) /\
     getCachedBackground (T + 25 * HOUR) e1 = (None, clearBackgroundCache e1) /\
     stored (clearBackgroundCache e1) = None) /\
  (forall s c,
     readable e -> stored e = Some s -> s <> "" ->
     JSON_parse s = Normal (Some c) -> version c = "v0" ->
     getCachedBackground now e = (None, clearBackgroundCache e) /\
     stored (clearBackgroundCache e) = None).
Proof.
  split; [| split; [| split; [| split]]].
  - intros u. split.
    + intros Hu. destruct (getCachedBackground now e) as [r e'] eqn:Hg.
      simpl in Hu. subst r. apply getCachedBackground_Some in Hg. tauto.
    + intros (Hr & c & Hc & <-).
      rewrite (getCachedBackground_hit now e c Hr Hc). reflexivity.
  - intros [u Hu]. destruct (getCachedBackground now e) as [r e'] eqn:Hg.
    simpl in *. subst r. apply getCachedBackground_Some in Hg. tauto.
  - intros Hr Hnone. destruct (getCachedBackground now e) as [r e'] eqn:Hg.
    simpl in *. subst r.
    pose proof (getCachedBackground_None now e e' Hr Hg) as Hmiss.
    split.
    + intros [Hs | Hs]; rewrite Hs in Hmiss; exact Hmiss.
    + intros s Hs Hne. rewrite Hs in Hmiss. simpl in Hmiss.
      destruct (String.eqb_spec s "") as [Heq | _]; [congruence | exact Hmiss].
  - intros u T [Hw Hd] Hfull Hne Hrt e1.
    assert (He1 : e1 = with_storage e
                  (LocalStorage.mk
                     (<[BG_CACHE_KEY := JSON_stringify (mkCache u T "v1")]>
                        (LocalStorage.items (localStorage e))) false false)).
    { unfold e1, setCachedBackground, LocalStorage.setItem.
      rewrite Hw, Hd, Hfull. reflexivity. }
    assert (Hr1 : readable e1).
    { rewrite He1. split; [exact Hw | reflexivity]. }
    assert (Hs1 : stored e1 = Some (JSON_stringify (mkCache u T "v1"))).
    { rewrite He1. unfold stored. simpl. apply lookup_insert_eq. }
    assert (Hclear : stored (clearBackgroundCache e1) = None).
    { destruct Hr1 as [Hw1 Hd1].
      unfold clearBackgroundCache, LocalStorage.removeItem, stored.
      rewrite Hw1, Hd1. simpl. apply lookup_delete_eq. }
    split; [| split; [| exact Hclear]].
    + apply (getCachedBackground_hit _ e1 (mkCache u T "v1") Hr1).
      exists (JSON_stringify (mkCache u T "v1")).
      repeat split; try assumption. simpl. unfold BG_EXPIRE_TIME, HOUR. lia.
    + destruct (getCachedBackground (T + 25 * HOUR) e1) as [r e2] eqn:Hg.
      destruct r as [u' |].
      * apply getCachedBackground_Some in Hg as (_ & _ & c & Hc & _).
        destruct Hc as (s & Hs & _ & Hp & _ & Hage).
        rewrite Hs1 in Hs. injection Hs as <-. rewrite Hrt in Hp.
        injection Hp as <-. simpl in Hage. unfold BG_EXPIRE_TIME, HOUR in Hage. lia.
      * pose proof (getCachedBackground_None _ e1 e2 Hr1 Hg) as Hmiss.
        rewrite Hs1 in Hmiss. simpl in Hmiss.
        destruct (String.eqb_spec (JSON_stringify (mkCache u T "v1")) "");
          [congruence |].
        destruct Hmiss as [-> _]. reflexivity.
  - intros s c Hr Hs Hne Hp Hv.
    assert (Hclear : stored (clearBackgroundCache e) = None).
    { destruct Hr as [Hw Hd].
      unfold clearBackgroundCache, LocalStorage.removeItem, stored.
      rewrite Hw, Hd. simpl. apply lookup_delete_eq. }
    split; [| exact Hclear].
    destruct (getCachedBackground now e) as [r e2] eqn:Hg.
    destruct r as [u' |].
    + apply getCachedBackground_Some in Hg as (_ & _ & c' & Hc & _).
      destruct Hc as (s' & Hs' & _ & Hp' & Hv' & _).
      rewrite Hs in Hs'. injection Hs' as <-. rewrite Hp in Hp'.
      injection Hp' as <-. rewrite Hv in Hv'. discriminate.
    + pose proof (getCachedBackground_None _ e e2 Hr Hg) as Hmiss.
      rewrite Hs in Hmiss. simpl in Hmiss.
      destruct (String.eqb_spec s ""); [congruence |].
      destruct Hmiss as [-> _]. reflexivity.
Qed.

End WithJSON.

(** *** A concrete store *)

Lemma isCacheValid_spec_witness :
  isCacheValid (Some (mkCache "https://example.com/image.jpg" 1700001000000 "v1"))
               1700000000000 = true /\
  isCacheValid (Some (mkCache "https://example.com/image.jpg" 1700000000000 "v1"))
               (1700000000000 + 86400000) = false.
Proof.
  destruct isCacheValid_spec as (_ & _ & _ & _ & Hboundary & _ & Hfuture).
  split; [apply Hfuture; lia | apply Hboundary].
Defined.

Definition demo_url : string := "https://example.com/valid-image.jpg".
Definition demo_record : BackgroundCache := mkCache demo_url 1700000000000 "v1".
Definition demo_text : string := "{url,timestamp,version}".

(** A one-entry stand-in for [JSON.stringify] and [JSON.parse]. *)
Definition demo_stringify (c : BackgroundCache) : string := demo_text.
Definition demo_parse (s : string) : completion (option BackgroundCache) :=
  if String.eqb s demo_text then Normal (Some demo_record) else Throw.

(** C9, as stated, fails on a stored empty string: the read returns null
    and the entry stays in the store. *)
Lemma getCachedBackground_keeps_empty_string :
  stored (browser {[BG_CACHE_KEY := ""]}) = Some "" /\
  getCachedBackground demo_parse 1700000000000 (browser {[BG_CACHE_KEY := ""]})
  = (None, browser {[BG_CACHE_KEY := ""]}) /\
  stored (getCachedBackground demo_parse 1700000000000
            (browser {[BG_CACHE_KEY := ""]})).2 = Some "".
Proof.
  assert (Hs : stored (browser {[BG_CACHE_KEY := ""]}) = Some "")
    by apply lookup_singleton_eq.
  assert (Hg : getCachedBackground demo_parse 1700000000000
                 (browser {[BG_CACHE_KEY := ""]})
               = (None, browser {[BG_CACHE_KEY := ""]})).
  { unfold getCachedBackground, LocalStorage.getItem. simpl.
    unfold stored in Hs. simpl in Hs. rewrite Hs. reflexivity. }
  rewrite Hg. auto.
Qed.

Lemma getCachedBackground_spec_witness :
  getCachedBackground demo_parse (1700000000000 + 23 * HOUR)
    (setCachedBackground demo_stringify demo_url 1700000000000 (browser ∅))
  = (Some demo_url,
     setCachedBackground demo_stringify demo_url 1700000000000 (browser ∅)) /\
  getCachedBackground demo_parse (1700000000000 + 25 * HOUR)
    (setCachedBackground demo_stringify demo_url 1700000000000 (browser ∅))
  = (None,
     clearBackgroundCache
       (setCachedBackground demo_stringify demo_url 1700000000000 (browser ∅))) /\
  stored (clearBackgroundCache
       (setCachedBackground demo_stringify demo_url 1700000000000 (browser ∅)))
  = None.
Proof.
  pose proof (getCachedBackground_spec demo_parse demo_stringify 0 (browser ∅))
    as (_ & _ & _ & Hscenario & _).
  apply (Hscenario demo_url 1700000000000).
  - split; reflexivity.
  - reflexivity.
  - discriminate.
  - reflexivity.
Defined.

End BackgroundContext.


(** ** src/lib/identityData.ts *)

Module IdentityData.

Record SavedIdentity : Type := mkIdentity {
  id : string;
  firstName : string;
  lastName : string;
  birthday : string;
  phone : string;
  password : string;
  email : string;
  countryCode : string;
  countryName : string;
  createdAt : Z
}.

(** [Omit<SavedIdentity, 'id' | 'createdAt'>] *)
Record IdentityInput : Type := mkInput {
  in_firstName : string;
  in_lastName : string;
  in_birthday : string;
  in_phone : string;
  in_password : string;
  in_email : string;
  in_countryCode : string;
  in_countryName : string
}.

Definition STORAGE_KEY : string := "saved_identities".

Section WithJSON.

(** [JSON.parse] and [JSON.stringify] at the type the code uses them,
    [SavedIdentity[]]. *)
Variable JSON_parse : string -> completion (list SavedIdentity).
Variable JSON_stringify : list SavedIdentity -> string.

(** [getSavedIdentities()] *)
Definition getSavedIdentities (e : env) : list SavedIdentity :=
  if negb (window_defined e) then []
  else
    match LocalStorage.getItem STORAGE_KEY (localStorage e) with
    | Throw => []
    | Normal stored =>
      if falsy_string stored then []
      else
        match JSON_parse (default "" stored) with
        | Normal identities => identities
        | Throw => []
        end
    end.

(** [saveIdentities(identities)]; a failed write is logged and dropped. *)
Definition saveIdentities (identities : list SavedIdentity) (e : env) : env :=
  if negb (window_defined e) then e
  else
    match LocalStorage.setItem STORAGE_KEY (JSON_stringify identities) (localStorage e) with
    | Normal ls' => with_storage e ls'
    | Throw => e
    end.

(** The identifier [`identity_${Date.now()}_${Math.random().toString(36).substr(2, 9)}`],
    from the clock value and the base-36 text of the random number. *)
Definition fresh_id (now : Z) (random36 : string) : string :=
  "identity_" +:+ pretty now +:+ "_" +:+ String.substring 2 9 random36.

(** [addIdentity(identity)]; [now_id] and [now_created] are the two readings
    of [Date.now()]. *)
Definition addIdentity (identity : IdentityInput) (now_id now_created : Z)
    (random36 : string) (e : env) : SavedIdentity * env :=
  let identities := getSavedIdentities e in
  let newIdentity :=
    {| id := fresh_id now_id random36;
       firstName := in_firstName identity;
       lastName := in_lastName identity;
       birthday := in_birthday identity;
       phone := in_phone identity;
       password := in_password identity;
       email := in_email identity;
       countryCode := in_countryCode identity;
       countryName := in_countryName identity;
       createdAt := now_created |} in
  let identities := newIdentity :: identities in
  (newIdentity, saveIdentities identities e).

(** [removeIdentity(id)] *)
Definition removeIdentity (i : string) (e : env) : env :=
  let identities := getSavedIdentities e in
  let filtered := List.filter (fun item => negb (String.eqb (id item) i)) identities in
  saveIdentities filtered e.

(** [isIdentitySaved(email)] *)
Definition isIdentitySaved (mail : string) (e : env) : bool :=
  let identities := getSavedIdentities e in
  existsb (fun item => String.eqb (email item) mail) identities.

(** [clearAllIdentities()] *)
Definition clearAllIdentities (e : env) : env :=
  if negb (window_defined e) then e
  else
    match LocalStorage.removeItem STORAGE_KEY (localStorage e) with
    | Normal ls' => with_storage e ls'
    | Throw => e
    end.

(** A browser whose storage accepts reads and writes. *)
Definition writable (e : env) : Prop :=
  window_defined e = true /\
  LocalStorage.denied (localStorage e) = false /\
  LocalStorage.full (localStorage e) = false.

(** The list survives serialisation: the text is not empty and parses back
    to the list. *)
Definition round_trips (l : list SavedIdentity) : Prop :=
  JSON_stringify l <> "" /\ JSON_parse (JSON_stringify l) = Normal l.

Lemma getSavedIdentities_saveIdentities (l : list SavedIdentity) (e : env) :
  writable e -> round_trips l ->
  getSavedIdentities (saveIdentities l e) = l.
Proof.
  intros (Hw & Hd & Hf) [Hne Hrt].
  unfold getSavedIdentities, saveIdentities, LocalStorage.setItem, LocalStorage.getItem.
  rewrite Hw, Hd, Hf. simpl. rewrite Hw. rewrite lookup_insert_eq. simpl.
  destruct (String.eqb_spec (JSON_stringify l) "") as [Heq | _]; [contradiction |].
  rewrite Hrt. reflexivity.
Qed.

Lemma isIdentitySaved_cons (n : SavedIdentity) (l : list SavedIdentity) (e : env) :
  getSavedIdentities e = n :: l -> isIdentitySaved (email n) e = true.
Proof.
  intros Hl. unfold isIdentitySaved. rewrite Hl. simpl.
  rewrite String.eqb_refl. reflexivity.
Qed.

(** C10.  Whatever list is stored, [addIdentity] builds the record from its
    argument with the generated id and [createdAt], stores it in front of the
    previously saved records, which follow unchanged and in order, and
    [isIdentitySaved] then holds of the record's email. *)
Theorem addIdentity_spec (identity : IdentityInput) (now_id now_created : Z)
    (random36 : string) (e : env) :
  writable e ->
  round_trips ((addIdentity identity now_id now_created random36 e).1
               :: getSavedIdentities e) ->
  let n := (addIdentity identity now_id now_created random36 e).1 in
  let e' := (addIdentity identity now_id now_created random36 e).2 in
  getSavedIdentities e' = n :: getSavedIdentities e /\
  id n = fresh_id now_id random36 /\
  createdAt n = now_created /\
  email n = in_email identity /\
  (firstName n, lastName n, birthday n, phone n, password n) =
    (in_firstName identity, in_lastName identity, in_birthday identity,
     in_phone identity, in_password identity) /\
  (countryCode n, countryName n) = (in_countryCode identity, in_countryName identity) /\
  isIdentitySaved (in_email identity) e' = true.
Proof.
  intros Hw Hrt n e'.
  assert (Hl : getSavedIdentities e' = n :: getSavedIdentities e).
  { unfold e', addIdentity. simpl. apply getSavedIdentities_saveIdentities; assumption. }
  repeat split; try reflexivity; [exact Hl |].
  change (in_email identity) with (email n).
  apply (isIdentitySaved_cons n (getSavedIdentities e) e' Hl).
Qed.

End WithJSON.

(** *** A concrete store *)

Definition earlier : SavedIdentity :=
  mkIdentity "identity_1699999999999_k3j9x0q2a" "Ada" "Lovelace" "1990-12-10"
    "+1 202 555 0101" "pw-ada" "ada.lovelace@yopmail.com" "US" "United States"
    1699999999999.

Definition newcomer : IdentityInput :=
  mkInput "Alan" "Turing" "1992-06-23" "+44 20 7946 0958" "pw-alan"
    "alan.turing@yopmail.com" "GB" "United Kingdom".

Definition saved_newcomer : SavedIdentity :=
  mkIdentity "identity_1700000000000_4fzyo82mv" "Alan" "Turing" "1992-06-23"
    "+44 20 7946 0958" "pw-alan" "alan.turing@yopmail.com" "GB" "United Kingdom"
    1700000000001.

(** A two-entry stand-in for [JSON.stringify] and [JSON.parse]: a list is
    written as its length. *)
Definition demo_stringify (l : list SavedIdentity) : string :=
  "identities:" +:+ pretty (Z.of_nat (length l)).
Definition demo_parse (s : string) : completion (list SavedIdentity) :=
  if String.eqb s "identities:1" then Normal [earlier]
  else if String.eqb s "identities:2" then Normal [saved_newcomer; earlier]
  else Throw.

Definition demo_env : env := browser {[STORAGE_KEY := "identities:1"]}.

Lemma addIdentity_spec_witness :
  (addIdentity demo_parse demo_stringify newcomer 1700000000000 1700000000001
     "0.4fzyo82mvyr" demo_env).1 = saved_newcomer /\
  getSavedIdentities demo_parse
    (addIdentity demo_parse demo_stringify newcomer 1700000000000 1700000000001
       "0.4fzyo82mvyr" demo_env).2 = [saved_newcomer; earlier] /\
  isIdentitySaved demo_parse "alan.turing@yopmail.com"
    (addIdentity demo_parse demo_stringify newcomer 1700000000000 1700000000001
       "0.4fzyo82mvyr" demo_env).2 = true.
Proof.
  assert (Hw : writable demo_env) by (repeat split).
  assert (Hold : getSavedIdentities demo_parse demo_env = [earlier])
    by (vm_compute; reflexivity).
  assert (Hnew : (addIdentity demo_parse demo_stringify newcomer 1700000000000
                    1700000000001 "0.4fzyo82mvyr" demo_env).1 = saved_newcomer)
    by (vm_compute; reflexivity).
  assert (Hrt : round_trips demo_parse demo_stringify
                  ((addIdentity demo_parse demo_stringify newcomer 1700000000000
                      1700000000001 "0.4fzyo82mvyr" demo_env).1
                   :: getSavedIdentities demo_parse demo_env)).
  { rewrite Hnew, Hold. split; [vm_compute; discriminate | vm_compute; reflexivity]. }
  pose proof (addIdentity_spec demo_parse demo_stringify newcomer 1700000000000
                1700000000001 "0.4fzyo82mvyr" demo_env Hw Hrt) as Hspec.
  cbv zeta in Hspec. rewrite Hnew, Hold in Hspec.
  destruct Hspec as (Hlist & _ & _ & _ & _ & _ & Hsaved).
  split; [exact Hnew | split; [exact Hlist | exact Hsaved]].
Defined.

End IdentityData.


(** ** src/lib/__tests__/ipFallback.test.ts and src/app/page.tsx *)

Module IpFallback.

(** How a promise ends: it resolves with a value, rejects, or never
    settles. *)
Inductive promise (A : Type) : Type :=
| Resolves (a : A)
| Rejects
| Pending.
Arguments Resolves {A} a.
Arguments Rejects {A}.
Arguments Pending {A}.

(** The body of the lookup, [{ ip, country, accurate }]; a field is [None]
    when it is missing. *)
Record payload : Type := mkPayload {
  data_ip : option string;
  data_country : option string;
  data_accurate : bool
}.

(** What [response.json()] does: it rejects (invalid JSON), never settles,
    or resolves with the data; [JsonData None] is the JSON value [null],
    whose property access throws. *)
Inductive json_outcome : Type :=
| JsonRejects
| JsonPending
| JsonData (data : option payload).

(** What the fetch promise does, with the time in milliseconds after the
    call at which it settles: 0 for a promise that is settled when the call
    returns, and 1 or more for one that a later timer or event settles. *)
Inductive fetch_outcome : Type :=
| FetchPending
| FetchRejects (at_ms : Z)
| FetchResolves (at_ms : Z) (body : json_outcome).

Record IpDetectionResult : Type := mkResult {
  ip : string;
  country : string;
  isDefault : bool
}.

Definition DEFAULT_COUNTRY : string := "US".
Definition DEFAULT_IP : string := "检测失败".
Definition UNKNOWN_IP : string := "未知".

(** The longest delay a timer takes, 2^31 - 1 ms. *)
Definition TIMEOUT_MAX : Z := 2147483647.

(** The delay [setTimeout(callback, timeoutMs)] runs with: the timers of
    Node, on which the test runs, count a delay below 1 or above
    [TIMEOUT_MAX] as 1.  From 1 to [TIMEOUT_MAX], the range of the page's
    3000, browsers take the delay as it is too. *)
Definition timer_delay (timeoutMs : Z) : Z :=
  if (timeoutMs <? 1) || (TIMEOUT_MAX <? timeoutMs) then 1 else timeoutMs.

(** [Promise.race([fetchFn(), timeoutPromise])].  A fetch that is settled
    when it is called ([at_ms] 0 or less) is taken before any timer runs,
    whatever the delay; otherwise the timer was set first, so the fetch wins
    only when it settles strictly before the timer is due. *)
Definition race (fetchFn : fetch_outcome) (timeoutMs : Z) : promise json_outcome :=
  match fetchFn with
  | FetchPending => Rejects
  | FetchRejects _ => Rejects
  | FetchResolves at_ms body =>
    if at_ms <? timer_delay timeoutMs then Resolves body else Rejects
  end.

(** [a || b] on [string | undefined]. *)
Definition or_else (a : option string) (b : string) : string :=
  if falsy_string a then b else default b a.

(** The fallback result of the [catch] block. *)
Definition fallback : IpDetectionResult :=
  mkResult DEFAULT_IP DEFAULT_COUNTRY true.

(** [detectIp(fetchFn, timeoutMs)] *)
Definition detectIp (fetchFn : fetch_outcome) (timeoutMs : Z)
  : promise IpDetectionResult :=
  match race fetchFn timeoutMs with
  | Resolves response =>
    match response with
    | JsonData (Some data) =>
      Resolves
        {| ip := or_else (data_ip data) DEFAULT_IP;
           country := or_else (data_country data) DEFAULT_COUNTRY;
           isDefault := falsy_string (data_ip data) || falsy_string (data_country data) |}
    | JsonData None => Resolves fallback
    | JsonRejects => Resolves fallback
    | JsonPending => Pending
    end
  | Rejects => Resolves fallback
  | Pending => Pending
  end.

(** The part of the page state that [initializeApp] writes. *)
Record IpInfo : Type := mkIpInfo {
  info_ip : string;
  info_country : string
}.

Record AppState (Country : Type) : Type := mkApp {
  ipInfo : IpInfo;
  selectedCountry : Country;
  isInitialized : bool
}.
Arguments mkApp {Country} _ _ _.
Arguments ipInfo {Country} _.
Arguments selectedCountry {Country} _.
Arguments isInitialized {Country} _.

Section InitializeApp.

Variable Country : Type.
(** [getCountryConfig], of the country data module. *)
Variable getCountryConfig : string -> option Country.

(** [initializeApp()] of the page, from the state [st]; [isMounted] is the
    flag at the time the lookup settles. *)
Definition initializeApp (fetchFn : fetch_outcome) (isMounted : bool)
    (st : AppState Country) : promise (AppState Country) :=
  let finally (st : AppState Country) :=
    if isMounted then mkApp (ipInfo st) (selectedCountry st) true else st in
  let catch :=
    finally
      (if isMounted then mkApp (mkIpInfo DEFAULT_IP "US") (selectedCountry st) (isInitialized st)
       else st) in
  match race fetchFn 3000 with
  | Resolves response =>
    match response with
    | JsonData (Some data) =>
      if negb isMounted then Resolves (finally st)
      else
        let st1 :=
          mkApp (mkIpInfo (or_else (data_ip data) UNKNOWN_IP) (or_else (data_country data) "US"))
                (selectedCountry st) (isInitialized st) in
        let st2 :=
          if negb (falsy_string (data_country data)) && data_accurate data then
            match getCountryConfig (default "" (data_country data)) with
            | Some detectedCountry => mkApp (ipInfo st1) detectedCountry (isInitialized st1)
            | None => st1
            end
          else st1 in
        Resolves (finally st2)
    | JsonData None => Resolves catch
    | JsonRejects => Resolves catch
    | JsonPending => Pending
    end
  | Rejects => Resolves catch
  | Pending => Pending
  end.

End InitializeApp.

(** *** Properties of the detection *)






Lemma timer_delay_positive (timeoutMs : Z) : 1 <= timer_delay timeoutMs.
Proof.
  unfold timer_delay.
  destruct (Z.ltb_spec timeoutMs 1); [simpl; lia |].
  destruct (Z.ltb_spec TIMEOUT_MAX timeoutMs); simpl; lia.
Qed.

Lemma timer_delay_3000 : timer_delay 3000 = 3000.
Proof. reflexivity. Qed.

(** The race is lost exactly when the fetch has not resolved before the
    timer is due. *)
Lemma race_Rejects (fetchFn : fetch_outcome) (timeoutMs : Z) :
  race fetchFn timeoutMs = Rejects <->
  fetchFn = FetchPending \/ (exists at_ms, fetchFn = FetchRejects at_ms) \/
  (exists at_ms body,
     fetchFn = FetchResolves at_ms body /\ timer_delay timeoutMs <= at_ms).
Proof.
  destruct fetchFn as [| at_ms | at_ms body]; simpl.
  - tauto.
  - split; [eauto | reflexivity].
  - destruct (Z.ltb_spec at_ms (timer_delay timeoutMs)) as [Hlt | Hge].
    + split; [discriminate |].
      intros [H | [[a H] | (a & b & H & Hle)]]; try discriminate.
      injection H as <- _. lia.
    + split; [eauto 6 | reflexivity].
Qed.








End IpFallback.


(** ** src/lib/flagCache.ts *)

Module FlagCache.

(** *** An insertion-ordered [Map] with string keys *)

Section JsMap.

Context {V : Type}.

Fixpoint map_get (k : string) (m : list (string * V)) : option V :=
  match m with
  | [] => None
  | (k', v) :: m' => if String.eqb k' k then Some v else map_get k m'
  end.

Definition map_has (k : string) (m : list (string * V)) : bool :=
  bool_decide (is_Some (map_get k m)).

Definition map_delete (k : string) (m : list (string * V)) : list (string * V) :=
  filter (fun kv => kv.1 <> k) m.

(** [set] keeps the position of a key that is present and appends a new
    key. *)
Definition map_set (k : string) (v : V) (m : list (string * V)) : list (string * V) :=
  match map_get k m with
  | Some _ => (fun kv => if String.eqb kv.1 k then (k, v) else kv) <$> m
  | None => m ++ [(k, v)]
  end.

Definition map_keys (m : list (string * V)) : list string := m.*1.

End JsMap.

Section JsMapFacts.

Context {V : Type}.
Implicit Types (m : list (string * V)) (k : string) (v : V).

Lemma map_get_None m k : map_get k m = None <-> k ∉ map_keys m.
Proof.
  induction m as [| [k' v'] m IH]; simpl.
  - split; [intros _; apply not_elem_of_nil | reflexivity].
  - rewrite not_elem_of_cons.
    destruct (String.eqb_spec k' k) as [-> | Hne].
    + split; [discriminate | intros [H _]; congruence].
    + rewrite IH. split; [intros H; split; [congruence | exact H] | tauto].
Qed.

Lemma map_get_Some_elem m k v : map_get k m = Some v -> (k, v) ∈ m.
Proof.
  induction m as [| [k' v'] m IH]; simpl; [discriminate |].
  destruct (String.eqb_spec k' k) as [-> | Hne].
  - intros [= ->]. apply list_elem_of_here.
  - intros H. apply list_elem_of_further, IH, H.
Qed.

Lemma map_get_Some_key m k v : map_get k m = Some v -> k ∈ map_keys m.
Proof.
  intros H. apply map_get_Some_elem in H.
  apply (list_elem_of_fmap_2 fst) in H. exact H.
Qed.

Lemma map_get_elem m k v :
  NoDup (map_keys m) -> (k, v) ∈ m -> map_get k m = Some v.
Proof.
  induction m as [| [k' v'] m IH]; simpl.
  - intros _ H. apply elem_of_nil in H. contradiction.
  - rewrite NoDup_cons. intros [Hnotin Hnd] Hin.
    apply elem_of_cons in Hin as [[= -> ->] | Hin].
    + rewrite String.eqb_refl. reflexivity.
    + destruct (String.eqb_spec k' k) as [-> | Hne]; [| auto].
      exfalso. apply Hnotin. apply (list_elem_of_fmap_2 fst) in Hin. exact Hin.
Qed.

Lemma map_has_true m k : map_has k m = true <-> k ∈ map_keys m.
Proof.
  unfold map_has. rewrite bool_decide_eq_true.
  destruct (map_get k m) as [v |] eqn:Hget.
  - split; [intros _; eapply map_get_Some_key, Hget | intros _; eauto].
  - apply map_get_None in Hget.
    split; [intros [v Hv]; discriminate | contradiction].
Qed.

Lemma map_has_false m k : map_has k m = false <-> k ∉ map_keys m.
Proof.
  rewrite <- map_has_true. destruct (map_has k m); split; congruence.
Qed.

Lemma map_keys_delete m k :
  map_keys (map_delete k m) = filter (fun k' => k' <> k) (map_keys m).
Proof.
  unfold map_keys, map_delete.
  induction m as [| [k' v'] m IH]; [reflexivity |].
  rewrite fmap_cons. simpl fst at 2.
  destruct (decide (k' = k)) as [-> | Hne].
  - rewrite !filter_cons_False by (simpl; tauto). exact IH.
  - rewrite !filter_cons_True by (simpl; tauto). rewrite fmap_cons, IH. reflexivity.
Qed.

Lemma map_delete_absent m k : k ∉ map_keys m -> map_delete k m = m.
Proof.
  unfold map_keys, map_delete.
  induction m as [| [k' v'] m IH]; [reflexivity |].
  rewrite fmap_cons, not_elem_of_cons. simpl. intros [Hne Hnotin].
  rewrite filter_cons_True by (simpl; congruence). rewrite IH by exact Hnotin.
  reflexivity.
Qed.

Lemma map_delete_head m k v :
  k ∉ map_keys m -> map_delete k ((k, v) :: m) = m.
Proof.
  intros Hnotin. unfold map_delete.
  rewrite filter_cons_False by (simpl; tauto).
  apply map_delete_absent, Hnotin.
Qed.

Lemma map_keys_delete_absent m k : k ∉ map_keys (map_delete k m).
Proof.
  rewrite map_keys_delete, list_elem_of_filter. tauto.
Qed.

Lemma map_delete_NoDup m k : NoDup (map_keys m) -> NoDup (map_keys (map_delete k m)).
Proof. rewrite map_keys_delete. apply NoDup_filter. Qed.

Lemma map_delete_length m k :
  NoDup (map_keys m) -> k ∈ map_keys m ->
  S (length (map_delete k m)) = length m.
Proof.
  unfold map_keys.
  induction m as [| [k' v'] m IH]; simpl.
  - intros _ H. apply elem_of_nil in H. contradiction.
  - rewrite NoDup_cons. intros [Hnotin Hnd] Hin.
    destruct (decide (k' = k)) as [-> | Hne].
    + rewrite map_delete_head by exact Hnotin. reflexivity.
    + apply elem_of_cons in Hin as [Heq | Hin]; [congruence |].
      unfold map_delete. rewrite filter_cons_True by (simpl; congruence).
      simpl. f_equal. apply IH; assumption.
Qed.

Lemma map_delete_length_le m k : (length (map_delete k m) <= length m)%nat.
Proof. apply length_filter. Qed.

Lemma map_delete_elem m k k' v :
  (k', v) ∈ map_delete k m <-> k' <> k /\ (k', v) ∈ m.
Proof. unfold map_delete. rewrite list_elem_of_filter. reflexivity. Qed.

Lemma map_set_absent m k v : k ∉ map_keys m -> map_set k v m = m ++ [(k, v)].
Proof.
  intros Hnotin. apply map_get_None in Hnotin.
  unfold map_set. rewrite Hnotin. reflexivity.
Qed.

(** A hit, [delete] then [set]: the entry moves to the end. *)
Lemma map_set_delete m k v : map_set k v (map_delete k m) = map_delete k m ++ [(k, v)].
Proof. apply map_set_absent, map_keys_delete_absent. Qed.

Lemma map_keys_snoc m k v : map_keys (m ++ [(k, v)]) = map_keys m ++ [k].
Proof. unfold map_keys. rewrite fmap_app. reflexivity. Qed.

End JsMapFacts.

Definition MAX_CACHE_SIZE : nat := 30.

Definition TOP_COUNTRIES : list string := ["US"; "CN"; "HK"; "TW"; "JP"].

Section WithFlags.

(** [FlagComponentType], and an export of the icon module: a component
    (a function) or some other value. *)
Variable FlagComponentType : Type.

Inductive export : Type :=
| Component (c : FlagComponentType)
| NotAFunction.

(** The namespace of [country-flag-icons/react/3x2], by export name. *)
Variable flags : string -> option export.

(** The module state: the two maps, the loads suspended at
    [await import(...)] (promise and captured [countryCode]) and the next
    promise identity. *)
Record state : Type := mkState {
  flagCache : list (string * FlagComponentType);
  loadingPromises : gmap string nat;
  inflight : gmap nat string;
  next_promise : nat
}.

Definition initial : state := mkState [] ∅ ∅ 0.

(** What a call hands back: the cached component, or the outcome of the load
    with the given promise. *)
Inductive answer : Type :=
| Cached (c : FlagComponentType)
| Awaits (p : nat).

(** [loadFlagIcon(countryCode)] up to its return: a hit is moved to the end,
    a pending load is shared, otherwise a load starts and suspends. *)
Definition loadFlagIcon (countryCode : string) (s : state) : answer * state :=
  match map_get countryCode (flagCache s) with
  | Some cached =>
    (Cached cached,
     mkState (map_set countryCode cached (map_delete countryCode (flagCache s)))
             (loadingPromises s) (inflight s) (next_promise s))
  | None =>
    match loadingPromises s !! countryCode with
    | Some loading => (Awaits loading, s)
    | None =>
      let loadPromise := next_promise s in
      (Awaits loadPromise,
       mkState (flagCache s)
               (<[countryCode := loadPromise]> (loadingPromises s))
               (<[loadPromise := countryCode]> (inflight s))
               (S loadPromise))
    end
  end.

(** Step 4 of the load: at capacity, delete the first key unless it is
    falsy. *)
Definition evict_oldest (cache : list (string * FlagComponentType))
  : list (string * FlagComponentType) :=
  if (MAX_CACHE_SIZE <=? length cache)%nat then
    match map_keys cache with
    | oldestKey :: _ =>
      if String.eqb oldestKey "" then cache else map_delete oldestKey cache
    | [] => cache
    end
  else cache.

(** The rest of the load [p] once the import has settled: the value its
    promise resolves with ([None] is null) and the new state.  Nothing
    happens when [p] is not a suspended load. *)
Definition settleLoad (p : nat) (import_ok : bool) (s : state)
  : option (option FlagComponentType) * state :=
  match inflight s !! p with
  | None => (None, s)
  | Some countryCode =>
    let outcome :=
      if import_ok then
        match flags countryCode with
        | Some (Component FlagComponent) =>
          (Some FlagComponent,
           map_set countryCode FlagComponent (evict_oldest (flagCache s)))
        | _ => (None, flagCache s)
        end
      else (None, flagCache s) in
    (Some outcome.1,
     mkState outcome.2 (delete countryCode (loadingPromises s))
             (delete p (inflight s)) (next_promise s))
  end.

Definition getCacheSize (s : state) : nat := length (flagCache s).

(** [clearCache()]: the maps are emptied; suspended loads stay suspended. *)
Definition clearCache (s : state) : state :=
  mkState [] ∅ (inflight s) (next_promise s).

Definition isCached (countryCode : string) (s : state) : bool :=
  map_has countryCode (flagCache s).

Definition getCachedCodes (s : state) : list string := map_keys (flagCache s).

(** [preloadTopFlags()], once its idle callback runs: one call per code,
    results dropped. *)
Definition preloadTopFlags (s : state) : state :=
  foldl (fun s code => (loadFlagIcon code s).2) s TOP_COUNTRIES.

(** *** Runs *)

Inductive event : Type :=
| Call (countryCode : string)
| Settle (p : nat) (import_ok : bool).

Definition step (s : state) (e : event) : state :=
  match e with
  | Call countryCode => (loadFlagIcon countryCode s).2
  | Settle p import_ok => (settleLoad p import_ok s).2
  end.

Definition run (s : state) (tr : list event) : state := foldl step s tr.

(** [await loadFlagIcon(countryCode)] with nothing interleaved: the call and,
    if it started or joined a load, that load's settlement. *)
Definition load (import_ok : bool) (s : state) (countryCode : string) : state :=
  match loadFlagIcon countryCode s with
  | (Cached _, s') => s'
  | (Awaits p, s') => (settleLoad p import_ok s').2
  end.

Definition load_all (s : state) (codes : list string) : state :=
  foldl (load true) s codes.

(** *** Invariants of the reachable states *)

(** The cache has no repeated key and holds the module's components; the
    pending table lists exactly the suspended loads; a key being loaded is
    not cached. *)
Record coherent (s : state) : Prop := mkCoherent {
  coh_nodup : NoDup (map_keys (flagCache s));
  coh_entries : forall k c, (k, c) ∈ flagCache s -> flags k = Some (Component c);
  coh_table : forall k p, loadingPromises s !! k = Some p <-> inflight s !! p = Some k;
  coh_fresh : forall p k, inflight s !! p = Some k -> (p < next_promise s)%nat;
  coh_miss : forall p k, inflight s !! p = Some k -> k ∉ map_keys (flagCache s)
}.

Lemma coherent_initial : coherent initial.
Proof.
  split; simpl.
  - apply NoDup_nil_2.
  - intros k c H. apply elem_of_nil in H. contradiction.
  - intros k p. rewrite !lookup_empty. split; discriminate.
  - intros p k. rewrite lookup_empty. discriminate.
  - intros p k. rewrite lookup_empty. discriminate.
Qed.

Lemma evict_oldest_elem cache k c :
  (k, c) ∈ evict_oldest cache -> (k, c) ∈ cache.
Proof.
  unfold evict_oldest.
  destruct (MAX_CACHE_SIZE <=? length cache)%nat; [| tauto].
  destruct (map_keys cache) as [| oldestKey keys]; [tauto |].
  destruct (String.eqb oldestKey ""); [tauto |].
  rewrite map_delete_elem. tauto.
Qed.

Lemma evict_oldest_keys cache k :
  k ∈ map_keys (evict_oldest cache) -> k ∈ map_keys cache.
Proof.
  unfold map_keys. rewrite !list_elem_of_fmap.
  intros ([k' c] & -> & Hin). exists (k', c).
  split; [reflexivity | apply evict_oldest_elem, Hin].
Qed.

Lemma evict_oldest_NoDup cache :
  NoDup (map_keys cache) -> NoDup (map_keys (evict_oldest cache)).
Proof.
  intros Hnd. unfold evict_oldest.
  destruct (MAX_CACHE_SIZE <=? length cache)%nat; [| exact Hnd].
  destruct (map_keys cache) as [| oldestKey keys] eqn:Hkeys;
    [rewrite Hkeys; exact Hnd |].
  destruct (String.eqb oldestKey ""); [rewrite Hkeys; exact Hnd |].
  apply map_delete_NoDup. rewrite Hkeys. exact Hnd.
Qed.

(** With a truthy first key, eviction drops exactly the first entry of a
    full cache. *)
Lemma evict_oldest_full k c rest :
  k <> "" -> k ∉ map_keys rest -> (MAX_CACHE_SIZE <= S (length rest))%nat ->
  evict_oldest ((k, c) :: rest) = rest.
Proof.
  intros Hne Hnotin Hfull. unfold evict_oldest.
  destruct (Nat.leb_spec MAX_CACHE_SIZE (length ((k, c) :: rest))) as [_ | Hlt];
    [| simpl in Hlt; lia].
  simpl. destruct (String.eqb_spec k "") as [Heq | _]; [contradiction |].
  apply map_delete_head, Hnotin.
Qed.

Lemma evict_oldest_room cache :
  (length cache < MAX_CACHE_SIZE)%nat -> evict_oldest cache = cache.
Proof.
  intros Hlt. unfold evict_oldest.
  destruct (Nat.leb_spec MAX_CACHE_SIZE (length cache)); [lia | reflexivity].
Qed.

(** A hit returns the cached component and moves its entry to the end;
    nothing else changes. *)
Lemma loadFlagIcon_hit s k c :
  map_get k (flagCache s) = Some c ->
  loadFlagIcon k s =
  (Cached c,
   mkState (map_delete k (flagCache s) ++ [(k, c)])
           (loadingPromises s) (inflight s) (next_promise s)).
Proof.
  intros Hget. unfold loadFlagIcon. rewrite Hget, map_set_delete. reflexivity.
Qed.

Lemma loadFlagIcon_coherent s k : coherent s -> coherent (loadFlagIcon k s).2.
Proof.
  intros [Hnd Hent Htab Hfresh Hmiss].
  destruct (map_get k (flagCache s)) as [c |] eqn:Hget.
  - rewrite (loadFlagIcon_hit s k c Hget). simpl.
    assert (Hk : k ∈ map_keys (flagCache s)) by (eapply map_get_Some_key, Hget).
    split; simpl; try assumption.
    + rewrite map_keys_snoc. apply NoDup_app. split; [| split].
      * apply map_delete_NoDup, Hnd.
      * intros k' Hk' Hin. apply list_elem_of_singleton in Hin as ->.
        exact (map_keys_delete_absent _ _ Hk').
      * apply NoDup_singleton.
    + intros k' c' Hin. apply elem_of_app in Hin as [Hin | Hin].
      * apply map_delete_elem in Hin as [_ Hin]. apply Hent, Hin.
      * apply list_elem_of_singleton in Hin as [= -> ->].
        apply Hent, map_get_Some_elem, Hget.
    + intros p k' Hp. rewrite map_keys_snoc, elem_of_app, list_elem_of_singleton.
      intros [Hin | ->].
      * rewrite map_keys_delete, list_elem_of_filter in Hin.
        exact (Hmiss p k' Hp (proj2 Hin)).
      * exact (Hmiss p k Hp Hk).
  - unfold loadFlagIcon. rewrite Hget.
    destruct (loadingPromises s !! k) as [loading |] eqn:Hpending; simpl.
    + split; assumption.
    + split; simpl; try assumption.
      * intros k' p. rewrite !lookup_insert_Some. split.
        -- intros [[-> <-] | [Hne Hp]]; [left; tauto |].
           right. split; [| apply Htab, Hp].
           apply Htab, Hfresh in Hp. lia.
        -- intros [[<- <-] | [Hne Hp]]; [left; tauto |].
           right. split; [| apply Htab, Hp].
           intros <-. apply Htab in Hp. congruence.
      * intros p k'. rewrite lookup_insert_Some.
        intros [[<- _] | [_ Hp]]; [lia |]. apply Hfresh in Hp. lia.
      * intros p k'. rewrite lookup_insert_Some.
        intros [[_ <-] | [_ Hp]]; [apply map_get_None, Hget | eapply Hmiss, Hp].
Qed.

(** The settlement of a load that fails, or whose export is missing or not a
    function: null, and the cache is untouched. *)
Lemma settleLoad_null s p k import_ok :
  inflight s !! p = Some k ->
  import_ok = false \/ flags k = None \/ flags k = Some NotAFunction ->
  settleLoad p import_ok s =
  (Some None,
   mkState (flagCache s) (delete k (loadingPromises s)) (delete p (inflight s))
           (next_promise s)).
Proof.
  intros Hp Hfail. unfold settleLoad. rewrite Hp.
  destruct Hfail as [-> | [-> | ->]]; [reflexivity | |];
    destruct import_ok; reflexivity.
Qed.

(** The settlement of a load that succeeds on a coherent state: the
    component, appended to the cache after the eviction step. *)
Lemma settleLoad_component s p k c :
  coherent s ->
  inflight s !! p = Some k -> flags k = Some (Component c) ->
  settleLoad p true s =
  (Some (Some c),
   mkState (evict_oldest (flagCache s) ++ [(k, c)])
           (delete k (loadingPromises s)) (delete p (inflight s)) (next_promise s)).
Proof.
  intros Hcoh Hp Hflag. unfold settleLoad. rewrite Hp, Hflag. simpl.
  rewrite map_set_absent; [reflexivity |].
  intros Hin. apply evict_oldest_keys in Hin.
  exact (coh_miss s Hcoh p k Hp Hin).
Qed.

Lemma settleLoad_coherent s p import_ok :
  coherent s -> coherent (settleLoad p import_ok s).2.
Proof.
  intros Hcoh.
  destruct (inflight s !! p) as [k |] eqn:Hp;
    [| unfold settleLoad; rewrite Hp; exact Hcoh].
  assert (Htable : forall k' p',
             delete k (loadingPromises s) !! k' = Some p' <->
             delete p (inflight s) !! p' = Some k').
  { intros k' p'. rewrite !lookup_delete_Some.
    pose proof (coh_table s Hcoh k' p') as Hiff.
    pose proof (coh_table s Hcoh k p) as Hiff_p.
    split; intros [Hne H]; (split; [| tauto]).
    - intros <-. apply Hiff in H. congruence.
    - intros <-. apply Hiff in H. apply Hiff_p in Hp. congruence. }
  assert (Hfresh : forall p' k',
             delete p (inflight s) !! p' = Some k' -> (p' < next_promise s)%nat).
  { intros p' k'. rewrite lookup_delete_Some. intros [_ H].
    exact (coh_fresh s Hcoh p' k' H). }
  assert (Hnull : coherent
            (mkState (flagCache s) (delete k (loadingPromises s))
                     (delete p (inflight s)) (next_promise s))).
  { split; simpl; try assumption;
      [apply (coh_nodup s Hcoh) | apply (coh_entries s Hcoh) |].
    intros p' k'. rewrite lookup_delete_Some. intros [_ Hp'].
    exact (coh_miss s Hcoh p' k' Hp'). }
  destruct import_ok;
    [| rewrite (settleLoad_null s p k false Hp) by tauto; exact Hnull].
  destruct (flags k) as [[c |] |] eqn:Hflag;
    [| rewrite (settleLoad_null s p k true Hp) by tauto; exact Hnull ..].
  rewrite (settleLoad_component s p k c Hcoh Hp Hflag). simpl.
  assert (Hk : k ∉ map_keys (evict_oldest (flagCache s))).
  { intros Hin. apply evict_oldest_keys in Hin.
    exact (coh_miss s Hcoh p k Hp Hin). }
  split; simpl; try assumption.
  - rewrite map_keys_snoc. apply NoDup_app. split; [| split].
    + apply evict_oldest_NoDup, (coh_nodup s Hcoh).
    + intros k' Hk' Hin. apply list_elem_of_singleton in Hin as ->. exact (Hk Hk').
    + apply NoDup_singleton.
  - intros k' c' Hin. apply elem_of_app in Hin as [Hin | Hin].
    + apply (coh_entries s Hcoh), evict_oldest_elem, Hin.
    + apply list_elem_of_singleton in Hin as [= -> ->]. exact Hflag.
  - intros p' k'. rewrite lookup_delete_Some. intros [Hne Hp'].
    rewrite map_keys_snoc, elem_of_app, list_elem_of_singleton.
    intros [Hin | ->].
    + apply evict_oldest_keys in Hin. exact (coh_miss s Hcoh p' k' Hp' Hin).
    + apply (coh_table s Hcoh) in Hp, Hp'. congruence.
Qed.

Lemma step_coherent s e : coherent s -> coherent (step s e).
Proof.
  destruct e as [k | p import_ok]; simpl;
    [apply loadFlagIcon_coherent | apply settleLoad_coherent].
Qed.

Lemma run_coherent s tr : coherent s -> coherent (run s tr).
Proof.
  revert s. induction tr as [| e tr IH]; intros s Hcoh; simpl; [exact Hcoh |].
  apply IH, step_coherent, Hcoh.
Qed.

(** *** Cache hits, coalescing and failed loads *)

(** A call for a key with a suspended load joins it: same promise, same
    state. *)
Lemma loadFlagIcon_pending s p k :
  coherent s -> inflight s !! p = Some k ->
  loadFlagIcon k s = (Awaits p, s).
Proof.
  intros Hcoh Hp. unfold loadFlagIcon.
  pose proof (coh_miss s Hcoh p k Hp) as Hmiss. apply map_get_None in Hmiss.
  apply (coh_table s Hcoh) in Hp. rewrite Hmiss, Hp. reflexivity.
Qed.

(** A call for a key that is neither cached nor pending starts a load:
    only then does the set of suspended loads grow. *)
Lemma loadFlagIcon_starts s k :
  map_get k (flagCache s) = None -> loadingPromises s !! k = None ->
  loadFlagIcon k s =
  (Awaits (next_promise s),
   mkState (flagCache s) (<[k := next_promise s]> (loadingPromises s))
           (<[next_promise s := k]> (inflight s)) (S (next_promise s))).
Proof. intros Hget Hpending. unfold loadFlagIcon. rewrite Hget, Hpending. reflexivity. Qed.

(** C6.  Once a load of [k] has succeeded with component [c], then after any
    further events that leave [k] cached, a call for [k] returns [c] itself,
    starts no load (pending table, suspended loads and promise counter are
    unchanged) and moves the entry to the most recently used end; right
    after the successful load [k] is cached. *)
Theorem loadFlagIcon_cache_hit (tr tr' : list event) (p : nat) (k : string)
    (c : FlagComponentType) :
  let s := run initial tr in
  let s1 := step s (Settle p true) in
  let s2 := run s1 tr' in
  inflight s !! p = Some k -> flags k = Some (Component c) ->
  isCached k s1 = true /\
  (isCached k s2 = true ->
   (loadFlagIcon k s2).1 = Cached c /\
   flagCache (loadFlagIcon k s2).2 = map_delete k (flagCache s2) ++ [(k, c)] /\
   last (getCachedCodes (loadFlagIcon k s2).2) = Some k /\
   getCacheSize (loadFlagIcon k s2).2 = getCacheSize s2 /\
   loadingPromises (loadFlagIcon k s2).2 = loadingPromises s2 /\
   inflight (loadFlagIcon k s2).2 = inflight s2 /\
   next_promise (loadFlagIcon k s2).2 = next_promise s2).
Proof.
  intros s s1 s2 Hp Hflag.
  assert (Hcoh : coherent s) by (apply run_coherent, coherent_initial).
  assert (Hcoh2 : coherent s2) by (apply run_coherent, step_coherent, Hcoh).
  split.
  - unfold s1, step, isCached. apply map_has_true.
    rewrite (settleLoad_component s p k c Hcoh Hp Hflag). cbn [snd flagCache].
    rewrite map_keys_snoc, elem_of_app, list_elem_of_singleton. tauto.
  - intros Hcached. apply map_has_true in Hcached.
    assert (Hget : map_get k (flagCache s2) = Some c).
    { destruct (map_get k (flagCache s2)) as [c' |] eqn:Hget.
      - pose proof (coh_entries s2 Hcoh2 k c' (map_get_Some_elem _ _ _ Hget)).
        congruence.
      - apply map_get_None in Hget. contradiction. }
    rewrite (loadFlagIcon_hit s2 k c Hget).
    cbn [fst snd flagCache loadingPromises inflight next_promise].
    repeat split.
    + unfold getCachedCodes. cbn [flagCache]. rewrite map_keys_snoc. apply last_snoc.
    + unfold getCacheSize. cbn [flagCache]. rewrite length_app. simpl.
      pose proof (map_delete_length (flagCache s2) k (coh_nodup s2 Hcoh2) Hcached).
      lia.
Qed.

(** C7.  In every reachable state no two suspended loads have the same key,
    and the pending table lists exactly the suspended loads; a call for a key
    with a suspended load returns that load's promise and changes nothing;
    and when a load settles, with either outcome of the import, its key
    leaves the pending table and no load for it stays suspended. *)
Theorem loadFlagIcon_coalesces (tr : list event) :
  let s := run initial tr in
  (forall p p' k, inflight s !! p = Some k -> inflight s !! p' = Some k -> p = p') /\
  (forall p k, inflight s !! p = Some k <-> loadingPromises s !! k = Some p) /\
  (forall p k, inflight s !! p = Some k -> loadFlagIcon k s = (Awaits p, s)) /\
  (forall p k import_ok,
     inflight s !! p = Some k ->
     loadingPromises (settleLoad p import_ok s).2 !! k = None /\
     (forall p', inflight (settleLoad p import_ok s).2 !! p' <> Some k)).
Proof.
  intros s.
  assert (Hcoh : coherent s) by (apply run_coherent, coherent_initial).
  split; [| split; [| split]].
  - intros p p' k Hp Hp'. apply (coh_table s Hcoh) in Hp, Hp'. congruence.
  - intros p k. symmetry. apply (coh_table s Hcoh).
  - intros p k Hp. apply loadFlagIcon_pending; assumption.
  - intros p k import_ok Hp.
    pose proof (settleLoad_coherent s p import_ok Hcoh) as Hcoh'.
    assert (Hgone : loadingPromises (settleLoad p import_ok s).2 !! k = None).
    { unfold settleLoad. rewrite Hp. simpl. apply lookup_delete_eq. }
    split; [exact Hgone |].
    intros p' Hp'. apply (coh_table _ Hcoh') in Hp'. congruence.
Qed.

(** C8.  When the import fails, or the module has no export of that name, or
    the export is not a function, the load resolves with null, the cache is
    exactly what it was and the key leaves the pending table; so an awaited
    call for an uncached key whose load fails leaves the cache as it
    found it. *)
Theorem settleLoad_failure (tr : list event) (k : string) (import_ok : bool) :
  let s := run initial tr in
  import_ok = false \/ flags k = None \/ flags k = Some NotAFunction ->
  (forall p, inflight s !! p = Some k ->
     (settleLoad p import_ok s).1 = Some None /\
     flagCache (settleLoad p import_ok s).2 = flagCache s /\
     loadingPromises (settleLoad p import_ok s).2 !! k = None) /\
  (isCached k s = false ->
   exists p,
     (loadFlagIcon k s).1 = Awaits p /\
     flagCache (loadFlagIcon k s).2 = flagCache s /\
     (settleLoad p import_ok (loadFlagIcon k s).2).1 = Some None /\
     flagCache (load import_ok s k) = flagCache s).
Proof.
  intros s Hfail.
  assert (Hcoh : coherent s) by (apply run_coherent, coherent_initial).
  split.
  - intros p Hp. rewrite (settleLoad_null s p k import_ok Hp Hfail). simpl.
    split; [reflexivity |]. split; [reflexivity | apply lookup_delete_eq].
  - intros Hcached. apply map_has_false, map_get_None in Hcached.
    assert (Hcall : exists p,
               (loadFlagIcon k s).1 = Awaits p /\
               flagCache (loadFlagIcon k s).2 = flagCache s /\
               inflight (loadFlagIcon k s).2 !! p = Some k).
    { destruct (loadingPromises s !! k) as [p |] eqn:Hpending.
      - exists p. apply (coh_table s Hcoh) in Hpending.
        rewrite (loadFlagIcon_pending s p k Hcoh Hpending). auto.
      - exists (next_promise s). rewrite (loadFlagIcon_starts s k Hcached Hpending).
        simpl. split; [reflexivity |]. split; [reflexivity |].
        apply lookup_insert_eq. }
    destruct Hcall as (p & Hanswer & Hcache & Hp). exists p.
    pose proof (settleLoad_null _ p k import_ok Hp Hfail) as Hsettle.
    split; [exact Hanswer |]. split; [exact Hcache |].
    split; [rewrite Hsettle; reflexivity |].
    unfold load. destruct (loadFlagIcon k s) as [a s1] eqn:Hload.
    simpl in Hanswer, Hcache, Hsettle. subst a.
    rewrite Hsettle. simpl. exact Hcache.
Qed.

(** *** Recency *)

(** The key an event touches: the key of a hit, or the key a successful
    load inserts. *)
Definition touched (s : state) (e : event) : option string :=
  match e with
  | Call countryCode =>
    if map_has countryCode (flagCache s) then Some countryCode else None
  | Settle p import_ok =>
    match inflight s !! p with
    | Some countryCode =>
      match flags countryCode with
      | Some (Component _) => if import_ok then Some countryCode else None
      | _ => None
      end
    | None => None
    end
  end.

(** For each key, the index in the run of the last event that touched it:
    the run [tr] continues from state [s] at index [n] with the indices [m]
    found so far. *)
Fixpoint last_touches (s : state) (n : nat) (m : gmap string nat)
    (tr : list event) : gmap string nat :=
  match tr with
  | [] => m
  | e :: tr' =>
    last_touches (step s e) (S n)
      match touched s e with
      | Some k => <[k := n]> m
      | None => m
      end
      tr'
  end.

(** The key touched by the event of index [j] of the run [tr] from [s]. *)
Fixpoint touch_at (s : state) (tr : list event) (j : nat) : option string :=
  match tr, j with
  | [], _ => None
  | e :: _, O => touched s e
  | e :: tr', S j' => touch_at (step s e) tr' j'
  end.

(** [a] was last touched strictly before [b]. *)
Definition touched_before (m : gmap string nat) (a b : string) : Prop :=
  exists ta tb, m !! a = Some ta /\ m !! b = Some tb /\ (ta < tb)%nat.

(** The cache lists its keys from the least to the most recently touched. *)
Record recency_ordered (s : state) (n : nat) (m : gmap string nat) : Prop := mkRecency {
  rec_stamped : forall k, k ∈ map_keys (flagCache s) ->
                exists t, m !! k = Some t /\ (t < n)%nat;
  rec_sorted : StronglySorted (touched_before m) (map_keys (flagCache s))
}.

Lemma StronglySorted_filter {A : Type} (R : relation A) (P : A -> Prop)
    `{forall x, Decision (P x)} (l : list A) :
  StronglySorted R l -> StronglySorted R (filter P l).
Proof.
  induction l as [| x l IH]; [intros _; constructor |].
  rewrite StronglySorted_cons. intros [Hall Hsorted].
  destruct (decide (P x)) as [HP | HP].
  - rewrite filter_cons_True by exact HP. apply StronglySorted_cons.
    split; [| apply IH, Hsorted].
    rewrite Forall_forall in *. intros y Hy.
    apply list_elem_of_filter in Hy. apply Hall, Hy.
  - rewrite filter_cons_False by exact HP. apply IH, Hsorted.
Qed.

Lemma StronglySorted_ext {A : Type} (R R' : relation A) (l : list A) :
  (forall a b, a ∈ l -> b ∈ l -> R a b -> R' a b) ->
  StronglySorted R l -> StronglySorted R' l.
Proof.
  induction l as [| x l IH]; [intros _ _; constructor |].
  intros Himpl. rewrite !StronglySorted_cons. intros [Hall Hsorted]. split.
  - rewrite Forall_forall in *. intros y Hy.
    apply Himpl; [apply list_elem_of_here | apply list_elem_of_further, Hy | apply Hall, Hy].
  - apply IH; [| exact Hsorted].
    intros a b Ha Hb. apply Himpl; apply list_elem_of_further; assumption.
Qed.

(** Moving or adding [k] at the end of a part of the cache, stamped with the
    current index, keeps the order. *)
Lemma recency_touch (keys keys' : list string) (k : string) (n : nat)
    (m : gmap string nat) :
  (forall k', k' ∈ keys -> exists t, m !! k' = Some t /\ (t < n)%nat) ->
  StronglySorted (touched_before m) keys ->
  (exists P (Hdec : forall x, Decision (P x)), keys' = filter P keys) ->
  k ∉ keys' ->
  (forall k', k' ∈ keys' ++ [k] ->
     exists t, <[k := n]> m !! k' = Some t /\ (t < S n)%nat) /\
  StronglySorted (touched_before (<[k := n]> m)) (keys' ++ [k]).
Proof.
  intros Hstamped Hsorted (P & Hdec & ->) Hk.
  assert (Hold : forall k', k' ∈ filter P keys ->
             exists t, <[k := n]> m !! k' = Some t /\ (t < n)%nat).
  { intros k' Hk'. assert (k' <> k) by congruence.
    rewrite lookup_insert_ne by congruence.
    apply Hstamped. apply list_elem_of_filter in Hk'. tauto. }
  split.
  - intros k' Hk'. apply elem_of_app in Hk' as [Hk' | Hk'].
    + destruct (Hold k' Hk') as (t & Ht & Hlt). exists t. split; [exact Ht | lia].
    + apply list_elem_of_singleton in Hk' as ->. exists n.
      rewrite lookup_insert_eq. split; [reflexivity | lia].
  - apply StronglySorted_app. split; [| split].
    + intros a b Ha Hb. apply list_elem_of_singleton in Hb as ->.
      destruct (Hold a Ha) as (t & Ht & Hlt). exists t, n.
      rewrite lookup_insert_eq. tauto.
    + apply (StronglySorted_ext (touched_before m));
        [| apply StronglySorted_filter, Hsorted].
      intros a b Ha Hb (ta & tb & Hta & Htb & Hlt).
      exists ta, tb. rewrite !lookup_insert_ne by congruence. tauto.
    + repeat constructor.
Qed.

Lemma evict_oldest_filter cache :
  exists P (Hdec : forall x, Decision (P x)),
    map_keys (evict_oldest cache) = filter P (map_keys cache).
Proof.
  assert (Hsame : exists P (Hdec : forall x : string, Decision (P x)),
             map_keys cache = filter P (map_keys cache)).
  { exists (fun _ => True), _. induction (map_keys cache) as [| k' keys IH];
      [reflexivity |].
    rewrite filter_cons_True by exact I. rewrite <- IH. reflexivity. }
  unfold evict_oldest.
  destruct (MAX_CACHE_SIZE <=? length cache)%nat; [| exact Hsame].
  destruct (map_keys cache) as [| oldestKey keys] eqn:Hkeys;
    [rewrite Hkeys; exact Hsame |].
  destruct (String.eqb oldestKey ""); [rewrite Hkeys; exact Hsame |].
  exists (fun k' => k' <> oldestKey), _. rewrite map_keys_delete, Hkeys. reflexivity.
Qed.

Lemma step_recency s e n m :
  coherent s -> recency_ordered s n m ->
  recency_ordered (step s e) (S n)
    match touched s e with Some k => <[k := n]> m | None => m end.
Proof.
  intros Hcoh [Hstamped Hsorted].
  assert (Hidle : forall s', flagCache s' = flagCache s -> recency_ordered s' (S n) m).
  { intros s' Heq. split; rewrite Heq; [| exact Hsorted].
    intros k Hk. destruct (Hstamped k Hk) as (t & Ht & Hlt).
    exists t. split; [exact Ht | lia]. }
  destruct e as [k | p import_ok]; simpl.
  - destruct (map_get k (flagCache s)) as [c |] eqn:Hget.
    + assert (Hhas : map_has k (flagCache s) = true)
        by (apply map_has_true; eapply map_get_Some_key, Hget).
      rewrite Hhas, (loadFlagIcon_hit s k c Hget). cbn [snd].
      destruct (recency_touch (map_keys (flagCache s))
                  (map_keys (map_delete k (flagCache s))) k n m Hstamped Hsorted)
        as [Hstamped' Hsorted'].
      * exists (fun k' => k' <> k), _. apply map_keys_delete.
      * apply map_keys_delete_absent.
      * split; cbn [flagCache]; rewrite map_keys_snoc; assumption.
    + assert (Hhas : map_has k (flagCache s) = false)
        by (apply map_has_false, map_get_None, Hget).
      rewrite Hhas. apply Hidle. unfold loadFlagIcon. rewrite Hget.
      destruct (loadingPromises s !! k); reflexivity.
  - destruct (inflight s !! p) as [k |] eqn:Hp;
      [| apply Hidle; unfold settleLoad; rewrite Hp; reflexivity].
    destruct (flags k) as [[c |] |] eqn:Hflag;
      [| apply Hidle; rewrite (settleLoad_null s p k import_ok Hp) by tauto;
         reflexivity ..].
    destruct import_ok;
      [| apply Hidle; rewrite (settleLoad_null s p k false Hp) by tauto; reflexivity].
    rewrite (settleLoad_component s p k c Hcoh Hp Hflag). cbn [snd].
    destruct (recency_touch (map_keys (flagCache s))
                (map_keys (evict_oldest (flagCache s))) k n m Hstamped Hsorted)
      as [Hstamped' Hsorted'].
    + apply evict_oldest_filter.
    + intros Hin. apply evict_oldest_keys in Hin. exact (coh_miss s Hcoh p k Hp Hin).
    + split; cbn [flagCache]; rewrite map_keys_snoc; assumption.
Qed.

Lemma run_recency s n m tr :
  coherent s -> recency_ordered s n m ->
  recency_ordered (run s tr) (n + length tr) (last_touches s n m tr).
Proof.
  revert s n m. induction tr as [| e tr IH]; intros s n m Hcoh Hrec; simpl.
  - rewrite Nat.add_0_r. exact Hrec.
  - replace (n + S (length tr))%nat with (S n + length tr)%nat by lia.
    apply IH; [apply step_coherent, Hcoh | apply step_recency; assumption].
Qed.

(** [last_touches] is what its name says: a key has the index [i] exactly
    when the event of index [i] touched it and no later event did. *)
Lemma last_touches_lookup s n m tr k i :
  last_touches s n m tr !! k = Some i <->
  (exists j, i = (n + j)%nat /\ touch_at s tr j = Some k /\
             forall j', (j < j')%nat -> touch_at s tr j' <> Some k) \/
  (m !! k = Some i /\ forall j, touch_at s tr j <> Some k).
Proof.
  revert s n m. induction tr as [| e tr IH]; intros s n m; simpl.
  - split.
    + intros Hm. right. split; [exact Hm | intros j; destruct j; discriminate].
    + intros [(j & _ & Hj & _) | [Hm _]]; [destruct j; discriminate | exact Hm].
  - rewrite IH. clear IH. split.
    + intros [(j & -> & Hj & Hlater) | [Hm Hnone]].
      * left. exists (S j). split; [lia |]. split; [exact Hj |].
        intros [| j'] Hlt; [lia |]. apply Hlater. lia.
      * destruct (touched s e) as [k0 |] eqn:Htouched.
        -- apply lookup_insert_Some in Hm as [[-> <-] | [Hne Hm]].
           ++ left. exists 0%nat. split; [lia |]. split; [reflexivity |].
              intros [| j'] Hlt; [lia | apply Hnone].
           ++ right. split; [exact Hm |].
              intros [| j]; [congruence | apply Hnone].
        -- right. split; [exact Hm |].
           intros [| j]; [discriminate | apply Hnone].
    + intros [(j & -> & Hj & Hlater) | [Hm Hnone]].
      * destruct j as [| j].
        -- right. rewrite Hj. split; [rewrite lookup_insert_eq; f_equal; lia |].
           intros j. apply (Hlater (S j)). lia.
        -- left. exists j. split; [lia |]. split; [exact Hj |].
           intros j' Hlt. apply (Hlater (S j')). lia.
      * right. split; [| intros j; apply (Hnone (S j))].
        pose proof (Hnone 0%nat) as Hfirst. simpl in Hfirst.
        destruct (touched s e) as [k0 |]; [| exact Hm].
        rewrite lookup_insert_ne by congruence. exact Hm.
Qed.

(** The event of index [i] of the run [tr] is the last that touched [k]. *)
Definition last_touch (tr : list event) (k : string) (i : nat) : Prop :=
  touch_at initial tr i = Some k /\
  forall j, (i < j)%nat -> touch_at initial tr j <> Some k.

Lemma last_touches_initial tr k i :
  last_touches initial 0 ∅ tr !! k = Some i <-> last_touch tr k i.
Proof.
  rewrite last_touches_lookup. unfold last_touch. split.
  - intros [(j & -> & Hj & Hlater) | [Hm _]]; [auto |].
    rewrite lookup_empty in Hm. discriminate.
  - intros [Hi Hlater]. left. exists i. auto.
Qed.

Lemma recency_initial : recency_ordered initial 0 ∅.
Proof.
  split; simpl; [| constructor].
  intros k Hk. apply elem_of_nil in Hk. contradiction.
Qed.

(** *** Capacity *)

Section Bounded.

(** The icon module exports no component under the empty name, the one key
    that [if (oldestKey)] would refuse to evict. *)
Hypothesis flags_named : flags "" = None.

Lemma cached_key_truthy s k :
  coherent s -> k ∈ map_keys (flagCache s) -> k <> "".
Proof.
  intros Hcoh Hk ->. unfold map_keys in Hk.
  apply list_elem_of_fmap in Hk as ([k c] & Hkey & Hin). simpl in Hkey. subst k.
  apply (coh_entries s Hcoh) in Hin. congruence.
Qed.

(** On a full cache the eviction step removes exactly the first entry. *)
Lemma evict_oldest_at_capacity s :
  coherent s -> (MAX_CACHE_SIZE <= length (flagCache s))%nat ->
  exists k0 c0 rest,
    flagCache s = (k0, c0) :: rest /\ evict_oldest (flagCache s) = rest.
Proof.
  intros Hcoh Hfull.
  destruct (flagCache s) as [| [k0 c0] rest] eqn:Hcache;
    [simpl in Hfull; unfold MAX_CACHE_SIZE in Hfull; lia |].
  exists k0, c0, rest. split; [reflexivity |].
  pose proof (coh_nodup s Hcoh) as Hnd. rewrite Hcache in Hnd.
  apply NoDup_cons in Hnd as [Hnotin _].
  apply evict_oldest_full; [| exact Hnotin | exact Hfull].
  apply (cached_key_truthy s); [exact Hcoh |].
  rewrite Hcache. apply list_elem_of_here.
Qed.

Lemma evict_oldest_length s :
  coherent s -> (length (flagCache s) <= MAX_CACHE_SIZE)%nat ->
  (length (evict_oldest (flagCache s)) < MAX_CACHE_SIZE)%nat.
Proof.
  intros Hcoh Hle.
  destruct (Nat.lt_ge_cases (length (flagCache s)) MAX_CACHE_SIZE) as [Hlt | Hge].
  - rewrite evict_oldest_room; assumption.
  - destruct (evict_oldest_at_capacity s Hcoh Hge) as (k0 & c0 & rest & Hcache & ->).
    rewrite Hcache in Hle. simpl in Hle. lia.
Qed.

Lemma step_bounded s e :
  coherent s -> (length (flagCache s) <= MAX_CACHE_SIZE)%nat ->
  (length (flagCache (step s e)) <= MAX_CACHE_SIZE)%nat.
Proof.
  intros Hcoh Hle. destruct e as [k | p import_ok]; simpl.
  - destruct (map_get k (flagCache s)) as [c |] eqn:Hget.
    + rewrite (loadFlagIcon_hit s k c Hget). cbn [snd flagCache].
      rewrite length_app. simpl.
      pose proof (map_delete_length (flagCache s) k (coh_nodup s Hcoh)
                    (map_get_Some_key _ _ _ Hget)). lia.
    + unfold loadFlagIcon. rewrite Hget.
      destruct (loadingPromises s !! k); exact Hle.
  - destruct (inflight s !! p) as [k |] eqn:Hp;
      [| unfold settleLoad; rewrite Hp; exact Hle].
    destruct (flags k) as [[c |] |] eqn:Hflag;
      [| rewrite (settleLoad_null s p k import_ok Hp) by tauto; exact Hle ..].
    destruct import_ok;
      [| rewrite (settleLoad_null s p k false Hp) by tauto; exact Hle].
    rewrite (settleLoad_component s p k c Hcoh Hp Hflag). cbn [snd flagCache].
    rewrite length_app. simpl.
    pose proof (evict_oldest_length s Hcoh Hle). lia.
Qed.

Lemma run_bounded s tr :
  coherent s -> (length (flagCache s) <= MAX_CACHE_SIZE)%nat ->
  (length (flagCache (run s tr)) <= MAX_CACHE_SIZE)%nat.
Proof.
  revert s. induction tr as [| e tr IH]; intros s Hcoh Hle; simpl; [exact Hle |].
  apply IH; [apply step_coherent, Hcoh | apply step_bounded; assumption].
Qed.

(** C5.  After any sequence of calls and settlements, in any interleaving and
    with any outcomes, the cache holds at most 30 entries.  A call never
    grows it.  A successful load appends its entry when there is room, and
    on a full cache it removes one entry, the first, and appends its own;
    the last event that touched the removed key (a hit or its insertion)
    comes before the last event that touched any other cached key. *)
Theorem flagCache_bounded_lru (tr : list event) :
  let s := run initial tr in
  MAX_CACHE_SIZE = 30%nat /\
  (getCacheSize s <= 30)%nat /\
  (forall k, getCacheSize (loadFlagIcon k s).2 = getCacheSize s) /\
  (forall p k c,
     inflight s !! p = Some k -> flags k = Some (Component c) ->
     ((getCacheSize s < 30)%nat ->
      flagCache (settleLoad p true s).2 = flagCache s ++ [(k, c)]) /\
     (getCacheSize s = 30%nat ->
      exists k0 c0 rest,
        flagCache s = (k0, c0) :: rest /\
        flagCache (settleLoad p true s).2 = rest ++ [(k, c)] /\
        getCacheSize (settleLoad p true s).2 = 30%nat /\
        forall k', k' ∈ map_keys rest ->
          exists t0 t', last_touch tr k0 t0 /\ last_touch tr k' t' /\ (t0 < t')%nat)).
Proof.
  intros s. set (m := last_touches initial 0 ∅ tr).
  assert (Hcoh : coherent s) by (apply run_coherent, coherent_initial).
  assert (Hle : (length (flagCache s) <= MAX_CACHE_SIZE)%nat).
  { apply run_bounded; [apply coherent_initial | simpl; unfold MAX_CACHE_SIZE; lia]. }
  assert (Hrec : recency_ordered s (0 + length tr) m).
  { apply run_recency; [apply coherent_initial | apply recency_initial]. }
  split; [reflexivity |]. split; [exact Hle |]. split.
  - intros k. unfold getCacheSize.
    destruct (map_get k (flagCache s)) as [c |] eqn:Hget.
    + rewrite (loadFlagIcon_hit s k c Hget). cbn [snd flagCache].
      rewrite length_app. simpl.
      pose proof (map_delete_length (flagCache s) k (coh_nodup s Hcoh)
                    (map_get_Some_key _ _ _ Hget)). lia.
    + unfold loadFlagIcon. rewrite Hget.
      destruct (loadingPromises s !! k); reflexivity.
  - intros p k c Hp Hflag.
    rewrite (settleLoad_component s p k c Hcoh Hp Hflag). cbn [snd flagCache].
    unfold getCacheSize. cbn [flagCache]. split.
    + intros Hroom. rewrite evict_oldest_room; [reflexivity | exact Hroom].
    + intros Hfull.
      destruct (evict_oldest_at_capacity s Hcoh) as (k0 & c0 & rest & Hcache & Hevict).
      { rewrite Hfull. reflexivity. }
      exists k0, c0, rest. rewrite Hevict. split; [exact Hcache |].
      split; [reflexivity |]. split.
      * rewrite length_app. simpl. rewrite Hcache in Hfull. simpl in Hfull. lia.
      * pose proof (rec_sorted s _ m Hrec) as Hsorted.
        rewrite Hcache in Hsorted. unfold map_keys in Hsorted.
        rewrite fmap_cons in Hsorted.
        apply StronglySorted_cons in Hsorted as [Hall _].
        intros k' Hk'. rewrite Forall_forall in Hall.
        destruct (Hall k' Hk') as (t0 & t' & Ht0 & Ht' & Hlt).
        exists t0, t'. split; [apply last_touches_initial, Ht0 |].
        split; [apply last_touches_initial, Ht' | exact Hlt].
Qed.

(** *** Awaited loads, one after the other *)

(** Nothing is being loaded. *)
Definition quiescent (s : state) : Prop :=
  loadingPromises s = ∅ /\ inflight s = ∅.

Lemma load_coherent import_ok s k : coherent s -> coherent (load import_ok s k).
Proof.
  intros Hcoh. unfold load.
  pose proof (loadFlagIcon_coherent s k Hcoh) as Hcoh1.
  destruct (loadFlagIcon k s) as [[c | p] s1]; simpl in Hcoh1; [exact Hcoh1 |].
  apply settleLoad_coherent, Hcoh1.
Qed.

Lemma load_cached import_ok s k c :
  map_get k (flagCache s) = Some c ->
  load import_ok s k =
  mkState (map_delete k (flagCache s) ++ [(k, c)])
          (loadingPromises s) (inflight s) (next_promise s).
Proof. intros Hget. unfold load. rewrite (loadFlagIcon_hit s k c Hget). reflexivity. Qed.

Lemma load_fresh s k c :
  coherent s -> quiescent s ->
  k ∉ map_keys (flagCache s) -> flags k = Some (Component c) ->
  load true s k =
  mkState (evict_oldest (flagCache s) ++ [(k, c)]) ∅ ∅ (S (next_promise s)).
Proof.
  intros Hcoh [Hpending Hinflight] Hk Hflag.
  apply map_get_None in Hk.
  assert (Hnone : loadingPromises s !! k = None)
    by (rewrite Hpending; apply lookup_empty).
  pose proof (loadFlagIcon_coherent s k Hcoh) as Hcoh1.
  unfold load. rewrite (loadFlagIcon_starts s k Hk Hnone) in *.
  cbn [snd] in Hcoh1.
  rewrite (settleLoad_component _ (next_promise s) k c Hcoh1);
    [| apply lookup_insert_eq | exact Hflag].
  cbn [snd flagCache loadingPromises inflight next_promise].
  rewrite Hpending, Hinflight, !delete_insert_eq, !delete_empty. reflexivity.
Qed.

Section Sequence.

(** The component the module exports under each name of interest. *)
Variable comp : string -> FlagComponentType.

Definition entry (k : string) : string * FlagComponentType := (k, comp k).

Lemma map_keys_entries (ks : list string) : map_keys (entry <$> ks) = ks.
Proof.
  unfold map_keys. rewrite <- list_fmap_compose.
  induction ks as [| k ks IH]; [reflexivity |].
  rewrite fmap_cons, IH. reflexivity.
Qed.

(** Loading distinct new keys one after the other keeps the last 30. *)
Lemma load_all_fresh (ks pre : list string) (s : state) :
  coherent s -> quiescent s ->
  flagCache s = entry <$> pre -> (length pre <= MAX_CACHE_SIZE)%nat ->
  NoDup (pre ++ ks) ->
  (forall k, k ∈ ks -> flags k = Some (Component (comp k))) ->
  coherent (load_all s ks) /\ quiescent (load_all s ks) /\
  flagCache (load_all s ks)
  = entry <$> drop (length (pre ++ ks) - MAX_CACHE_SIZE) (pre ++ ks).
Proof.
  revert pre s. induction ks as [| k ks IH]; intros pre s Hcoh Hq Hcache Hle Hnd Hflags.
  - simpl. rewrite app_nil_r.
    replace (length pre - MAX_CACHE_SIZE)%nat with 0%nat by lia.
    rewrite drop_0. auto.
  - assert (Hk : k ∉ map_keys (flagCache s)).
    { rewrite Hcache, map_keys_entries. apply NoDup_app in Hnd as (_ & Hdisj & _).
      intros Hin. apply (Hdisj k Hin), list_elem_of_here. }
    assert (Hflag : flags k = Some (Component (comp k)))
      by (apply Hflags, list_elem_of_here).
    pose proof (load_fresh s k (comp k) Hcoh Hq Hk Hflag) as Hload.
    pose proof (load_coherent true s k Hcoh) as Hcoh1.
    assert (Hq1 : quiescent (load true s k)) by (rewrite Hload; split; reflexivity).
    assert (Hflags' : forall k', k' ∈ ks -> flags k' = Some (Component (comp k')))
      by (intros k' Hk'; apply Hflags, list_elem_of_further, Hk').
    change (load_all s (k :: ks)) with (load_all (load true s k) ks).
    destruct (Nat.lt_ge_cases (length pre) MAX_CACHE_SIZE) as [Hlt | Hge].
    + assert (Hcache1 : flagCache (load true s k) = entry <$> (pre ++ [k])).
      { rewrite Hload. cbn [flagCache]. rewrite evict_oldest_room.
        - rewrite Hcache, fmap_app. reflexivity.
        - rewrite Hcache, length_fmap. exact Hlt. }
      destruct (IH (pre ++ [k]) (load true s k) Hcoh1 Hq1 Hcache1) as (H1 & H2 & H3).
      * rewrite length_app. simpl. lia.
      * rewrite <- app_assoc. exact Hnd.
      * exact Hflags'.
      * rewrite <- app_assoc in H3. auto.
    + destruct (evict_oldest_at_capacity s Hcoh) as (k0 & c0 & rest & Hs & Hevict).
      { rewrite Hcache, length_fmap. exact Hge. }
      destruct pre as [| k0' pre0]; [simpl in Hge; unfold MAX_CACHE_SIZE in Hge; lia |].
      rewrite Hcache, fmap_cons in Hs. injection Hs as _ _ Hrest.
      assert (Hcache1 : flagCache (load true s k) = entry <$> (pre0 ++ [k])).
      { rewrite Hload. cbn [flagCache]. rewrite Hevict, <- Hrest, fmap_app. reflexivity. }
      simpl in Hle, Hge.
      destruct (IH (pre0 ++ [k]) (load true s k) Hcoh1 Hq1 Hcache1) as (H1 & H2 & H3).
      * rewrite length_app. simpl. lia.
      * rewrite <- app_assoc. simpl in Hnd. apply NoDup_cons in Hnd. tauto.
      * exact Hflags'.
      * rewrite <- app_assoc in H3. simpl in H3.
        split; [exact H1 |]. split; [exact H2 |]. rewrite H3.
        simpl app. simpl length.
        rewrite length_app. simpl length.
        replace (S (length pre0 + S (length ks)) - MAX_CACHE_SIZE)%nat
          with (S (length pre0 + S (length ks) - MAX_CACHE_SIZE))%nat by lia.
        reflexivity.
Qed.

(** C4.  With capacity 30, the awaited loads of 31 distinct keys
    [k1; k2; k3; ...; k31] leave [k2 .. k31] cached, 30 entries, [k1] evicted.
    Loading [k2] again is a hit that moves it to the most recently used end,
    so the load of a further key [k32] evicts [k3] and keeps [k2]. *)
Theorem flagCache_lru_scenario (k1 k2 k3 k31 k32 : string) (mid : list string) :
  length mid = 27%nat ->
  NoDup (k1 :: k2 :: k3 :: mid ++ [k31; k32]) ->
  (forall k, k ∈ k1 :: k2 :: k3 :: mid ++ [k31; k32] ->
             flags k = Some (Component (comp k))) ->
  let s31 := load_all initial (k1 :: k2 :: k3 :: mid ++ [k31]) in
  let s31' := load true s31 k2 in
  let s32 := load true s31' k32 in
  MAX_CACHE_SIZE = 30%nat /\
  (getCachedCodes s31 = k2 :: k3 :: mid ++ [k31] /\
   getCacheSize s31 = 30%nat /\ isCached k1 s31 = false) /\
  ((loadFlagIcon k2 s31).1 = Cached (comp k2) /\
   getCachedCodes s31' = k3 :: mid ++ [k31; k2]) /\
  (getCachedCodes s32 = mid ++ [k31; k2; k32] /\
   getCacheSize s32 = 30%nat /\
   isCached k3 s32 = false /\ isCached k2 s32 = true).
Proof.
  intros Hmid Hnd Hflags s31 s31' s32.
  assert (Hnd31 : NoDup ([] ++ k1 :: k2 :: k3 :: mid ++ [k31])).
  { simpl. replace (k1 :: k2 :: k3 :: mid ++ [k31; k32])
      with ((k1 :: k2 :: k3 :: mid ++ [k31]) ++ [k32]) in Hnd
      by (simpl; rewrite <- app_assoc; reflexivity).
    apply NoDup_app in Hnd. tauto. }
  assert (Hflags31 : forall k, k ∈ k1 :: k2 :: k3 :: mid ++ [k31] ->
                               flags k = Some (Component (comp k))).
  { intros k Hk. apply Hflags.
    rewrite !elem_of_cons, elem_of_app, !elem_of_cons in *. tauto. }
  destruct (load_all_fresh (k1 :: k2 :: k3 :: mid ++ [k31]) [] initial
              coherent_initial (conj eq_refl eq_refl) eq_refl
              ltac:(simpl; unfold MAX_CACHE_SIZE; lia) Hnd31 Hflags31)
    as (Hcoh31 & Hq31 & Hcache31).
  fold s31 in Hcoh31, Hq31, Hcache31.
  assert (Hdrop : drop (length ([] ++ k1 :: k2 :: k3 :: mid ++ [k31]) - MAX_CACHE_SIZE)
                       ([] ++ k1 :: k2 :: k3 :: mid ++ [k31])
                  = k2 :: k3 :: mid ++ [k31]).
  { simpl. rewrite length_app, Hmid. reflexivity. }
  rewrite Hdrop in Hcache31.
  apply NoDup_cons in Hnd as [Hk1 Hnd]. apply NoDup_cons in Hnd as [Hk2 Hnd].
  apply NoDup_cons in Hnd as [Hk3 Hnd].
  rewrite !not_elem_of_cons, not_elem_of_app, !not_elem_of_cons in Hk1.
  rewrite not_elem_of_cons, not_elem_of_app, !not_elem_of_cons in Hk2.
  rewrite not_elem_of_app, !not_elem_of_cons in Hk3.
  assert (Hget2 : map_get k2 (flagCache s31) = Some (comp k2)).
  { rewrite Hcache31. simpl. rewrite String.eqb_refl. reflexivity. }
  assert (Hcache31' : flagCache s31' = entry <$> (k3 :: mid ++ [k31; k2])).
  { unfold s31'. rewrite (load_cached true s31 k2 (comp k2) Hget2). cbn [flagCache].
    rewrite Hcache31, fmap_cons. unfold entry at 1.
    rewrite map_delete_head.
    - replace (k3 :: mid ++ [k31; k2]) with ((k3 :: mid ++ [k31]) ++ [k2])
        by (simpl; rewrite <- app_assoc; reflexivity).
      rewrite (fmap_app entry (k3 :: mid ++ [k31]) [k2]). reflexivity.
    - rewrite map_keys_entries, not_elem_of_cons, not_elem_of_app, not_elem_of_cons.
      tauto. }
  assert (Hcoh31' : coherent s31') by apply load_coherent, Hcoh31.
  assert (Hq31' : quiescent s31').
  { unfold s31'. rewrite (load_cached true s31 k2 (comp k2) Hget2). exact Hq31. }
  assert (Htail : (k32 ∉ mid) /\ k31 <> k32).
  { apply NoDup_app in Hnd as (_ & Hdisj & Hnd2).
    apply NoDup_cons in Hnd2 as [Hk31 _].
    rewrite list_elem_of_singleton in Hk31. split; [| exact Hk31].
    intros Hin. apply (Hdisj k32 Hin). rewrite !elem_of_cons. tauto. }
  assert (Hk32 : k32 ∉ map_keys (flagCache s31')).
  { rewrite Hcache31', map_keys_entries.
    rewrite not_elem_of_cons, not_elem_of_app, !not_elem_of_cons.
    pose proof (not_elem_of_nil k32). intuition congruence. }
  assert (Hcache32 : flagCache s32 = entry <$> (mid ++ [k31; k2; k32])).
  { unfold s32.
    rewrite (load_fresh s31' k32 (comp k32) Hcoh31' Hq31' Hk32)
      by (apply Hflags; rewrite !elem_of_cons, elem_of_app, !elem_of_cons; tauto).
    cbn [flagCache]. rewrite Hcache31', fmap_cons. unfold entry at 1.
    rewrite evict_oldest_full.
    - replace (mid ++ [k31; k2; k32]) with ((mid ++ [k31; k2]) ++ [k32])
        by (rewrite <- app_assoc; reflexivity).
      rewrite (fmap_app entry (mid ++ [k31; k2]) [k32]). reflexivity.
    - intros ->.
      assert (flags "" = Some (Component (comp "")))
        by (apply Hflags; rewrite !elem_of_cons; tauto).
      congruence.
    - rewrite map_keys_entries, not_elem_of_app, !not_elem_of_cons.
      intuition congruence.
    - rewrite length_fmap, length_app, Hmid. reflexivity. }
  split; [reflexivity |]. split; [| split].
  - unfold getCachedCodes, getCacheSize, isCached.
    rewrite Hcache31, map_keys_entries. split; [reflexivity |]. split.
    + rewrite length_fmap. simpl. rewrite length_app, Hmid. reflexivity.
    + apply map_has_false. rewrite map_keys_entries.
      rewrite !not_elem_of_cons, not_elem_of_app, not_elem_of_cons. tauto.
  - rewrite (loadFlagIcon_hit s31 k2 (comp k2) Hget2). split; [reflexivity |].
    unfold getCachedCodes. rewrite Hcache31', map_keys_entries. reflexivity.
  - unfold getCachedCodes, getCacheSize, isCached.
    rewrite Hcache32, map_keys_entries. split; [reflexivity |]. split; [| split].
    + rewrite length_fmap, length_app, Hmid. reflexivity.
    + apply map_has_false. rewrite map_keys_entries.
      rewrite not_elem_of_app, !not_elem_of_cons. intuition congruence.
    + apply map_has_true. rewrite map_keys_entries.
      rewrite elem_of_app, !elem_of_cons. tauto.
Qed.

End Sequence.

End Bounded.

End WithFlags.

Arguments Component {FlagComponentType} c.
Arguments NotAFunction {FlagComponentType}.
Arguments Cached {FlagComponentType} c.
Arguments Awaits {FlagComponentType} p.
Arguments initial {FlagComponentType}.
Arguments flagCache {FlagComponentType} s.
Arguments loadingPromises {FlagComponentType} s.
Arguments inflight {FlagComponentType} s.
Arguments loadFlagIcon {FlagComponentType} countryCode s.
Arguments settleLoad {FlagComponentType} flags p import_ok s.
Arguments clearCache {FlagComponentType} s.
Arguments getCacheSize {FlagComponentType} s.
Arguments isCached {FlagComponentType} countryCode s.
Arguments getCachedCodes {FlagComponentType} s.
Arguments step {FlagComponentType} flags s e.
Arguments run {FlagComponentType} flags s tr.
Arguments load {FlagComponentType} flags import_ok s countryCode.
Arguments load_all {FlagComponentType} flags s codes.
Arguments last_touches {FlagComponentType} flags s n m tr.

(** *** A concrete icon module *)

(** The country codes of the test suite. *)
Definition VALID_COUNTRY_CODES : list string :=
  ["US"; "CN"; "HK"; "TW"; "JP"; "KR"; "GB"; "DE"; "FR"; "AU";
   "CA"; "IT"; "ES"; "NL"; "SE"; "CH"; "PL"; "TR"; "RU"; "IN";
   "BR"; "MX"; "SG"; "MY"; "TH"; "VN"; "PH"; "ID"; "NZ"; "IE";
   "AT"; "BE"; "DK"; "FI"; "NO"; "PT"; "GR"; "CZ"; "HU"; "RO";
   "UA"; "ZA"; "EG"; "NG"; "KE"; "AR"; "CL"; "CO"; "PE"; "VE";
   "SA"; "AE"; "IL"; "PK"; "BD"].

(** A module that exports one component per country code, named by it, and
    one value that is not a function. *)
Definition icons (name : string) : option (@export string) :=
  if bool_decide (name ∈ VALID_COUNTRY_CODES) then Some (Component name)
  else if String.eqb name "default" then Some NotAFunction
  else None.

(** The 27 codes loaded between the third and the thirty-first. *)
Definition middle_codes : list string := take 27 (drop 3 VALID_COUNTRY_CODES).

Lemma flagCache_lru_scenario_witness :
  getCachedCodes (load_all icons initial (take 31 VALID_COUNTRY_CODES))
  = drop 1 (take 31 VALID_COUNTRY_CODES) /\
  getCachedCodes
    (load icons true
       (load icons true (load_all icons initial (take 31 VALID_COUNTRY_CODES)) "CN")
       "BE")
  = middle_codes ++ ["AT"; "CN"; "BE"].
Proof.
  assert (Hnd : NoDup ("US" :: "CN" :: "HK" :: middle_codes ++ ["AT"; "BE"]))
    by (apply (bool_decide_unpack _); vm_compute; exact I).
  assert (Hflags : forall k, k ∈ "US" :: "CN" :: "HK" :: middle_codes ++ ["AT"; "BE"] ->
                             icons k = Some (Component (id k))).
  { intros k Hk. cbv [middle_codes take drop VALID_COUNTRY_CODES app] in Hk.
    repeat (apply elem_of_cons in Hk as [-> | Hk]; [vm_compute; reflexivity |]).
    apply elem_of_nil in Hk. contradiction. }
  pose proof (flagCache_lru_scenario string icons eq_refl id
                "US" "CN" "HK" "AT" "BE" middle_codes eq_refl Hnd Hflags) as Hscenario.
  cbv zeta in Hscenario.
  destruct Hscenario as (_ & (Hcodes31 & _) & _ & (Hcodes32 & _)).
  split; [exact Hcodes31 | exact Hcodes32].
Defined.

(** The events of awaited loads of new keys, the first with promise [p]. *)
Fixpoint awaited (p : nat) (codes : list string) : list event :=
  match codes with
  | [] => []
  | k :: codes' => Call k :: Settle p true :: awaited (S p) codes'
  end.

(** Thirty awaited loads, then a call for a thirty-first code. *)
Definition full_then_call : list event :=
  awaited 0 (take 30 VALID_COUNTRY_CODES) ++ [Call "AT"].

Lemma flagCache_bounded_lru_witness :
  (getCacheSize (run icons initial full_then_call) <= 30)%nat /\
  exists k0 c0 rest,
    flagCache (run icons initial full_then_call) = (k0, c0) :: rest /\
    flagCache (settleLoad icons 30 true (run icons initial full_then_call)).2
    = rest ++ [("AT", "AT")] /\
    getCacheSize (settleLoad icons 30 true (run icons initial full_then_call)).2
    = 30%nat /\
    forall k', k' ∈ map_keys rest ->
      exists t0 t', last_touch string icons full_then_call k0 t0 /\
                    last_touch string icons full_then_call k' t' /\ (t0 < t')%nat.
Proof.
  pose proof (flagCache_bounded_lru string icons eq_refl full_then_call) as Hlru.
  cbv zeta in Hlru. destruct Hlru as (_ & Hsize & _ & Hload).
  split; [exact Hsize |].
  apply (Hload 30%nat "AT" "AT"); vm_compute; reflexivity.
Defined.

Lemma loadFlagIcon_cache_hit_witness :
  (loadFlagIcon "US"
     (run icons (step icons (run icons initial [Call "US"]) (Settle 0 true))
          [Call "CN"; Settle 1 true])).1
  = Cached "US" /\
  last (getCachedCodes
          (loadFlagIcon "US"
             (run icons (step icons (run icons initial [Call "US"]) (Settle 0 true))
                  [Call "CN"; Settle 1 true])).2)
  = Some "US".
Proof.
  pose proof (loadFlagIcon_cache_hit string icons [Call "US"] [Call "CN"; Settle 1 true]
                0%nat "US" "US") as Hhit.
  cbv zeta in Hhit.
  destruct Hhit as (_ & Hlater); [vm_compute; reflexivity | vm_compute; reflexivity |].
  destruct Hlater as (Hanswer & _ & Hlast & _); [vm_compute; reflexivity |].
  split; [exact Hanswer | exact Hlast].
Defined.

Lemma loadFlagIcon_coalesces_witness :
  loadFlagIcon "US" (run icons initial [Call "CN"; Call "US"])
  = (Awaits 1, run icons initial [Call "CN"; Call "US"]) /\
  loadingPromises
    (settleLoad icons 1 false (run icons initial [Call "CN"; Call "US"])).2 !! "US"
  = None.
Proof.
  pose proof (loadFlagIcon_coalesces string icons [Call "CN"; Call "US"]) as Hco.
  cbv zeta in Hco. destruct Hco as (_ & _ & Hjoin & Hsettle).
  split.
  - apply (Hjoin 1%nat "US"). vm_compute. reflexivity.
  - apply (Hsettle 1%nat "US" false). vm_compute. reflexivity.
Defined.

Lemma settleLoad_failure_witness :
  flagCache (load icons true (run icons initial (awaited 0 ["US"; "CN"])) "ZZ")
  = flagCache (run icons initial (awaited 0 ["US"; "CN"])) /\
  flagCache (load icons false (run icons initial (awaited 0 ["US"; "CN"])) "JP")
  = flagCache (run icons initial (awaited 0 ["US"; "CN"])) /\
  flagCache (load icons true (run icons initial (awaited 0 ["US"; "CN"])) "default")
  = flagCache (run icons initial (awaited 0 ["US"; "CN"])).
Proof.
  split; [| split].
  - destruct (settleLoad_failure string icons (awaited 0 ["US"; "CN"]) "ZZ" true)
      as (_ & Hawaited); [right; left; vm_compute; reflexivity |].
    destruct Hawaited as (p & _ & _ & _ & Hcache); [vm_compute; reflexivity |].
    exact Hcache.
  - destruct (settleLoad_failure string icons (awaited 0 ["US"; "CN"]) "JP" false)
      as (_ & Hawaited); [left; reflexivity |].
    destruct Hawaited as (p & _ & _ & _ & Hcache); [vm_compute; reflexivity |].
    exact Hcache.
  - destruct (settleLoad_failure string icons (awaited 0 ["US"; "CN"]) "default" true)
      as (_ & Hawaited); [right; right; vm_compute; reflexivity |].
    destruct Hawaited as (p & _ & _ & _ & Hcache); [vm_compute; reflexivity |].
    exact Hcache.
Defined.

(** [clearCache] empties the pending table while a load is suspended, so the
    next call for its key starts a second load beside the first: the
    coalescing above is a property of runs of [loadFlagIcon] alone. *)
Remark clearCache_restarts_load :
  (loadFlagIcon "US" (clearCache (run icons initial [Call "US"]))).1 = Awaits 1 /\
  inflight (loadFlagIcon "US" (clearCache (run icons initial [Call "US"]))).2 !! 0%nat
  = Some "US" /\
  inflight (loadFlagIcon "US" (clearCache (run icons initial [Call "US"]))).2 !! 1%nat
  = Some "US".
Proof. vm_compute. auto. Qed.

(** A module with a component under the empty name: that key, once oldest,
    is never evicted, and the cache outgrows its capacity. *)
Definition icons_with_empty_name (name : string) : option (@export string) :=
  if String.eqb name "" then Some (Component name) else icons name.

Remark empty_name_defeats_eviction :
  getCacheSize
    (load_all icons_with_empty_name initial ("" :: take 30 VALID_COUNTRY_CODES))
  = 31%nat.
Proof. vm_compute. reflexivity. Qed.

End FlagCache.


(** ** hooks/useDebounce.ts *)

Module UseDebounce.

(** The two hooks of the file that debounce a value. *)
Inductive hook_kind : Type :=
| Plain         (* useDebounce *)
| WithPending.  (* useDebounceWithPending *)

Section Hook.

(** The type of the debounced value, compared as React compares
    dependencies and states. *)
Context {T : Type} `{EqDecision T}.

(** A pending timeout: its handle, the time it is due and the [value] its
    callback closed over. *)
Record timer : Type := mkTimer {
  timer_id : nat;
  fires_at : Z;
  captured : T
}.

(** One mounted hook and the timer queue of its page.  [calls] logs every
    invocation of [setDebouncedValue] with its time, [commits] those that
    changed the state (React skips a set to the current state). *)
Record world : Type := mkWorld {
  now : Z;
  timers : list timer;
  next_id : nat;
  mounted : bool;
  value : T;
  delay : Z;
  debouncedValue : T;
  isPending : bool;
  timerRef : option nat;
  rendered_debounced : T;
  calls : list (Z * T);
  commits : list (Z * T)
}.

(** [if (timerRef.current)]: null and the handle 0 are falsy. *)
Definition truthy_handle (r : option nat) : option nat :=
  match r with
  | Some id => if (id =? 0)%nat then None else Some id
  | None => None
  end.

(** [clearTimeout(id)] *)
Definition clearTimeout (id : nat) (w : world) : world :=
  mkWorld (now w) (filter (fun t => timer_id t <> id) (timers w)) (next_id w)
          (mounted w) (value w) (delay w) (debouncedValue w) (isPending w)
          (timerRef w) (rendered_debounced w) (calls w) (commits w).

(** [timerRef.current = setTimeout(callback, delay)], the callback closing
    over [v]; a negative delay counts as 0. *)
Definition setTimeout_ref (v : T) (d : Z) (w : world) : world :=
  mkWorld (now w) (timers w ++ [mkTimer (next_id w) (now w + Z.max 0 d) v])
          (S (next_id w))
          (mounted w) (value w) (delay w) (debouncedValue w) (isPending w)
          (Some (next_id w)) (rendered_debounced w) (calls w) (commits w).

(** The cleanup function both effects return. *)
Definition cleanup (w : world) : world :=
  match truthy_handle (timerRef w) with
  | Some id =>
    let w := clearTimeout id w in
    mkWorld (now w) (timers w) (next_id w)
            (mounted w) (value w) (delay w) (debouncedValue w) (isPending w)
            None (rendered_debounced w) (calls w) (commits w)
  | None => w
  end.

Definition clear_current (w : world) : world :=
  match truthy_handle (timerRef w) with
  | Some id => clearTimeout id w
  | None => w
  end.

Definition setIsPending (b : bool) (w : world) : world :=
  mkWorld (now w) (timers w) (next_id w)
          (mounted w) (value w) (delay w) (debouncedValue w) b
          (timerRef w) (rendered_debounced w) (calls w) (commits w).

(** The effect of [useDebounce]. *)
Definition useDebounce_effect (w : world) : world :=
  let w := clear_current w in
  setTimeout_ref (value w) (delay w) w.

(** The effect of [useDebounceWithPending]. *)
Definition useDebounceWithPending_effect (w : world) : world :=
  let w := clear_current w in
  let w := if decide (value w <> debouncedValue w) then setIsPending true w else w in
  setTimeout_ref (value w) (delay w) w.

Definition effect (k : hook_kind) (w : world) : world :=
  match k with
  | Plain => useDebounce_effect w
  | WithPending => useDebounceWithPending_effect w
  end.

(** Whether the dependency array differs from the one of the last render:
    [[value, delay]], and [debouncedValue] too for the pending variant. *)
Definition deps_changed (k : hook_kind) (v : T) (d : Z) (w : world) : bool :=
  match k with
  | Plain => negb (bool_decide (v = value w) && (d =? delay w))
  | WithPending =>
    negb (bool_decide (v = value w) && (d =? delay w)
          && bool_decide (debouncedValue w = rendered_debounced w))
  end.

(** A render with the props [v] and [d]: when the dependencies changed, the
    previous cleanup and then the effect run. *)
Definition render (k : hook_kind) (v : T) (d : Z) (w : world) : world :=
  if negb (mounted w) then w
  else
    let changed := deps_changed k v d w in
    let w' :=
      mkWorld (now w) (timers w) (next_id w) (mounted w) v d (debouncedValue w)
              (isPending w) (timerRef w) (debouncedValue w) (calls w) (commits w) in
    if changed then effect k (cleanup w') else w'.

(** The first render at time [t0]: the state starts at [value], then the
    effect runs.  Handles start at 1. *)
Definition mount (k : hook_kind) (v : T) (d : Z) (t0 : Z) : world :=
  effect k (mkWorld t0 [] 1 true v d v false None v [] []).

(** Unmounting runs the cleanup. *)
Definition unmount (w : world) : world :=
  if negb (mounted w) then w
  else
    let w := cleanup w in
    mkWorld (now w) (timers w) (next_id w) false (value w) (delay w)
            (debouncedValue w) (isPending w) (timerRef w) (rendered_debounced w)
            (calls w) (commits w).

(** The timer [t] fires: it leaves the queue, the clock is at its due time,
    and its callback sets the state; a changed state renders the hook again
    with the same props. *)
Definition fire (k : hook_kind) (t : timer) (w : world) : world :=
  let at_ms := Z.max (now w) (fires_at t) in
  let queue := filter (fun t' => timer_id t' <> timer_id t) (timers w) in
  let logged := calls w ++ [(at_ms, captured t)] in
  if negb (mounted w) then
    mkWorld at_ms queue (next_id w) (mounted w) (value w) (delay w)
            (debouncedValue w) (isPending w) (timerRef w) (rendered_debounced w)
            logged (commits w)
  else
    let committed :=
      if decide (captured t = debouncedValue w) then commits w
      else commits w ++ [(at_ms, captured t)] in
    let pending :=
      match k with
      | Plain => isPending w
      | WithPending => false
      end in
    render k (value w) (delay w)
      (mkWorld at_ms queue (next_id w) (mounted w) (value w) (delay w)
               (captured t) pending (timerRef w) (rendered_debounced w)
               logged committed).

(** The timer to fire next among those due by [target]: the earliest, and
    among equals the one set first. *)
Fixpoint next_due (target : Z) (queue : list timer) : option timer :=
  match queue with
  | [] => None
  | t :: queue' =>
    match next_due target queue' with
    | Some t' =>
      if (fires_at t <=? target) && (fires_at t <=? fires_at t') then Some t
      else Some t'
    | None => if fires_at t <=? target then Some t else None
    end
  end.

(** Fire what is due by [target], at most [fuel] timers. *)
Fixpoint run_timers (k : hook_kind) (fuel : nat) (target : Z) (w : world) : world :=
  match fuel with
  | O => w
  | S fuel' =>
    match next_due target (timers w) with
    | Some t => run_timers k fuel' target (fire k t w)
    | None => w
    end
  end.

(** The clock reaches [target]. *)
Definition wait_until (target : Z) (w : world) : world :=
  mkWorld (Z.max (now w) target) (timers w) (next_id w) (mounted w) (value w)
          (delay w) (debouncedValue w) (isPending w) (timerRef w)
          (rendered_debounced w) (calls w) (commits w).

(** Time passes by [dt] milliseconds. *)
Definition advance (k : hook_kind) (fuel : nat) (dt : Z) (w : world) : world :=
  let target := now w + Z.max 0 dt in
  wait_until target (run_timers k fuel target w).

(** What happens to the hook. *)
Inductive action : Type :=
| Render (v : T) (d : Z)
| Advance (dt : Z)
| Unmount.

Definition act (k : hook_kind) (fuel : nat) (w : world) (a : action) : world :=
  match a with
  | Render v d => render k v d w
  | Advance dt => advance k fuel dt w
  | Unmount => unmount w
  end.

Definition run (k : hook_kind) (fuel : nat) (w : world) (acts : list action) : world :=
  foldl (act k fuel) w acts.

(** A burst after a first update: each further value [v] arrives [gap]
    milliseconds after the one before. *)
Definition burst (d : Z) (updates : list (Z * T)) : list action :=
  flat_map (fun u => [Advance u.1; Render u.2 d]) updates.

(** *** Invariant of the hook's worlds *)

(** At most one timeout is pending; it is the one [timerRef] holds, its
    callback closed over the current [value], it is not overdue, and the
    component is mounted.  The last render saw the current state. *)
Definition tidy (w : world) : Prop :=
  (1 <= next_id w)%nat /\
  rendered_debounced w = debouncedValue w /\
  (timers w = [] \/
   mounted w = true /\
   exists id at_ms,
     timers w = [mkTimer id at_ms (value w)] /\ timerRef w = Some id /\
     id <> 0%nat /\ now w <= at_ms).

Lemma truthy_handle_Some id : id <> 0%nat -> truthy_handle (Some id) = Some id.
Proof.
  intros Hid. unfold truthy_handle.
  destruct (Nat.eqb_spec id 0); [contradiction | reflexivity].
Qed.

Lemma next_due_nil target : next_due target [] = None.
Proof. reflexivity. Qed.

Lemma next_due_single target t :
  next_due target [t] = if fires_at t <=? target then Some t else None.
Proof. reflexivity. Qed.

(** The queue is empty or holds just the timer of [timerRef]. *)
Definition clearable (w : world) : Prop :=
  timers w = [] \/
  exists t, timers w = [t] /\ timerRef w = Some (timer_id t) /\ timer_id t <> 0%nat.

Lemma tidy_clearable w : tidy w -> clearable w.
Proof.
  intros (_ & _ & [Hempty | (_ & id & at_ms & Hq & Href & Hid & _)]);
    [left; exact Hempty | right].
  exists (mkTimer id at_ms (value w)). auto.
Qed.

(** The flag after the effect has run. *)
Definition pending_after (k : hook_kind) (w : world) : bool :=
  match k with
  | Plain => isPending w
  | WithPending => if decide (value w <> debouncedValue w) then true else isPending w
  end.

(** Cleanup then effect: whatever was pending is cancelled and one timer is
    armed for the current [value]. *)
Lemma rearm k w :
  clearable w ->
  effect k (cleanup w) =
  mkWorld (now w) [mkTimer (next_id w) (now w + Z.max 0 (delay w)) (value w)]
          (S (next_id w)) (mounted w) (value w) (delay w) (debouncedValue w)
          (pending_after k w) (Some (next_id w)) (rendered_debounced w)
          (calls w) (commits w).
Proof.
  intros Hclear.
  assert (Hcleanup : exists r,
             truthy_handle r = None /\
             cleanup w = mkWorld (now w) [] (next_id w) (mounted w) (value w) (delay w)
                                 (debouncedValue w) (isPending w) r
                                 (rendered_debounced w) (calls w) (commits w)).
  { destruct Hclear as [Hempty | (t & Hq & Href & Hid)].
    - unfold cleanup. destruct (truthy_handle (timerRef w)) as [id |] eqn:Hh.
      + exists None. split; [reflexivity |]. simpl. rewrite Hempty. reflexivity.
      + exists (timerRef w). split; [exact Hh |].
        destruct w; simpl in *. subst. reflexivity.
    - exists None. split; [reflexivity |].
      unfold cleanup. rewrite Href, (truthy_handle_Some _ Hid). simpl.
      rewrite Hq, filter_cons_False by (simpl; tauto). reflexivity. }
  destruct Hcleanup as (r & Hr & ->).
  destruct k; simpl;
    unfold useDebounce_effect, useDebounceWithPending_effect, clear_current;
    simpl; rewrite Hr; simpl; [reflexivity |].
  destruct (decide (value w <> debouncedValue w)); reflexivity.
Qed.

Lemma mount_eq k v d t0 :
  mount k v d t0 =
  mkWorld t0 [mkTimer 1 (t0 + Z.max 0 d) v] 2 true v d v false (Some 1%nat) v [] [].
Proof.
  unfold mount. destruct k; simpl;
    unfold useDebounce_effect, useDebounceWithPending_effect, clear_current; simpl;
    [reflexivity |].
  destruct (decide (v <> v)); [contradiction | reflexivity].
Qed.

(** A render whose dependencies changed. *)
Lemma render_changed k v d w :
  clearable w -> mounted w = true -> deps_changed k v d w = true ->
  render k v d w =
  mkWorld (now w) [mkTimer (next_id w) (now w + Z.max 0 d) v]
          (S (next_id w)) true v d (debouncedValue w)
          match k with
          | Plain => isPending w
          | WithPending => if decide (v <> debouncedValue w) then true else isPending w
          end
          (Some (next_id w)) (debouncedValue w) (calls w) (commits w).
Proof.
  intros Hclear Hm Hdeps. unfold render. rewrite Hm, Hdeps. simpl.
  rewrite rearm by exact Hclear. simpl. destruct k; reflexivity.
Qed.

(** A render with the dependencies of the last one changes nothing. *)
Lemma render_same k w :
  rendered_debounced w = debouncedValue w ->
  render k (value w) (delay w) w = w.
Proof.
  intros Hr. unfold render. destruct (mounted w) eqn:Hm; simpl; [| reflexivity].
  assert (Hdeps : deps_changed k (value w) (delay w) w = false).
  { destruct k; simpl; rewrite bool_decide_eq_true_2 by reflexivity;
      rewrite Z.eqb_refl; simpl; [reflexivity |].
    rewrite bool_decide_eq_true_2 by (symmetry; exact Hr). reflexivity. }
  rewrite Hdeps. destruct w; simpl in *. subst. reflexivity.
Qed.

(** *** Firing *)

(** The world after the only pending timer of a tidy world has fired at
    [at_ms]: the state holds [value]; the pending variant, when that changed
    the state, has run its effect again and armed a second timer. *)
Definition fired (k : hook_kind) (at_ms : Z) (w : world) : world :=
  let logged := calls w ++ [(at_ms, value w)] in
  let rearmed :=
    match k with
    | Plain => false
    | WithPending => bool_decide (value w <> debouncedValue w)
    end in
  mkWorld at_ms
          (if rearmed
           then [mkTimer (next_id w) (at_ms + Z.max 0 (delay w)) (value w)] else [])
          (if rearmed then S (next_id w) else next_id w)
          true (value w) (delay w) (value w)
          match k with Plain => isPending w | WithPending => false end
          (if rearmed then Some (next_id w) else timerRef w)
          (value w)
          logged
          (if decide (value w = debouncedValue w) then commits w
           else commits w ++ [(at_ms, value w)]).

Lemma fire_tidy k w id at_ms :
  tidy w -> mounted w = true -> timers w = [mkTimer id at_ms (value w)] ->
  now w <= at_ms ->
  fire k (mkTimer id at_ms (value w)) w = fired k at_ms w.
Proof.
  intros (Hnext & Hrendered & _) Hm Hq Hnow.
  unfold fire, fired. rewrite Hm, Hq. simpl.
  rewrite filter_cons_False by (simpl; tauto). rewrite filter_nil.
  rewrite Z.max_r by exact Hnow.
  destruct k.
  - unfold render. simpl. rewrite bool_decide_eq_true_2 by reflexivity.
    rewrite Z.eqb_refl. simpl. reflexivity.
  - destruct (decide (value w = debouncedValue w)) as [Heq | Hne].
    + rewrite (bool_decide_eq_false_2 (value w <> debouncedValue w)) by tauto.
      unfold render. simpl. rewrite bool_decide_eq_true_2 by reflexivity.
      rewrite Z.eqb_refl. simpl.
      rewrite bool_decide_eq_true_2 by congruence. reflexivity.
    + rewrite (bool_decide_eq_true_2 (value w <> debouncedValue w)) by exact Hne.
      rewrite render_changed.
      * simpl. destruct (decide (value w <> value w)); [contradiction | reflexivity].
      * left. reflexivity.
      * reflexivity.
      * simpl. rewrite bool_decide_eq_true_2 by reflexivity. rewrite Z.eqb_refl. simpl.
        rewrite bool_decide_eq_false_2 by congruence. reflexivity.
Qed.

Lemma fired_tidy k at_ms w : tidy w -> tidy (fired k at_ms w).
Proof.
  intros (Hnext & _ & _). unfold tidy, fired. simpl.
  split; [destruct k; [| destruct (bool_decide _)]; lia |].
  split; [reflexivity |].
  destruct k; [left; reflexivity |].
  destruct (bool_decide (value w <> debouncedValue w)); [right | left; reflexivity].
  split; [reflexivity |]. exists (next_id w), (at_ms + Z.max 0 (delay w)).
  repeat split; lia.
Qed.

Lemma run_timers_idle k fuel target w :
  timers w = [] -> run_timers k fuel target w = w.
Proof. intros Hq. destruct fuel; simpl; [| rewrite Hq]; reflexivity. Qed.

Lemma run_timers_early k fuel target w t :
  timers w = [t] -> target < fires_at t -> run_timers k fuel target w = w.
Proof.
  intros Hq Hlt. destruct fuel; simpl; [reflexivity |].
  rewrite Hq, next_due_single.
  destruct (Z.leb_spec (fires_at t) target); [lia | reflexivity].
Qed.

(** After a timer fired the state holds [value], so a second firing changes
    nothing and arms nothing. *)
Lemma fired_twice k at1 at2 w :
  timers (fired k at2 (fired k at1 w)) = [] /\
  debouncedValue (fired k at2 (fired k at1 w)) = value w /\
  commits (fired k at2 (fired k at1 w)) = commits (fired k at1 w).
Proof.
  unfold fired at 1 3 4. simpl.
  destruct (decide (value w = value w)); [| contradiction].
  destruct k; simpl; [auto |].
  rewrite bool_decide_eq_false_2 by tauto. auto.
Qed.

(** Two units of fuel are enough on a tidy world: what [advance] does. *)
Lemma advance_tidy_eq k fuel dt w :
  tidy w -> (2 <= fuel)%nat ->
  advance k fuel dt w =
  wait_until (now w + Z.max 0 dt)
    match timers w with
    | [] => w
    | t :: _ =>
      if fires_at t <=? now w + Z.max 0 dt then
        match timers (fired k (fires_at t) w) with
        | [] => fired k (fires_at t) w
        | t2 :: _ =>
          if fires_at t2 <=? now w + Z.max 0 dt
          then fired k (fires_at t2) (fired k (fires_at t) w)
          else fired k (fires_at t) w
        end
      else w
    end.
Proof.
  intros Htidy Hfuel. unfold advance. f_equal.
  destruct fuel as [| [| fuel]]; [lia | lia |].
  pose proof Htidy as (_ & _ & [Hq | (Hm & id & at_ms & Hq & Href & Hid & Hnow)]).
  - rewrite Hq. apply run_timers_idle, Hq.
  - rewrite Hq. cbn [fires_at].
    destruct (Z.leb_spec at_ms (now w + Z.max 0 dt)) as [Hdue | Hearly];
      [| apply (run_timers_early _ _ _ _ _ Hq); exact Hearly].
    cbn [run_timers]. rewrite Hq, next_due_single. cbn [fires_at].
    destruct (Z.leb_spec at_ms (now w + Z.max 0 dt)); [| lia].
    rewrite (fire_tidy k w id at_ms Htidy Hm Hq Hnow).
    pose proof (fired_tidy k at_ms w Htidy) as Htidy1.
    destruct (timers (fired k at_ms w)) as [| t2 rest] eqn:Hq1; [reflexivity |].
    assert (Ht2 : t2 = mkTimer (next_id w) (at_ms + Z.max 0 (delay w)) (value w)
                  /\ rest = []).
    { unfold fired in Hq1. simpl in Hq1.
      destruct k; [discriminate |].
      destruct (bool_decide (value w <> debouncedValue w)); [| discriminate].
      injection Hq1 as <- <-. auto. }
    destruct Ht2 as [-> ->]. rewrite next_due_single. cbn [fires_at].
    destruct (Z.leb_spec (at_ms + Z.max 0 (delay w)) (now w + Z.max 0 dt));
      [| reflexivity].
    assert (Hfire :
              fire k (mkTimer (next_id w) (at_ms + Z.max 0 (delay w)) (value w))
                   (fired k at_ms w)
              = fired k (at_ms + Z.max 0 (delay w)) (fired k at_ms w)).
    { apply (fire_tidy k (fired k at_ms w) (next_id w) (at_ms + Z.max 0 (delay w)));
        [exact Htidy1 | reflexivity | exact Hq1 | simpl; lia]. }
    rewrite Hfire. apply run_timers_idle. apply fired_twice.
Qed.

Lemma wait_until_tidy target w :
  tidy w -> now w <= target -> Forall (fun t => target < fires_at t) (timers w) ->
  tidy (wait_until target w) /\
  Forall (fun t => now (wait_until target w) < fires_at t) (timers (wait_until target w)).
Proof.
  intros (Hnext & Hrendered & Hq) Hclock Hlate. unfold tidy, wait_until.
  cbn [now timers next_id rendered_debounced debouncedValue mounted value timerRef].
  destruct Hq as [Hq | (Hm & id & at_ms & Hq & Href & Hid & Hnow)].
  - rewrite Hq. repeat split; auto.
  - rewrite Hq in Hlate |- *. rewrite Forall_singleton in Hlate. cbn [fires_at] in Hlate.
    split.
    + split; [exact Hnext |]. split; [exact Hrendered |]. right.
      split; [exact Hm |]. exists id, at_ms.
      split; [reflexivity |]. split; [exact Href |]. split; [exact Hid | lia].
    + apply Forall_singleton. cbn [fires_at]. lia.
Qed.

Lemma advance_tidy k fuel dt w :
  tidy w -> (2 <= fuel)%nat ->
  tidy (advance k fuel dt w) /\
  Forall (fun t => now (advance k fuel dt w) < fires_at t) (timers (advance k fuel dt w)).
Proof.
  intros Htidy Hfuel. rewrite (advance_tidy_eq k fuel dt w Htidy Hfuel).
  pose proof Htidy as (_ & _ & [Hq | (Hm & id & at_ms & Hq & Href & Hid & Hnow)]);
    rewrite Hq.
  - apply wait_until_tidy; [exact Htidy | lia | rewrite Hq; constructor].
  - cbn [fires_at].
    destruct (Z.leb_spec at_ms (now w + Z.max 0 dt)) as [Hdue | Hearly];
      [| apply wait_until_tidy;
         [exact Htidy | lia | rewrite Hq; apply Forall_singleton; exact Hearly]].
    pose proof (fired_tidy k at_ms w Htidy) as Htidy1.
    destruct (timers (fired k at_ms w)) as [| t2 rest2] eqn:Hq1.
    + apply wait_until_tidy; [exact Htidy1 | exact Hdue | rewrite Hq1; constructor].
    + destruct (Z.leb_spec (fires_at t2) (now w + Z.max 0 dt)) as [Hdue2 | Hearly2].
      * apply wait_until_tidy; [apply fired_tidy, Htidy1 | exact Hdue2 |].
        rewrite (proj1 (fired_twice k at_ms (fires_at t2) w)). constructor.
      * apply wait_until_tidy; [exact Htidy1 | exact Hdue |].
        rewrite Hq1. unfold fired in Hq1. cbn [timers] in Hq1.
        destruct k; [discriminate |].
        destruct (bool_decide (value w <> debouncedValue w)); [| discriminate].
        injection Hq1 as <- <-. apply Forall_singleton. exact Hearly2.
Qed.

(** *** Every world of the hook is tidy *)

Lemma deps_unchanged k v d w :
  deps_changed k v d w = false -> v = value w /\ d = delay w.
Proof.
  destruct k; simpl; rewrite negb_false_iff, ?andb_true_iff, bool_decide_eq_true, Z.eqb_eq;
    tauto.
Qed.

Lemma mount_tidy k v d t0 : tidy (mount k v d t0).
Proof.
  rewrite mount_eq. unfold tidy. cbn.
  split; [lia |]. split; [reflexivity |]. right. split; [reflexivity |].
  exists 1%nat, (t0 + Z.max 0 d). repeat split; [discriminate | lia].
Qed.

Lemma render_tidy k v d w : tidy w -> tidy (render k v d w).
Proof.
  intros Htidy. destruct (mounted w) eqn:Hm;
    [| unfold render; rewrite Hm; exact Htidy].
  destruct (deps_changed k v d w) eqn:Hdeps.
  - rewrite (render_changed k v d w (tidy_clearable w Htidy) Hm Hdeps).
    destruct Htidy as (Hnext & _ & _). unfold tidy.
    cbn [next_id rendered_debounced debouncedValue timers mounted value timerRef now].
    split; [lia |]. split; [reflexivity |]. right. split; [reflexivity |].
    exists (next_id w), (now w + Z.max 0 d). repeat split; lia.
  - apply deps_unchanged in Hdeps as [-> ->]. unfold render. rewrite Hm. cbn [negb].
    assert (Hsame : deps_changed k (value w) (delay w) w = false).
    { destruct Htidy as (_ & Hr & _). destruct k; simpl;
        rewrite bool_decide_eq_true_2 by reflexivity; rewrite Z.eqb_refl; simpl;
        [reflexivity |].
      rewrite bool_decide_eq_true_2 by (symmetry; exact Hr). reflexivity. }
    rewrite Hsame. destruct Htidy as (Hnext & Hr & Hq). unfold tidy.
    cbn [next_id rendered_debounced debouncedValue timers mounted value timerRef now].
    split; [exact Hnext |]. split; [reflexivity |].
    destruct Hq as [Hq | (_ & Hq)]; [left; exact Hq | right; split; [reflexivity | exact Hq]].
Qed.

Lemma cleanup_eq w :
  clearable w ->
  exists r,
    cleanup w = mkWorld (now w) [] (next_id w) (mounted w) (value w) (delay w)
                        (debouncedValue w) (isPending w) r
                        (rendered_debounced w) (calls w) (commits w).
Proof.
  intros [Hempty | (t & Hq & Href & Hid)].
  - unfold cleanup. destruct (truthy_handle (timerRef w)) as [id |] eqn:Hh.
    + exists None. simpl. rewrite Hempty. reflexivity.
    + exists (timerRef w). destruct w; simpl in *. subst. reflexivity.
  - exists None. unfold cleanup. rewrite Href, (truthy_handle_Some _ Hid). simpl.
    rewrite Hq, filter_cons_False by (simpl; tauto). reflexivity.
Qed.

(** After the unmount nothing is pending and the state is what it was. *)
Lemma unmount_eq w :
  tidy w ->
  mounted (unmount w) = false /\ timers (unmount w) = [] /\
  calls (unmount w) = calls w /\ commits (unmount w) = commits w /\
  debouncedValue (unmount w) = debouncedValue w /\
  rendered_debounced (unmount w) = rendered_debounced w /\
  next_id (unmount w) = next_id w.
Proof.
  intros Htidy. unfold unmount. destruct (mounted w) eqn:Hm; cbn [negb].
  - destruct (cleanup_eq w (tidy_clearable w Htidy)) as (r & ->). cbn.
    repeat split.
  - destruct Htidy as (_ & _ & [Hq | (Hm' & _)]); [| congruence].
    repeat split; assumption.
Qed.

Lemma unmount_tidy w : tidy w -> tidy (unmount w).
Proof.
  intros Htidy. destruct (unmount_eq w Htidy) as (_ & Hq & _ & _ & Hd & Hr & Hn).
  destruct Htidy as (Hnext & Hrendered & _). unfold tidy.
  rewrite Hq, Hd, Hr, Hn. auto.
Qed.

Lemma act_tidy k fuel w a : (2 <= fuel)%nat -> tidy w -> tidy (act k fuel w a).
Proof.
  intros Hfuel Htidy. destruct a as [v d | dt |]; simpl.
  - apply render_tidy, Htidy.
  - apply advance_tidy; assumption.
  - apply unmount_tidy, Htidy.
Qed.

Lemma run_tidy k fuel w acts : (2 <= fuel)%nat -> tidy w -> tidy (run k fuel w acts).
Proof.
  intros Hfuel. revert w. induction acts as [| a acts IH]; intros w Htidy; simpl;
    [exact Htidy |].
  apply IH, act_tidy; assumption.
Qed.

(** *** After the unmount *)



(** *** Bursts *)


(** The time a burst takes and the value it ends with. *)
Definition elapsed (updates : list (Z * T)) : Z :=
  foldr (fun u acc => u.1 + acc) 0 updates.


(** In the middle of a burst: mounted, the last update came at [t_arm], its
    timer is due one delay later, and the logs and the state are those from
    before the burst. *)
Definition armed (w : world) (d t_arm : Z) (old : T) (cs cm : list (Z * T)) : Prop :=
  tidy w /\ mounted w = true /\ delay w = d /\ now w = t_arm /\
  (exists id, timers w = [mkTimer id (t_arm + d) (value w)]) /\
  debouncedValue w = old /\ calls w = cs /\ commits w = cm.










End Hook.

(** *** The scenarios of the test suite *)


(** A render that passes the same value again is no update: the
    dependencies are unchanged, the effect does not run and the timer of the
    last change stays.  Here ["a"] is committed at 300, 300 ms after it
    arrived and 100 ms after it was passed again. *)
Remark rerender_keeps_timer :
  commits
    (run Plain 2 (mount Plain "initial" 300 0)
       [Render "a" 300; Advance 200; Render "a" 300; Advance 100])
  = [(300, "a")].
Proof. vm_compute. reflexivity. Qed.

End UseDebounce.


(** ** src/lib/backgroundContext.tsx: the provider *)

Module BackgroundProvider.

Import BackgroundContext.

(** [fetchNewBackground()], from [Date.now()] and [window.innerWidth]. *)
Definition fetchNewBackground (timestamp : Z) (window_defined : bool)
    (innerWidth : Z) : string :=
  let isMobile := window_defined && (innerWidth <? 768) in
  if isMobile
  then "https://loliapi.com/acg/?w=800&" +:+ pretty timestamp
  else "https://loliapi.com/acg/?" +:+ pretty timestamp.

(** The state of [BackgroundProvider]. *)
Record provider : Type := mkProvider {
  backgroundUrl : string;
  isLoaded : bool
}.

(** [useState('')] and [useState(false)]. *)
Definition initial_provider : provider := mkProvider "" false.

(** The three readings of [Date.now()] an effect may take: in
    [getCachedBackground], in [fetchNewBackground] and in
    [setCachedBackground]. *)
Record clock : Type := mkClock {
  at_read : Z;
  at_fetch : Z;
  at_write : Z
}.

Section WithJSON.

Variable JSON_parse : string -> completion (option BackgroundCache).
Variable JSON_stringify : BackgroundCache -> string.

(** The mount effect of the provider. *)
Definition provider_mount (innerWidth : Z) (c : clock) (p : provider) (e : env)
  : provider * env :=
  let '(cached, e) := getCachedBackground JSON_parse (at_read c) e in
  if negb (falsy_string cached) then
    (mkProvider (default "" cached) (isLoaded p), e)
  else
    let highQualityUrl := fetchNewBackground (at_fetch c) (window_defined e) innerWidth in
    (mkProvider highQualityUrl (isLoaded p),
     setCachedBackground JSON_stringify highQualityUrl (at_write c) e).

(** [setLoaded()] *)
Definition setLoaded (p : provider) : provider :=
  mkProvider (backgroundUrl p) true.

(** [refreshBackground()] *)
Definition refreshBackground (innerWidth : Z) (c : clock) (p : provider) (e : env)
  : provider * env :=
  let newUrl := fetchNewBackground (at_fetch c) (window_defined e) innerWidth in
  (mkProvider newUrl false, setCachedBackground JSON_stringify newUrl (at_write c) e).

(** A store that takes writes, and a record that survives serialisation. *)
Definition writable (e : env) : Prop :=
  window_defined e = true /\
  LocalStorage.denied (localStorage e) = false /\
  LocalStorage.full (localStorage e) = false.

Definition round_trips (c : BackgroundCache) : Prop :=
  JSON_stringify c <> "" /\ JSON_parse (JSON_stringify c) = Normal (Some c).

Lemma setCachedBackground_written (u : string) (t : Z) (e : env) :
  writable e ->
  writable (setCachedBackground JSON_stringify u t e) /\
  stored (setCachedBackground JSON_stringify u t e)
  = Some (JSON_stringify (mkCache u t BG_CACHE_VERSION)) /\
  forall k, k <> BG_CACHE_KEY ->
    LocalStorage.items (localStorage (setCachedBackground JSON_stringify u t e)) !! k
    = LocalStorage.items (localStorage e) !! k.
Proof.
  intros (Hw & Hd & Hf).
  unfold setCachedBackground, LocalStorage.setItem, writable, stored.
  rewrite Hw, Hd, Hf. simpl. rewrite Hw.
  split; [auto |]. split; [apply lookup_insert_eq |].
  intros k Hk. apply lookup_insert_ne. congruence.
Qed.

Lemma clearBackgroundCache_writable (e : env) :
  writable e -> writable (clearBackgroundCache e).
Proof.
  intros (Hw & Hd & Hf). unfold clearBackgroundCache, LocalStorage.removeItem, writable.
  rewrite Hw, Hd. simpl. auto.
Qed.

Lemma getCachedBackground_writable (now : Z) (e : env) :
  writable e -> writable (getCachedBackground JSON_parse now e).2.
Proof.
  intros Hwritable.
  destruct (getCachedBackground JSON_parse now e) as [[u |] e1] eqn:Hg; simpl.
  - pose proof (getCachedBackground_Some JSON_parse JSON_stringify _ _ _ _ Hg) as (-> & _).
    exact Hwritable.
  - destruct Hwritable as (Hw & Hd & Hf).
    pose proof (getCachedBackground_None JSON_parse now e e1 (conj Hw Hd) Hg) as Hmiss.
    destruct (falsy_string (stored e)).
    + subst e1. repeat split; assumption.
    + destruct Hmiss as [-> _]. apply clearBackgroundCache_writable. repeat split; assumption.
Qed.

Lemma written_hit (u : string) (t now : Z) (e : env) :
  writable e -> round_trips (mkCache u t BG_CACHE_VERSION) ->
  now - t < BG_EXPIRE_TIME ->
  getCachedBackground JSON_parse now (setCachedBackground JSON_stringify u t e)
  = (Some u, setCachedBackground JSON_stringify u t e).
Proof.
  intros Hwritable [Hne Hrt] Hage.
  destruct (setCachedBackground_written u t e Hwritable) as ((Hw1 & Hd1 & _) & Hs1 & _).
  apply (getCachedBackground_hit JSON_parse JSON_stringify now _
           (mkCache u t BG_CACHE_VERSION)); [split; assumption |].
  exists (JSON_stringify (mkCache u t BG_CACHE_VERSION)). repeat split; assumption.
Qed.

Lemma written_expired (u : string) (t now : Z) (e : env) :
  writable e -> round_trips (mkCache u t BG_CACHE_VERSION) ->
  BG_EXPIRE_TIME <= now - t ->
  getCachedBackground JSON_parse now (setCachedBackground JSON_stringify u t e)
  = (None, clearBackgroundCache (setCachedBackground JSON_stringify u t e)) /\
  stored (clearBackgroundCache (setCachedBackground JSON_stringify u t e)) = None.
Proof.
  intros Hwritable [Hne Hrt] Hage.
  set (e1 := setCachedBackground JSON_stringify u t e).
  destruct (setCachedBackground_written u t e Hwritable) as ((Hw1 & Hd1 & _) & Hs1 & _).
  fold e1 in Hw1, Hd1, Hs1.
  assert (Hr1 : readable e1) by (split; assumption).
  assert (Hclear : stored (clearBackgroundCache e1) = None).
  { unfold clearBackgroundCache, LocalStorage.removeItem, stored.
    rewrite Hw1, Hd1. simpl. apply lookup_delete_eq. }
  split; [| exact Hclear].
  destruct (getCachedBackground JSON_parse now e1) as [[u' |] e2] eqn:Hg.
  - apply (getCachedBackground_Some JSON_parse JSON_stringify) in Hg
      as (_ & _ & c & (s & Hs & _ & Hp & _ & Hlt) & _).
    rewrite Hs1 in Hs. injection Hs as <-. rewrite Hrt in Hp. injection Hp as <-.
    simpl in Hlt. lia.
  - pose proof (getCachedBackground_None JSON_parse now e1 e2 Hr1 Hg) as Hmiss.
    rewrite Hs1 in Hmiss. simpl in Hmiss.
    destruct (String.eqb_spec (JSON_stringify (mkCache u t BG_CACHE_VERSION)) "");
      [contradiction |].
    destruct Hmiss as [-> _]. reflexivity.
Qed.

Lemma fetchNewBackground_truthy (t : Z) (wd : bool) (w : Z) :
  falsy_string (Some (fetchNewBackground t wd w)) = false.
Proof. unfold fetchNewBackground. destruct (wd && (w <? 768)); reflexivity. Qed.

Lemma provider_mount_after_write (u : string) (t : Z) (w : Z) (c : clock)
    (p : provider) (e : env) :
  writable e -> round_trips (mkCache u t BG_CACHE_VERSION) ->
  falsy_string (Some u) = false ->
  at_read c - t < BG_EXPIRE_TIME ->
  provider_mount w c p (setCachedBackground JSON_stringify u t e)
  = (mkProvider u (isLoaded p), setCachedBackground JSON_stringify u t e).
Proof.
  intros Hwritable Hrt Hu Hage. unfold provider_mount.
  rewrite (written_hit u t (at_read c) e Hwritable Hrt Hage), Hu. reflexivity.
Qed.

(** X1. Write then read, at any time of reading: the URL comes back as long
    as the record is younger than the TTL, and from the TTL on the read
    misses and removes the record. *)
Theorem background_write_read (u : string) (t now : Z) (e : env) :
  writable e -> round_trips (mkCache u t BG_CACHE_VERSION) ->
  (now - t < BG_EXPIRE_TIME ->
   getCachedBackground JSON_parse now (setCachedBackground JSON_stringify u t e)
   = (Some u, setCachedBackground JSON_stringify u t e)) /\
  (BG_EXPIRE_TIME <= now - t ->
   getCachedBackground JSON_parse now (setCachedBackground JSON_stringify u t e)
   = (None, clearBackgroundCache (setCachedBackground JSON_stringify u t e)) /\
   stored (clearBackgroundCache (setCachedBackground JSON_stringify u t e)) = None).
Proof.
  intros Hwritable Hrt. split; intros Hage.
  - apply written_hit; assumption.
  - apply written_expired; assumption.
Qed.

(** X2. Reading is idempotent: a second read at the same time gives the same
    answer and changes the store no further. *)
Theorem getCachedBackground_idempotent (now : Z) (e : env) :
  getCachedBackground JSON_parse now (getCachedBackground JSON_parse now e).2
  = getCachedBackground JSON_parse now e.
Proof.
  destruct (getCachedBackground JSON_parse now e) as [[u |] e1] eqn:Hg; simpl.
  - pose proof (getCachedBackground_Some JSON_parse JSON_stringify _ _ _ _ Hg) as (-> & _).
    exact Hg.
  - destruct (window_defined e) eqn:Hw;
      [| unfold getCachedBackground in Hg |- *; rewrite Hw in Hg; simpl in Hg;
         injection Hg as <-; rewrite Hw; reflexivity].
    destruct (LocalStorage.denied (localStorage e)) eqn:Hd.
    + unfold getCachedBackground, LocalStorage.getItem, discard_on_error,
        LocalStorage.removeItem in Hg |- *.
      rewrite Hw, Hd in Hg. simpl in Hg. injection Hg as <-.
      rewrite Hw, Hd. reflexivity.
    + pose proof (getCachedBackground_None JSON_parse now e e1 (conj Hw Hd) Hg) as Hmiss.
      destruct (falsy_string (stored e)) eqn:Hfalsy; [subst e1; exact Hg |].
      destruct Hmiss as [-> Hgone].
      unfold getCachedBackground, LocalStorage.getItem.
      unfold stored in Hgone.
      assert (Hw1 : window_defined (clearBackgroundCache e) = true).
      { unfold clearBackgroundCache, LocalStorage.removeItem. rewrite Hw, Hd. exact Hw. }
      assert (Hd1 : LocalStorage.denied (localStorage (clearBackgroundCache e)) = false).
      { unfold clearBackgroundCache, LocalStorage.removeItem. rewrite Hw, Hd. reflexivity. }
      rewrite Hw1, Hd1, Hgone. reflexivity.
Qed.

(** X3. Whatever the store holds, and whatever the parser does with it, the
    provider's mount effect never leaves the background URL empty. *)
Theorem provider_mount_url_truthy (w : Z) (c : clock) (p : provider) (e : env) :
  falsy_string (Some (backgroundUrl (provider_mount w c p e).1)) = false.
Proof.
  unfold provider_mount.
  destruct (getCachedBackground JSON_parse (at_read c) e) as [cached e1].
  destruct (falsy_string cached) eqn:Hfalsy; simpl.
  - apply fetchNewBackground_truthy.
  - destruct cached as [u |]; [exact Hfalsy | discriminate].
Qed.

(** X4. A mount that finds no usable cached URL shows a newly built URL and
    stores it; mounting again while that record is younger than the TTL
    shows the same URL and writes nothing. *)
Theorem provider_mount_miss_then_remount (w w2 : Z) (c c2 : clock)
    (p p2 : provider) (e : env) :
  writable e ->
  round_trips (mkCache (fetchNewBackground (at_fetch c) true w) (at_write c)
                 BG_CACHE_VERSION) ->
  falsy_string (getCachedBackground JSON_parse (at_read c) e).1 = true ->
  at_read c2 - at_write c < BG_EXPIRE_TIME ->
  backgroundUrl (provider_mount w c p e).1 = fetchNewBackground (at_fetch c) true w /\
  isLoaded (provider_mount w c p e).1 = isLoaded p /\
  provider_mount w2 c2 p2 (provider_mount w c p e).2
  = (mkProvider (fetchNewBackground (at_fetch c) true w) (isLoaded p2),
     (provider_mount w c p e).2).
Proof.
  intros Hwritable Hrt Hmiss Hage.
  pose proof (getCachedBackground_writable (at_read c) e Hwritable) as Hw1.
  unfold provider_mount at 1 2 4 5.
  destruct (getCachedBackground JSON_parse (at_read c) e) as [cached e1].
  simpl in Hmiss, Hw1. rewrite Hmiss. simpl.
  destruct Hw1 as (Hwd & Hd & Hf). rewrite Hwd.
  repeat split.
  apply provider_mount_after_write; auto using fetchNewBackground_truthy.
  repeat split; assumption.
Qed.

(** X5. [refreshBackground] shows a newly built URL, marks the background as
    not loaded and stores the URL: a mount within the TTL of that write
    shows the refreshed URL. *)
Theorem refreshBackground_then_mount (w w2 : Z) (c c2 : clock)
    (p p2 : provider) (e : env) :
  writable e ->
  round_trips (mkCache (fetchNewBackground (at_fetch c) true w) (at_write c)
                 BG_CACHE_VERSION) ->
  at_read c2 - at_write c < BG_EXPIRE_TIME ->
  (refreshBackground w c p e).1
  = mkProvider (fetchNewBackground (at_fetch c) true w) false /\
  provider_mount w2 c2 p2 (refreshBackground w c p e).2
  = (mkProvider (fetchNewBackground (at_fetch c) true w) (isLoaded p2),
     (refreshBackground w c p e).2).
Proof.
  intros Hwritable Hrt Hage. unfold refreshBackground. simpl.
  destruct Hwritable as (Hwd & Hd & Hf). rewrite Hwd. split; [reflexivity |].
  apply provider_mount_after_write; auto using fetchNewBackground_truthy.
  repeat split; assumption.
Qed.

End WithJSON.

(** X6. Two URLs built on the same device are equal exactly when the clock
    readings are: every later refresh asks for a URL not asked for before. *)
Theorem fetchNewBackground_cache_busting (t1 t2 : Z) (wd : bool) (w : Z) :
  String.eqb (fetchNewBackground t1 wd w) (fetchNewBackground t2 wd w)
  = (t1 =? t2).
Proof.
  destruct (Z.eqb_spec t1 t2) as [-> | Hne]; [apply String.eqb_refl |].
  apply String.eqb_neq. intros Heq. apply Hne.
  unfold fetchNewBackground in Heq.
  destruct (wd && (w <? 768)); simpl in Heq;
    repeat (injection Heq as Heq); apply (inj pretty); exact Heq.
Qed.

(** A stand-in for [JSON.stringify] and [JSON.parse] on a table of known
    records: a record is written with its fields, and a text is read back as
    the known record written that way. *)
Definition show_cache (c : BackgroundCache) : string :=
  "{url:" +:+ url c +:+ ",timestamp:" +:+ pretty (timestamp c)
  +:+ ",version:" +:+ version c +:+ "}".

Definition read_cache (known : list BackgroundCache) (s : string)
  : completion (option BackgroundCache) :=
  match List.find (fun c => String.eqb (show_cache c) s) known with
  | Some c => Normal (Some c)
  | None => Throw
  end.

Definition desktop_clock : clock := mkClock 1700000000000 1700000000001 1700000000002.
Definition next_visit : clock := mkClock 1700003600000 1700003600001 1700003600002.
Definition desktop_url : string := "https://loliapi.com/acg/?1700000000001".
Definition desktop_record : BackgroundCache :=
  mkCache desktop_url 1700000000002 BG_CACHE_VERSION.

Lemma background_write_read_witness :
  getCachedBackground (read_cache [desktop_record]) 1700003600000
    (setCachedBackground show_cache desktop_url 1700000000002 (browser ∅))
  = (Some desktop_url,
     setCachedBackground show_cache desktop_url 1700000000002 (browser ∅)) /\
  getCachedBackground (read_cache [desktop_record]) 1700086400002
    (setCachedBackground show_cache desktop_url 1700000000002 (browser ∅))
  = (None,
     clearBackgroundCache
       (setCachedBackground show_cache desktop_url 1700000000002 (browser ∅))).
Proof.
  assert (Hw : writable (browser ∅)) by (repeat split).
  assert (Hrt : round_trips (read_cache [desktop_record]) show_cache
                  (mkCache desktop_url 1700000000002 BG_CACHE_VERSION))
    by (split; [vm_compute; discriminate | vm_compute; reflexivity]).
  split.
  - apply (background_write_read (read_cache [desktop_record]) show_cache
             desktop_url 1700000000002 1700003600000 (browser ∅) Hw Hrt).
    vm_compute. reflexivity.
  - apply (background_write_read (read_cache [desktop_record]) show_cache
             desktop_url 1700000000002 1700086400002 (browser ∅) Hw Hrt).
    vm_compute. discriminate.
Defined.

Lemma provider_mount_miss_then_remount_witness :
  backgroundUrl
    (provider_mount (read_cache [desktop_record]) show_cache 1280 desktop_clock
       initial_provider (browser ∅)).1 = desktop_url /\
  provider_mount (read_cache [desktop_record]) show_cache 390 next_visit
    initial_provider
    (provider_mount (read_cache [desktop_record]) show_cache 1280 desktop_clock
       initial_provider (browser ∅)).2
  = (mkProvider desktop_url false,
     (provider_mount (read_cache [desktop_record]) show_cache 1280 desktop_clock
        initial_provider (browser ∅)).2).
Proof.
  assert (Hw : writable (browser ∅)) by (repeat split).
  assert (Hrt : round_trips (read_cache [desktop_record]) show_cache
                  (mkCache (fetchNewBackground (at_fetch desktop_clock) true 1280)
                     (at_write desktop_clock) BG_CACHE_VERSION))
    by (split; [vm_compute; discriminate | vm_compute; reflexivity]).
  assert (Hmiss : falsy_string
                    (getCachedBackground (read_cache [desktop_record])
                       (at_read desktop_clock) (browser ∅)).1 = true)
    by (vm_compute; reflexivity).
  assert (Hage : at_read next_visit - at_write desktop_clock < BG_EXPIRE_TIME)
    by (vm_compute; reflexivity).
  destruct (provider_mount_miss_then_remount (read_cache [desktop_record]) show_cache
              1280 390 desktop_clock next_visit initial_provider initial_provider
              (browser ∅) Hw Hrt Hmiss Hage) as (Hurl & _ & Hagain).
  split; [exact Hurl | exact Hagain].
Defined.

Lemma refreshBackground_then_mount_witness :
  (refreshBackground show_cache 1280 desktop_clock (mkProvider "stale" true)
     (browser {[BG_CACHE_KEY := "stale"]})).1
  = mkProvider desktop_url false /\
  provider_mount (read_cache [desktop_record]) show_cache 1280 next_visit
    initial_provider
    (refreshBackground show_cache 1280 desktop_clock (mkProvider "stale" true)
       (browser {[BG_CACHE_KEY := "stale"]})).2
  = (mkProvider desktop_url false,
     (refreshBackground show_cache 1280 desktop_clock (mkProvider "stale" true)
        (browser {[BG_CACHE_KEY := "stale"]})).2).
Proof.
  apply (refreshBackground_then_mount (read_cache [desktop_record]) show_cache
           1280 1280 desktop_clock next_visit (mkProvider "stale" true)
           initial_provider (browser {[BG_CACHE_KEY := "stale"]})).
  - repeat split.
  - split; [vm_compute; discriminate | vm_compute; reflexivity].
  - vm_compute. reflexivity.
Defined.

End BackgroundProvider.


(** ** src/lib/identityData.ts: removal, clearing, refused writes *)

Module SavedIdentities.

Import IdentityData.

(** The list [SavedIdentitiesPage] shows, and the record its confirmation
    dialog holds. *)
Record page : Type := mkPage {
  identities : list SavedIdentity;
  deleteConfirm_isOpen : bool;
  deleteConfirm_identity : option SavedIdentity
}.

Section WithJSON.

Variable JSON_parse : string -> completion (list SavedIdentity).
Variable JSON_stringify : list SavedIdentity -> string.

Local Abbreviation getSavedIdentities := (getSavedIdentities JSON_parse).
Local Abbreviation saveIdentities := (saveIdentities JSON_stringify).
Local Abbreviation addIdentity := (addIdentity JSON_parse JSON_stringify).
Local Abbreviation removeIdentity := (removeIdentity JSON_parse JSON_stringify).
Local Abbreviation isIdentitySaved := (isIdentitySaved JSON_parse).
Local Abbreviation round_trips := (round_trips JSON_parse JSON_stringify).

(** The mount effect of the page: [setIdentities(getSavedIdentities())]. *)
Definition page_mount (e : env) : page :=
  mkPage (getSavedIdentities e) false None.

(** [handleDeleteClick(identity)] *)
Definition handleDeleteClick (identity : SavedIdentity) (pg : page) : page :=
  mkPage (identities pg) true (Some identity).

(** [handleDeleteConfirm()] *)
Definition handleDeleteConfirm (pg : page) (e : env) : page * env :=
  match deleteConfirm_identity pg with
  | Some d =>
    (mkPage (List.filter (fun item => negb (String.eqb (id item) (id d))) (identities pg))
       false None,
     removeIdentity (id d) e)
  | None => (mkPage (identities pg) false None, e)
  end.

(** [handleDeleteCancel()] *)
Definition handleDeleteCancel (pg : page) : page :=
  mkPage (identities pg) false None.

(** The records of [l] whose id is not [i]. *)
Definition without (i : string) (l : list SavedIdentity) : list SavedIdentity :=
  List.filter (fun item => negb (String.eqb (id item) i)) l.

Lemma without_elem (i : string) (l : list SavedIdentity) (x : SavedIdentity) :
  In x (without i l) <-> In x l /\ id x <> i.
Proof.
  unfold without. rewrite filter_In, negb_true_iff, String.eqb_neq. reflexivity.
Qed.

Lemma without_absent (i : string) (l : list SavedIdentity) :
  (forall x, In x l -> id x <> i) -> without i l = l.
Proof.
  unfold without. induction l as [| a l IH]; intros Hl; [reflexivity |].
  simpl. destruct (String.eqb_spec (id a) i) as [Heq | _].
  - exfalso. apply (Hl a); [left; reflexivity | exact Heq].
  - simpl. f_equal. apply IH. intros x Hx. apply Hl. right. exact Hx.
Qed.

Lemma saveIdentities_writable (l : list SavedIdentity) (e : env) :
  writable e -> writable (saveIdentities l e).
Proof.
  intros (Hw & Hd & Hf).
  unfold IdentityData.saveIdentities, LocalStorage.setItem, writable.
  rewrite Hw, Hd, Hf. simpl. auto.
Qed.

Lemma saveIdentities_refused (l : list SavedIdentity) (e : env) :
  window_defined e = false \/
  LocalStorage.denied (localStorage e) = true \/
  LocalStorage.full (localStorage e) = true ->
  saveIdentities l e = e.
Proof.
  unfold IdentityData.saveIdentities, LocalStorage.setItem.
  intros [Hw | [Hd | Hf]].
  - rewrite Hw. reflexivity.
  - rewrite Hd. destruct (window_defined e); reflexivity.
  - rewrite Hf, orb_true_r. destruct (window_defined e); reflexivity.
Qed.

Lemma removeIdentity_stored (i : string) (e : env) :
  writable e -> round_trips (without i (getSavedIdentities e)) ->
  getSavedIdentities (removeIdentity i e) = without i (getSavedIdentities e).
Proof.
  intros Hw Hrt. unfold IdentityData.removeIdentity.
  apply getSavedIdentities_saveIdentities; assumption.
Qed.

(** X7. [removeIdentity] stores the saved records without those of the
    given id, the others unchanged and in order; when no saved record has
    the id, the stored list is the one before. *)
Theorem removeIdentity_spec (i : string) (e : env) :
  writable e -> round_trips (without i (getSavedIdentities e)) ->
  getSavedIdentities (removeIdentity i e) = without i (getSavedIdentities e) /\
  (forall x, In x (getSavedIdentities (removeIdentity i e)) <->
             In x (getSavedIdentities e) /\ id x <> i) /\
  ((forall x, In x (getSavedIdentities e) -> id x <> i) ->
   getSavedIdentities (removeIdentity i e) = getSavedIdentities e).
Proof.
  intros Hw Hrt. rewrite (removeIdentity_stored i e Hw Hrt).
  split; [reflexivity |]. split.
  - intros x. apply without_elem.
  - apply without_absent.
Qed.

(** X8. Removing the record [addIdentity] has just returned gives back the
    list saved before the addition, apart from the earlier records that
    carry the same generated id, which go with it. *)
Theorem addIdentity_removeIdentity (identity : IdentityInput)
    (now_id now_created : Z) (random36 : string) (e : env) :
  writable e ->
  round_trips ((addIdentity identity now_id now_created random36 e).1
                 :: getSavedIdentities e) ->
  round_trips (without (fresh_id now_id random36) (getSavedIdentities e)) ->
  getSavedIdentities
    (removeIdentity (id (addIdentity identity now_id now_created random36 e).1)
       (addIdentity identity now_id now_created random36 e).2)
  = without (fresh_id now_id random36) (getSavedIdentities e) /\
  ((forall x, In x (getSavedIdentities e) -> id x <> fresh_id now_id random36) ->
   getSavedIdentities
     (removeIdentity (id (addIdentity identity now_id now_created random36 e).1)
        (addIdentity identity now_id now_created random36 e).2)
   = getSavedIdentities e).
Proof.
  intros Hw Hrt1 Hrt2.
  unfold IdentityData.addIdentity in *. cbn [fst snd id] in *.
  set (new := mkIdentity _ _ _ _ _ _ _ _ _ _) in *.
  assert (Hstored : getSavedIdentities (saveIdentities (new :: getSavedIdentities e) e)
                    = new :: getSavedIdentities e)
    by (apply getSavedIdentities_saveIdentities; assumption).
  assert (Hwithout : without (fresh_id now_id random36) (new :: getSavedIdentities e)
                     = without (fresh_id now_id random36) (getSavedIdentities e)).
  { unfold without. simpl. rewrite String.eqb_refl. reflexivity. }
  assert (Hremoved :
    getSavedIdentities
      (removeIdentity (fresh_id now_id random36)
         (saveIdentities (new :: getSavedIdentities e) e))
    = without (fresh_id now_id random36) (getSavedIdentities e)).
  { rewrite removeIdentity_stored.
    - rewrite Hstored. exact Hwithout.
    - apply saveIdentities_writable. exact Hw.
    - rewrite Hstored, Hwithout. exact Hrt2. }
  split; [exact Hremoved |].
  intros Hfresh. rewrite Hremoved. apply without_absent. exact Hfresh.
Qed.

(** X9. When the store refuses the write (no window, storage disabled or
    quota exceeded), [addIdentity] still returns the new record, but it and
    [removeIdentity] leave the store as it was: the saved list and the
    answers of [isIdentitySaved] are those from before the call. *)
Theorem refused_write_changes_nothing (identity : IdentityInput)
    (now_id now_created : Z) (random36 : string) (i mail : string) (e : env) :
  window_defined e = false \/
  LocalStorage.denied (localStorage e) = true \/
  LocalStorage.full (localStorage e) = true ->
  (addIdentity identity now_id now_created random36 e).2 = e /\
  id (addIdentity identity now_id now_created random36 e).1 = fresh_id now_id random36 /\
  email (addIdentity identity now_id now_created random36 e).1 = in_email identity /\
  removeIdentity i e = e /\
  isIdentitySaved mail (addIdentity identity now_id now_created random36 e).2
  = isIdentitySaved mail e.
Proof.
  intros Hrefused.
  assert (Hadd : (addIdentity identity now_id now_created random36 e).2 = e)
    by (apply saveIdentities_refused; exact Hrefused).
  rewrite Hadd. repeat split.
  apply saveIdentities_refused. exact Hrefused.
Qed.

(** X10. After [clearAllIdentities], in a browser whose storage is not
    disabled, no identity is saved, whatever was stored and whatever the
    parser does; every other key of the store keeps its value. *)
Theorem clearAllIdentities_spec (mail : string) (e : env) :
  window_defined e = true -> LocalStorage.denied (localStorage e) = false ->
  getSavedIdentities (clearAllIdentities e) = [] /\
  isIdentitySaved mail (clearAllIdentities e) = false /\
  forall k, k <> STORAGE_KEY ->
    LocalStorage.items (localStorage (clearAllIdentities e)) !! k
    = LocalStorage.items (localStorage e) !! k.
Proof.
  intros Hw Hd.
  assert (Hget : getSavedIdentities (clearAllIdentities e) = []).
  { unfold IdentityData.getSavedIdentities, clearAllIdentities,
      LocalStorage.removeItem, LocalStorage.getItem.
    rewrite Hw, Hd. simpl. rewrite Hw. rewrite lookup_delete_eq. reflexivity. }
  split; [exact Hget |]. split.
  - unfold IdentityData.isIdentitySaved. rewrite Hget. reflexivity.
  - intros k Hk. unfold clearAllIdentities, LocalStorage.removeItem.
    rewrite Hw, Hd. simpl. apply lookup_delete_ne. congruence.
Qed.

(** X11. On the saved-identities page, confirming a deletion keeps the list
    shown equal to the list stored, and closes the dialog. *)
Theorem handleDeleteConfirm_in_step (d : SavedIdentity) (pg : page) (e : env) :
  writable e ->
  round_trips (without (id d) (getSavedIdentities e)) ->
  identities pg = getSavedIdentities e ->
  deleteConfirm_identity pg = Some d ->
  identities (handleDeleteConfirm pg e).1
  = getSavedIdentities (handleDeleteConfirm pg e).2 /\
  (forall x, In x (identities (handleDeleteConfirm pg e).1) -> id x <> id d) /\
  deleteConfirm_isOpen (handleDeleteConfirm pg e).1 = false /\
  deleteConfirm_identity (handleDeleteConfirm pg e).1 = None.
Proof.
  intros Hw Hrt Hshown Hd. unfold handleDeleteConfirm. rewrite Hd. simpl.
  rewrite (removeIdentity_stored (id d) e Hw Hrt), Hshown.
  repeat split. intros x Hx. apply (without_elem (id d)) in Hx. tauto.
Qed.

End WithJSON.

(** A stand-in for [JSON.stringify] and [JSON.parse] on a table of known
    lists: a list is written as the ids of its records, and a text is read
    back as the known list written that way. *)
Definition show_identities (l : list SavedIdentity) : string :=
  "[" +:+ String.concat "," (List.map id l) +:+ "]".

Definition read_identities (known : list (list SavedIdentity)) (s : string)
  : completion (list SavedIdentity) :=
  match List.find (fun l => String.eqb (show_identities l) s) known with
  | Some l => Normal l
  | None => Throw
  end.

Definition known_lists : list (list SavedIdentity) :=
  [[]; [earlier]; [saved_newcomer]; [saved_newcomer; earlier]].

Definition two_saved : env :=
  browser {[STORAGE_KEY := show_identities [saved_newcomer; earlier]]}.

Definition one_saved : env :=
  browser {[STORAGE_KEY := show_identities [earlier]]}.

Definition one_saved_full : env :=
  mkEnv true (LocalStorage.mk {[STORAGE_KEY := show_identities [earlier]]} false true).

Lemma removeIdentity_spec_witness :
  getSavedIdentities (read_identities known_lists)
    (removeIdentity (read_identities known_lists) show_identities (id earlier) two_saved)
  = [saved_newcomer].
Proof.
  assert (Hw : writable two_saved) by (repeat split).
  assert (Hrt : round_trips (read_identities known_lists) show_identities
                  (without (id earlier)
                     (getSavedIdentities (read_identities known_lists) two_saved)))
    by (split; [vm_compute; discriminate | vm_compute; reflexivity]).
  rewrite (proj1 (removeIdentity_spec (read_identities known_lists) show_identities
                    (id earlier) two_saved Hw Hrt)).
  vm_compute. reflexivity.
Defined.

Lemma addIdentity_removeIdentity_witness :
  getSavedIdentities (read_identities known_lists)
    (removeIdentity (read_identities known_lists) show_identities
       (id (addIdentity (read_identities known_lists) show_identities newcomer
              1700000000000 1700000000001 "0.4fzyo82mvyr" one_saved).1)
       (addIdentity (read_identities known_lists) show_identities newcomer
          1700000000000 1700000000001 "0.4fzyo82mvyr" one_saved).2)
  = [earlier].
Proof.
  assert (Hw : writable one_saved) by (repeat split).
  assert (Hrt1 : round_trips (read_identities known_lists) show_identities
                   ((addIdentity (read_identities known_lists) show_identities newcomer
                       1700000000000 1700000000001 "0.4fzyo82mvyr" one_saved).1
                    :: getSavedIdentities (read_identities known_lists) one_saved))
    by (split; [vm_compute; discriminate | vm_compute; reflexivity]).
  assert (Hrt2 : round_trips (read_identities known_lists) show_identities
                   (without (fresh_id 1700000000000 "0.4fzyo82mvyr")
                      (getSavedIdentities (read_identities known_lists) one_saved)))
    by (split; [vm_compute; discriminate | vm_compute; reflexivity]).
  rewrite (proj1 (addIdentity_removeIdentity (read_identities known_lists)
                    show_identities newcomer 1700000000000 1700000000001
                    "0.4fzyo82mvyr" one_saved Hw Hrt1 Hrt2)).
  vm_compute. reflexivity.
Defined.

Lemma refused_write_changes_nothing_witness :
  (addIdentity (read_identities known_lists) show_identities newcomer
     1700000000000 1700000000001 "0.4fzyo82mvyr" one_saved_full).2 = one_saved_full /\
  isIdentitySaved (read_identities known_lists) (in_email newcomer)
    (addIdentity (read_identities known_lists) show_identities newcomer
       1700000000000 1700000000001 "0.4fzyo82mvyr" one_saved_full).2
  = isIdentitySaved (read_identities known_lists) (in_email newcomer) one_saved_full.
Proof.
  assert (Hfull : window_defined one_saved_full = false \/
                  LocalStorage.denied (localStorage one_saved_full) = true \/
                  LocalStorage.full (localStorage one_saved_full) = true)
    by (right; right; reflexivity).
  destruct (refused_write_changes_nothing (read_identities known_lists)
              show_identities newcomer 1700000000000 1700000000001 "0.4fzyo82mvyr"
              (id earlier) (in_email newcomer) one_saved_full Hfull)
    as (Hsame & _ & _ & _ & Hsaved).
  split; [exact Hsame | exact Hsaved].
Defined.

Lemma clearAllIdentities_spec_witness :
  getSavedIdentities (read_identities known_lists) (clearAllIdentities two_saved) = [] /\
  isIdentitySaved (read_identities known_lists) (email earlier)
    (clearAllIdentities two_saved) = false.
Proof.
  destruct (clearAllIdentities_spec (read_identities known_lists) (email earlier)
              two_saved eq_refl eq_refl) as (Hnone & Hsaved & _).
  split; [exact Hnone | exact Hsaved].
Defined.

Lemma handleDeleteConfirm_in_step_witness :
  identities
    (handleDeleteConfirm (read_identities known_lists) show_identities
       (handleDeleteClick earlier (page_mount (read_identities known_lists) two_saved))
       two_saved).1
  = getSavedIdentities (read_identities known_lists)
      (handleDeleteConfirm (read_identities known_lists) show_identities
         (handleDeleteClick earlier (page_mount (read_identities known_lists) two_saved))
         two_saved).2.
Proof.
  apply (handleDeleteConfirm_in_step (read_identities known_lists) show_identities
           earlier).
  - repeat split.
  - split; [vm_compute; discriminate | vm_compute; reflexivity].
  - reflexivity.
  - reflexivity.
Defined.

End SavedIdentities.


(** ** The two modules on one [localStorage] *)

Module SharedStorage.

(** [e'] is [e] apart from the value of the key [k]. *)
Definition same_but (k : string) (e e' : env) : Prop :=
  window_defined e' = window_defined e /\
  LocalStorage.denied (localStorage e') = LocalStorage.denied (localStorage e) /\
  forall k', k' <> k ->
    LocalStorage.items (localStorage e') !! k' = LocalStorage.items (localStorage e) !! k'.

Lemma same_but_refl (k : string) (e : env) : same_but k e e.
Proof. repeat split. Qed.

Lemma same_but_removeItem (k : string) (e : env) (ls : LocalStorage.t) :
  LocalStorage.removeItem k (localStorage e) = Normal ls ->
  same_but k e (with_storage e ls).
Proof.
  unfold LocalStorage.removeItem. destruct (LocalStorage.denied (localStorage e)) eqn:Hd;
    [discriminate |].
  intros [= <-]. repeat split; simpl; [congruence |].
  intros k' Hk'. apply lookup_delete_ne. congruence.
Qed.

Lemma same_but_setItem (k v : string) (e : env) (ls : LocalStorage.t) :
  LocalStorage.setItem k v (localStorage e) = Normal ls ->
  same_but k e (with_storage e ls).
Proof.
  unfold LocalStorage.setItem.
  destruct (LocalStorage.denied (localStorage e) || LocalStorage.full (localStorage e));
    [discriminate |].
  intros [= <-]. repeat split; simpl.
  intros k' Hk'. apply lookup_insert_ne. congruence.
Qed.

Lemma keys_differ : IdentityData.STORAGE_KEY <> BackgroundContext.BG_CACHE_KEY.
Proof. discriminate. Qed.

Section WithJSON.

Variable parse_cache : string -> completion (option BackgroundContext.BackgroundCache).
Variable stringify_cache : BackgroundContext.BackgroundCache -> string.
Variable parse_identities : string -> completion (list IdentityData.SavedIdentity).
Variable stringify_identities : list IdentityData.SavedIdentity -> string.

Lemma clearBackgroundCache_same_but (e : env) :
  same_but BackgroundContext.BG_CACHE_KEY e (BackgroundContext.clearBackgroundCache e).
Proof.
  unfold BackgroundContext.clearBackgroundCache.
  destruct (negb (window_defined e)); [apply same_but_refl |].
  destruct (LocalStorage.removeItem _ _) eqn:Hr;
    [apply (same_but_removeItem _ _ _ Hr) | apply same_but_refl].
Qed.

Lemma setCachedBackground_same_but (u : string) (t : Z) (e : env) :
  same_but BackgroundContext.BG_CACHE_KEY e
    (BackgroundContext.setCachedBackground stringify_cache u t e).
Proof.
  unfold BackgroundContext.setCachedBackground.
  destruct (negb (window_defined e)); [apply same_but_refl |].
  destruct (LocalStorage.setItem _ _ _) eqn:Hs;
    [apply (same_but_setItem _ _ _ _ Hs) | apply same_but_refl].
Qed.

Lemma discard_on_error_same_but (e : env) :
  same_but BackgroundContext.BG_CACHE_KEY e (BackgroundContext.discard_on_error e).2.
Proof.
  unfold BackgroundContext.discard_on_error.
  destruct (LocalStorage.removeItem _ _) eqn:Hr; simpl;
    [apply (same_but_removeItem _ _ _ Hr) | apply same_but_refl].
Qed.

Lemma getCachedBackground_same_but (now : Z) (e : env) :
  same_but BackgroundContext.BG_CACHE_KEY e
    (BackgroundContext.getCachedBackground parse_cache now e).2.
Proof.
  unfold BackgroundContext.getCachedBackground.
  destruct (negb (window_defined e)); [apply same_but_refl |].
  destruct (LocalStorage.getItem _ _) as [cached |]; [| apply discard_on_error_same_but].
  destruct (falsy_string cached); [apply same_but_refl |].
  destruct (parse_cache _) as [data |]; [| apply discard_on_error_same_but].
  destruct (negb (BackgroundContext.isCacheValid data now)).
  - destruct (LocalStorage.removeItem _ _) eqn:Hr; simpl;
      [apply (same_but_removeItem _ _ _ Hr) | apply discard_on_error_same_but].
  - destruct data; [apply same_but_refl | apply discard_on_error_same_but].
Qed.

Lemma saveIdentities_same_but (l : list IdentityData.SavedIdentity) (e : env) :
  same_but IdentityData.STORAGE_KEY e (IdentityData.saveIdentities stringify_identities l e).
Proof.
  unfold IdentityData.saveIdentities.
  destruct (negb (window_defined e)); [apply same_but_refl |].
  destruct (LocalStorage.setItem _ _ _) eqn:Hs;
    [apply (same_but_setItem _ _ _ _ Hs) | apply same_but_refl].
Qed.

Lemma clearAllIdentities_same_but (e : env) :
  same_but IdentityData.STORAGE_KEY e (IdentityData.clearAllIdentities e).
Proof.
  unfold IdentityData.clearAllIdentities.
  destruct (negb (window_defined e)); [apply same_but_refl |].
  destruct (LocalStorage.removeItem _ _) eqn:Hr;
    [apply (same_but_removeItem _ _ _ Hr) | apply same_but_refl].
Qed.

Lemma getSavedIdentities_same_but (k : string) (e e' : env) :
  k <> IdentityData.STORAGE_KEY -> same_but k e e' ->
  IdentityData.getSavedIdentities parse_identities e'
  = IdentityData.getSavedIdentities parse_identities e.
Proof.
  intros Hk (Hw & Hd & Hitems).
  unfold IdentityData.getSavedIdentities, LocalStorage.getItem.
  rewrite Hw, Hd, (Hitems IdentityData.STORAGE_KEY); [reflexivity | congruence].
Qed.

Lemma getCachedBackground_same_but_result (k : string) (now : Z) (e e' : env) :
  k <> BackgroundContext.BG_CACHE_KEY -> same_but k e e' ->
  (BackgroundContext.getCachedBackground parse_cache now e').1
  = (BackgroundContext.getCachedBackground parse_cache now e).1.
Proof.
  intros Hk (Hw & Hd & Hitems).
  unfold BackgroundContext.getCachedBackground, BackgroundContext.discard_on_error,
    LocalStorage.getItem, LocalStorage.removeItem.
  rewrite Hw, Hd, (Hitems BackgroundContext.BG_CACHE_KEY) by congruence.
  destruct (negb (window_defined e)); [reflexivity |].
  destruct (LocalStorage.denied (localStorage e)); [reflexivity |].
  destruct (falsy_string _); [reflexivity |].
  destruct (parse_cache _) as [data |]; [| reflexivity].
  destruct (negb (BackgroundContext.isCacheValid data now)); [reflexivity |].
  destruct data; reflexivity.
Qed.

(** X12. No call of the background cache changes the saved identities:
    after a write, a clear or a read of the background cache (a read may
    remove a stale or corrupt record), [getSavedIdentities] returns what it
    returned before. *)
Theorem background_calls_keep_identities (u : string) (t now : Z) (e : env) :
  IdentityData.getSavedIdentities parse_identities
    (BackgroundContext.setCachedBackground stringify_cache u t e)
  = IdentityData.getSavedIdentities parse_identities e /\
  IdentityData.getSavedIdentities parse_identities
    (BackgroundContext.clearBackgroundCache e)
  = IdentityData.getSavedIdentities parse_identities e /\
  IdentityData.getSavedIdentities parse_identities
    (BackgroundContext.getCachedBackground parse_cache now e).2
  = IdentityData.getSavedIdentities parse_identities e.
Proof.
  pose proof keys_differ as Hk.
  repeat split;
    apply (getSavedIdentities_same_but BackgroundContext.BG_CACHE_KEY);
    auto using setCachedBackground_same_but, clearBackgroundCache_same_but,
      getCachedBackground_same_but.
Qed.

(** X13. No call of the identity store changes what the background cache
    returns: after [addIdentity], [removeIdentity] or [clearAllIdentities],
    [getCachedBackground] returns what it would have returned before. *)
Theorem identity_calls_keep_background (identity : IdentityData.IdentityInput)
    (now_id now_created : Z) (random36 i : string) (now : Z) (e : env) :
  (BackgroundContext.getCachedBackground parse_cache now
     (IdentityData.addIdentity parse_identities stringify_identities identity
        now_id now_created random36 e).2).1
  = (BackgroundContext.getCachedBackground parse_cache now e).1 /\
  (BackgroundContext.getCachedBackground parse_cache now
     (IdentityData.removeIdentity parse_identities stringify_identities i e)).1
  = (BackgroundContext.getCachedBackground parse_cache now e).1 /\
  (BackgroundContext.getCachedBackground parse_cache now
     (IdentityData.clearAllIdentities e)).1
  = (BackgroundContext.getCachedBackground parse_cache now e).1.
Proof.
  pose proof keys_differ as Hk.
  unfold IdentityData.addIdentity, IdentityData.removeIdentity. cbn [snd].
  repeat split;
    apply (getCachedBackground_same_but_result IdentityData.STORAGE_KEY);
    auto using saveIdentities_same_but, clearAllIdentities_same_but.
Qed.

End WithJSON.

End SharedStorage.


(** ** src/lib/flagCache.ts: every call of the module *)

Module FlagCacheApi.

Import FlagCache.

Section WithFlags.

Variable FlagComponentType : Type.
Variable flags : string -> option (export FlagComponentType).

Local Abbreviation state := (FlagCache.state FlagComponentType).

(** What a page does with the module, and the settlement of a load. *)
Inductive api_event : Type :=
| Load (countryCode : string)          (* loadFlagIcon(countryCode), up to its return *)
| Settled (p : nat) (import_ok : bool) (* the import of the load [p] settles *)
| Clear                                (* clearCache() *)
| Preload.                             (* the idle callback of preloadTopFlags() *)

Definition api_step (s : state) (e : api_event) : state :=
  match e with
  | Load countryCode => (loadFlagIcon countryCode s).2
  | Settled p import_ok => (settleLoad flags p import_ok s).2
  | Clear => clearCache s
  | Preload => preloadTopFlags _ s
  end.

Definition api_run (s : state) (tr : list api_event) : state := foldl api_step s tr.

(** The loader of src/app/sjh/page.tsx, which keeps no cache: the value its
    promise resolves with. *)
Definition loadFlagIcon_uncached (import_ok : bool) (countryCode : string)
  : option FlagComponentType :=
  if import_ok then
    match flags countryCode with
    | Some (Component FlagComponent) => Some FlagComponent
    | _ => None
    end
  else None.

(** What survives [clearCache] of the invariant of the module state: cached
    codes are distinct and name components of the icon module, and a pending
    entry names a suspended load. *)
Record sound (s : state) : Prop := mkSound {
  snd_nodup : NoDup (getCachedCodes s);
  snd_entries : forall k c, (k, c) ∈ flagCache s -> flags k = Some (Component c);
  snd_table : forall k p, loadingPromises s !! k = Some p -> inflight s !! p = Some k;
  snd_fresh : forall p k, inflight s !! p = Some k -> (p < next_promise _ s)%nat
}.

Lemma sound_initial : sound initial.
Proof.
  split; simpl.
  - apply NoDup_nil_2.
  - intros k c H. apply elem_of_nil in H. contradiction.
  - intros k p. rewrite lookup_empty. discriminate.
  - intros p k. rewrite lookup_empty. discriminate.
Qed.

Lemma touch_NoDup (cache : list (string * FlagComponentType)) k c :
  NoDup (map_keys cache) -> NoDup (map_keys (map_delete k cache ++ [(k, c)])).
Proof.
  intros Hnd. rewrite map_keys_snoc. apply NoDup_app. split; [| split].
  - apply map_delete_NoDup, Hnd.
  - intros x Hx Hx'. apply list_elem_of_singleton in Hx'. subst x.
    exact (map_keys_delete_absent cache k Hx).
  - apply NoDup_singleton.
Qed.

Lemma touch_elem (cache : list (string * FlagComponentType)) k c k' c' :
  map_get k cache = Some c ->
  (k', c') ∈ map_delete k cache ++ [(k, c)] ->
  (k', c') ∈ cache.
Proof.
  intros Hget Hin. apply elem_of_app in Hin as [Hin | Hin].
  - apply map_delete_elem in Hin. tauto.
  - apply list_elem_of_singleton in Hin. injection Hin as -> ->.
    apply map_get_Some_elem, Hget.
Qed.

Lemma loadFlagIcon_sound s k : sound s -> sound (loadFlagIcon k s).2.
Proof.
  intros [Hnd Hent Htab Hfresh].
  destruct (map_get k (flagCache s)) as [c |] eqn:Hget.
  - rewrite (loadFlagIcon_hit _ s k c Hget). split; simpl; auto.
    + apply touch_NoDup, Hnd.
    + intros k' c' Hin. apply Hent. eapply touch_elem; eassumption.
  - destruct (loadingPromises s !! k) as [p |] eqn:Hp.
    + unfold loadFlagIcon. rewrite Hget, Hp. split; assumption.
    + rewrite (loadFlagIcon_starts _ s k Hget Hp). split; simpl; auto.
      * intros k' p'. destruct (decide (k' = k)) as [-> | Hne].
        -- rewrite lookup_insert_eq. intros [= <-]. apply lookup_insert_eq.
        -- rewrite lookup_insert_ne by congruence. intros Hk'.
           pose proof (Htab _ _ Hk') as Hin. pose proof (Hfresh _ _ Hin) as Hlt.
           rewrite lookup_insert_ne by lia. exact Hin.
      * intros p' k'. destruct (decide (p' = next_promise _ s)) as [-> | Hne].
        -- lia.
        -- rewrite lookup_insert_ne by congruence. intros Hin.
           pose proof (Hfresh _ _ Hin). lia.
Qed.

Lemma map_keys_set_present (cache : list (string * FlagComponentType)) k c :
  is_Some (map_get k cache) -> map_keys (map_set k c cache) = map_keys cache.
Proof.
  intros [c0 Hget]. unfold map_set. rewrite Hget. unfold map_keys.
  rewrite <- list_fmap_compose. apply list_fmap_ext. intros i [k' c'] _. simpl.
  destruct (String.eqb_spec k' k) as [-> | Hne]; reflexivity.
Qed.

Lemma map_set_elem (cache : list (string * FlagComponentType)) k c k' c' :
  (k', c') ∈ map_set k c cache -> (k', c') = (k, c) \/ (k', c') ∈ cache.
Proof.
  unfold map_set. destruct (map_get k cache).
  - rewrite list_elem_of_fmap. intros ([k0 c0] & Heq & Hin). simpl in Heq.
    destruct (String.eqb_spec k0 k) as [-> | Hne].
    + left. exact Heq.
    + right. rewrite Heq. exact Hin.
  - rewrite elem_of_app, list_elem_of_singleton. tauto.
Qed.

Lemma map_set_length (cache : list (string * FlagComponentType)) k c :
  (length (map_set k c cache) <= S (length cache))%nat.
Proof.
  unfold map_set. destruct (map_get k cache).
  - rewrite length_fmap. lia.
  - rewrite length_app. simpl. lia.
Qed.

Lemma map_set_NoDup (cache : list (string * FlagComponentType)) k c :
  NoDup (map_keys cache) -> NoDup (map_keys (map_set k c cache)).
Proof.
  intros Hnd. destruct (map_get k cache) as [c0 |] eqn:Hget.
  - rewrite map_keys_set_present by eauto. exact Hnd.
  - apply map_get_None in Hget. rewrite (map_set_absent _ _ _ Hget), map_keys_snoc.
    apply NoDup_app. split; [exact Hnd | split; [| apply NoDup_singleton]].
    intros x Hx Hx'. apply list_elem_of_singleton in Hx'. subst x. contradiction.
Qed.

Lemma settleLoad_sound s p import_ok : sound s -> sound (settleLoad flags p import_ok s).2.
Proof.
  intros [Hnd Hent Htab Hfresh]. unfold settleLoad.
  destruct (inflight s !! p) as [k |] eqn:Hp; [| split; assumption].
  assert (Htab' : forall k' p',
             delete k (loadingPromises s) !! k' = Some p' ->
             delete p (inflight s) !! p' = Some k').
  { intros k' p' Hk'. apply lookup_delete_Some in Hk' as [Hne Hk'].
    pose proof (Htab _ _ Hk') as Hin. apply lookup_delete_Some. split; [| exact Hin].
    intros <-. congruence. }
  assert (Hfresh' : forall p' k',
             delete p (inflight s) !! p' = Some k' -> (p' < next_promise _ s)%nat).
  { intros p' k' Hin. apply lookup_delete_Some in Hin as [_ Hin]. eauto. }
  assert (Hkeep : sound (mkState _ (flagCache s) (delete k (loadingPromises s))
                           (delete p (inflight s)) (next_promise _ s)))
    by (split; assumption).
  destruct import_ok; [| exact Hkeep].
  destruct (flags k) as [[c |] |] eqn:Hflag; try exact Hkeep.
  split; simpl; try assumption.
  - apply map_set_NoDup, evict_oldest_NoDup, Hnd.
  - intros k' c' Hin. apply map_set_elem in Hin as [[= -> ->] | Hin]; [exact Hflag |].
    apply Hent. apply (evict_oldest_elem _ flags) in Hin. exact Hin.
Qed.

Lemma clearCache_sound s : sound s -> sound (clearCache s).
Proof.
  intros [Hnd Hent Htab Hfresh]. split; simpl.
  - apply NoDup_nil_2.
  - intros k c H. apply elem_of_nil in H. contradiction.
  - intros k p. rewrite lookup_empty. discriminate.
  - exact Hfresh.
Qed.

(** Calls in a row, results dropped. *)
Definition call_all (s : state) (codes : list string) : state :=
  foldl (fun s code => (loadFlagIcon code s).2) s codes.

Lemma call_all_sound s codes : sound s -> sound (call_all s codes).
Proof.
  revert s. induction codes as [| code codes IH]; intros s Hs; [exact Hs |].
  apply IH, loadFlagIcon_sound, Hs.
Qed.

Lemma api_step_sound s e : sound s -> sound (api_step s e).
Proof.
  destruct e; simpl.
  - apply loadFlagIcon_sound.
  - apply settleLoad_sound.
  - apply clearCache_sound.
  - apply (call_all_sound s TOP_COUNTRIES).
Qed.

Lemma api_run_sound s tr : sound s -> sound (api_run s tr).
Proof.
  revert s. induction tr as [| e tr IH]; intros s Hs; [exact Hs |].
  apply IH, api_step_sound, Hs.
Qed.

(** X14. The cache is transparent: after any sequence of calls of the
    module, settlements, [clearCache] and preloads, what an awaited
    [loadFlagIcon] gives is what the loader without a cache gives for the
    same code: on a hit the component the icon module exports, otherwise the
    outcome of the import it waits for. *)
Theorem loadFlagIcon_agrees_with_uncached (tr : list api_event) (k : string)
    (import_ok : bool) :
  match loadFlagIcon k (api_run initial tr) with
  | (Cached c, _) => loadFlagIcon_uncached true k = Some c
  | (Awaits p, s') =>
    (settleLoad flags p import_ok s').1 = Some (loadFlagIcon_uncached import_ok k)
  end.
Proof.
  pose proof (api_run_sound initial tr sound_initial) as [Hnd Hent Htab Hfresh].
  set (s := api_run initial tr) in *.
  assert (Hsettle : forall p s',
             inflight s' !! p = Some k ->
             (settleLoad flags p import_ok s').1
             = Some (loadFlagIcon_uncached import_ok k)).
  { intros p s' Hp. unfold settleLoad, loadFlagIcon_uncached. rewrite Hp.
    destruct import_ok; [| reflexivity].
    destruct (flags k) as [[c |] |]; reflexivity. }
  destruct (map_get k (flagCache s)) as [c |] eqn:Hget.
  - rewrite (loadFlagIcon_hit _ s k c Hget).
    unfold loadFlagIcon_uncached. rewrite (Hent k c (map_get_Some_elem _ _ _ Hget)).
    reflexivity.
  - destruct (loadingPromises s !! k) as [p |] eqn:Hp.
    + unfold loadFlagIcon. rewrite Hget, Hp. apply Hsettle, Htab, Hp.
    + rewrite (loadFlagIcon_starts _ s k Hget Hp). apply Hsettle. simpl.
      apply lookup_insert_eq.
Qed.

Lemma loadFlagIcon_facts s k :
  sound s ->
  (forall k' c', (k', c') ∈ flagCache (loadFlagIcon k s).2 <-> (k', c') ∈ flagCache s) /\
  getCacheSize (loadFlagIcon k s).2 = getCacheSize s /\
  (forall k' p, loadingPromises s !! k' = Some p ->
                loadingPromises (loadFlagIcon k s).2 !! k' = Some p) /\
  ((exists c, (k, c) ∈ flagCache (loadFlagIcon k s).2) \/
   is_Some (loadingPromises (loadFlagIcon k s).2 !! k)) /\
  (next_promise _ (loadFlagIcon k s).2 <= S (next_promise _ s))%nat.
Proof.
  intros [Hnd Hent Htab Hfresh].
  destruct (map_get k (flagCache s)) as [c |] eqn:Hget.
  - rewrite (loadFlagIcon_hit _ s k c Hget). cbn [snd flagCache loadingPromises next_promise].
    split; [| split; [| split; [| split]]].
    + intros k' c'. split; [apply touch_elem, Hget |].
      intros Hin. apply elem_of_app. destruct (decide (k' = k)) as [-> | Hne].
      * right. apply list_elem_of_singleton.
        pose proof (map_get_elem _ _ _ Hnd Hin) as Hget'. congruence.
      * left. apply map_delete_elem. auto.
    + unfold getCacheSize. cbn [flagCache]. rewrite length_app. simpl.
      pose proof (map_delete_length (flagCache s) k Hnd (map_get_Some_key _ _ _ Hget)).
      lia.
    + auto.
    + left. exists c. apply elem_of_app. right. apply list_elem_of_singleton. reflexivity.
    + lia.
  - destruct (loadingPromises s !! k) as [p |] eqn:Hp.
    + unfold loadFlagIcon. rewrite Hget, Hp. cbn [snd].
      split; [tauto |]. split; [reflexivity |]. split; [auto |].
      split; [right; rewrite Hp; eauto | lia].
    + rewrite (loadFlagIcon_starts _ s k Hget Hp).
      cbn [snd flagCache loadingPromises next_promise].
      split; [tauto |]. split; [reflexivity |]. split; [| split; [| lia]].
      * intros k' p' Hk'. rewrite lookup_insert_ne; [exact Hk' | congruence].
      * right. rewrite lookup_insert_eq. eauto.
Qed.

Lemma call_all_facts s codes :
  sound s ->
  (forall k' c', (k', c') ∈ flagCache (call_all s codes) <-> (k', c') ∈ flagCache s) /\
  getCacheSize (call_all s codes) = getCacheSize s /\
  (forall k' p, loadingPromises s !! k' = Some p ->
                loadingPromises (call_all s codes) !! k' = Some p) /\
  (forall code, code ∈ codes ->
     (exists c, (code, c) ∈ flagCache (call_all s codes)) \/
     is_Some (loadingPromises (call_all s codes) !! code)) /\
  (next_promise _ (call_all s codes) <= next_promise _ s + length codes)%nat.
Proof.
  revert s. induction codes as [| code codes IH]; intros s Hs.
  - simpl. repeat split; auto; try tauto; try lia.
    intros code Hin. apply elem_of_nil in Hin. contradiction.
  - destruct (loadFlagIcon_facts s code Hs) as (Hent1 & Hsize1 & Hlp1 & Hheld1 & Hnext1).
    destruct (IH _ (loadFlagIcon_sound s code Hs)) as (Hent & Hsize & Hlp & Hheld & Hnext).
    change (call_all s (code :: codes)) with (call_all (loadFlagIcon code s).2 codes).
    split; [| split; [| split; [| split]]].
    + intros k' c'. rewrite Hent. apply Hent1.
    + rewrite Hsize. exact Hsize1.
    + intros k' p Hk'. apply Hlp, Hlp1, Hk'.
    + intros code' Hin. apply elem_of_cons in Hin as [-> | Hin]; [| apply Hheld, Hin].
      destruct Hheld1 as [[c Hc] | [p Hp]].
      * left. exists c. apply Hent, Hc.
      * right. rewrite (Hlp _ _ Hp). eauto.
    + simpl length. lia.
Qed.

(** X15. The preload neither adds to the cache nor removes from it: after
    any history of the module, the idle callback of [preloadTopFlags] leaves
    the cached entries and the cache size as they are (hits only move to the
    end), keeps every pending load, and leaves each of the five top codes
    cached or being loaded, having started at most five loads. *)
Theorem preloadTopFlags_spec (tr : list api_event) :
  let s := api_run initial tr in
  let s' := preloadTopFlags _ s in
  (forall k c, (k, c) ∈ flagCache s' <-> (k, c) ∈ flagCache s) /\
  getCacheSize s' = getCacheSize s /\
  (forall k p, loadingPromises s !! k = Some p -> loadingPromises s' !! k = Some p) /\
  (forall code, code ∈ TOP_COUNTRIES ->
     isCached code s' = true \/ is_Some (loadingPromises s' !! code)) /\
  (next_promise _ s' <= next_promise _ s + 5)%nat.
Proof.
  intros s s'.
  destruct (call_all_facts s TOP_COUNTRIES (api_run_sound initial tr sound_initial))
    as (Hent & Hsize & Hlp & Hheld & Hnext).
  repeat split; try assumption; try apply Hent.
  intros code Hin. destruct (Hheld code Hin) as [[c Hc] | Hp]; [left | right; exact Hp].
  apply map_has_true. apply (list_elem_of_fmap_2 fst) in Hc. exact Hc.
Qed.

Lemma evict_oldest_makes_room (cache : list (string * FlagComponentType)) :
  (forall k, k ∈ map_keys cache -> k <> "") ->
  (length cache <= MAX_CACHE_SIZE)%nat ->
  (length (evict_oldest _ cache) < MAX_CACHE_SIZE)%nat.
Proof.
  intros Htruthy Hlen. unfold evict_oldest.
  destruct (Nat.leb_spec MAX_CACHE_SIZE (length cache)) as [Hfull | Hroom]; [| exact Hroom].
  destruct cache as [| [k0 c0] rest]; [unfold MAX_CACHE_SIZE in Hfull; simpl in Hfull; lia |].
  cbn [map_keys fmap list_fmap fst].
  destruct (String.eqb_spec k0 "") as [Heq | Hne].
  - exfalso. apply (Htruthy k0); [apply list_elem_of_here | exact Heq].
  - unfold map_delete. rewrite filter_cons_False by (simpl; tauto).
    pose proof (length_filter (fun kv : string * FlagComponentType => kv.1 <> k0) rest).
    simpl in Hlen. lia.
Qed.

Section Bounded.

Hypothesis flags_named : flags "" = None.

Lemma sound_keys_truthy s k : sound s -> k ∈ map_keys (flagCache s) -> k <> "".
Proof.
  intros [_ Hent _ _] Hin. apply list_elem_of_fmap in Hin as ([k' c] & -> & Hin).
  intros Heq. simpl in Heq. subst k'. rewrite (Hent _ _ Hin) in flags_named. discriminate.
Qed.

Lemma settleLoad_within s p import_ok :
  sound s -> (getCacheSize s <= MAX_CACHE_SIZE)%nat ->
  (getCacheSize (settleLoad flags p import_ok s).2 <= MAX_CACHE_SIZE)%nat.
Proof.
  intros Hs Hlen. unfold settleLoad, getCacheSize in *.
  destruct (inflight s !! p) as [k |]; [| exact Hlen].
  destruct import_ok; [| exact Hlen].
  destruct (flags k) as [[c |] |]; try exact Hlen.
  cbn [snd flagCache].
  pose proof (map_set_length (evict_oldest _ (flagCache s)) k c).
  pose proof (evict_oldest_makes_room (flagCache s) (fun k' => sound_keys_truthy s k' Hs) Hlen). lia.
Qed.

Lemma api_step_within s e :
  sound s -> (getCacheSize s <= MAX_CACHE_SIZE)%nat ->
  (getCacheSize (api_step s e) <= MAX_CACHE_SIZE)%nat.
Proof.
  intros Hs Hlen. destruct e; simpl.
  - destruct (loadFlagIcon_facts s countryCode Hs) as (_ & -> & _). exact Hlen.
  - apply settleLoad_within; assumption.
  - unfold getCacheSize, clearCache, MAX_CACHE_SIZE. simpl. lia.
  - destruct (call_all_facts s TOP_COUNTRIES Hs) as (_ & Hsize & _).
    unfold preloadTopFlags. unfold call_all in Hsize. rewrite Hsize. exact Hlen.
Qed.

Lemma api_run_within s tr :
  sound s -> (getCacheSize s <= MAX_CACHE_SIZE)%nat ->
  (getCacheSize (api_run s tr) <= MAX_CACHE_SIZE)%nat.
Proof.
  revert s. induction tr as [| e tr IH]; intros s Hs Hlen; [exact Hlen |].
  apply IH; [apply api_step_sound, Hs | apply api_step_within; assumption].
Qed.

End Bounded.

(** X16. With no component exported under the empty name, the cache never
    holds more than 30 entries after any sequence of calls, settlements,
    [clearCache] and preloads; its codes are distinct, each names a
    component of the icon module, and [getCacheSize], [getCachedCodes] and
    [isCached] agree with one another. *)
Theorem flagCache_bounded_all_calls (tr : list api_event) :
  flags "" = None ->
  (getCacheSize (api_run initial tr) <= 30)%nat /\
  NoDup (getCachedCodes (api_run initial tr)) /\
  length (getCachedCodes (api_run initial tr)) = getCacheSize (api_run initial tr) /\
  (forall k, isCached k (api_run initial tr) = true <->
             k ∈ getCachedCodes (api_run initial tr)) /\
  (forall k, k ∈ getCachedCodes (api_run initial tr) ->
             exists c, flags k = Some (Component c)).
Proof.
  intros Hnamed.
  pose proof (api_run_sound initial tr sound_initial) as Hs.
  pose proof (api_run_within Hnamed initial tr sound_initial) as Hlen.
  destruct Hs as [Hnd Hent _ _].
  split; [apply Hlen; unfold getCacheSize, MAX_CACHE_SIZE; simpl; lia |].
  split; [exact Hnd |]. split; [| split].
  - unfold getCachedCodes, getCacheSize, map_keys. apply length_fmap.
  - intros k. apply map_has_true.
  - intros k Hin. apply list_elem_of_fmap in Hin as ([k' c] & -> & Hin).
    exists c. apply Hent, Hin.
Qed.

(** X17. [clearCache] does not cancel a load in flight, it only forgets it:
    a call for the same code after the clear starts a second import, the
    first load still fills the cache when it settles and removes the pending
    entry of the second, and when the second settles the cache still holds
    the one entry. *)
Theorem clearCache_forgets_loads (tr : list api_event) (p : nat) (k : string)
    (c : FlagComponentType) :
  inflight (api_run initial tr) !! p = Some k ->
  flags k = Some (Component c) ->
  let n := next_promise _ (api_run initial tr) in
  let s1 := (loadFlagIcon k (clearCache (api_run initial tr))).2 in
  let s2 := (settleLoad flags p true s1).2 in
  let s3 := (settleLoad flags n true s2).2 in
  (loadFlagIcon k (clearCache (api_run initial tr))).1 = Awaits n /\
  (p < n)%nat /\
  (settleLoad flags p true s1).1 = Some (Some c) /\
  flagCache s2 = [(k, c)] /\
  loadingPromises s2 !! k = None /\
  inflight s2 !! n = Some k /\
  (settleLoad flags n true s2).1 = Some (Some c) /\
  flagCache s3 = [(k, c)].
Proof.
  intros Hp Hflag.
  pose proof (api_run_sound initial tr sound_initial) as [_ _ _ Hfresh].
  set (s := api_run initial tr) in *.
  pose proof (Hfresh _ _ Hp) as Hlt.
  assert (Hs1 : loadFlagIcon k (clearCache s)
                = (Awaits (next_promise _ s),
                   mkState _ [] (<[k := next_promise _ s]> ∅)
                     (<[next_promise _ s := k]> (inflight s)) (S (next_promise _ s))))
    by (apply (loadFlagIcon_starts _ (clearCache s) k); reflexivity).
  cbv zeta. rewrite Hs1. cbn [fst snd].
  assert (Hs2 : settleLoad flags p true
                  (mkState _ [] (<[k := next_promise _ s]> ∅)
                     (<[next_promise _ s := k]> (inflight s)) (S (next_promise _ s)))
                = (Some (Some c),
                   mkState _ [(k, c)] (delete k (<[k := next_promise _ s]> ∅))
                     (delete p (<[next_promise _ s := k]> (inflight s)))
                     (S (next_promise _ s)))).
  { unfold settleLoad. cbn [inflight].
    rewrite lookup_insert_ne by lia. rewrite Hp, Hflag. reflexivity. }
  rewrite Hs2. cbn [fst snd flagCache loadingPromises inflight].
  assert (Hn : delete p (<[next_promise _ s := k]> (inflight s)) !! next_promise _ s
               = Some k).
  { rewrite lookup_delete_ne by lia. apply lookup_insert_eq. }
  assert (Hs3 : settleLoad flags (next_promise _ s) true
                  (mkState _ [(k, c)] (delete k (<[k := next_promise _ s]> ∅))
                     (delete p (<[next_promise _ s := k]> (inflight s)))
                     (S (next_promise _ s)))
                = (Some (Some c),
                   mkState _ [(k, c)]
                     (delete k (delete k (<[k := next_promise _ s]> ∅)))
                     (delete (next_promise _ s)
                        (delete p (<[next_promise _ s := k]> (inflight s))))
                     (S (next_promise _ s)))).
  { unfold settleLoad. cbn [inflight]. rewrite Hn, Hflag.
    cbn [fst snd flagCache loadingPromises next_promise].
    unfold evict_oldest, map_set. simpl. rewrite String.eqb_refl. reflexivity. }
  rewrite Hs3. cbn [fst snd flagCache].
  repeat split; try assumption. apply lookup_delete_eq.
Qed.

End WithFlags.

(** The loads of the first page view, with the import of [US] still
    suspended. *)
Definition us_in_flight : list api_event := [Preload; Load "GB"].

Lemma flagCache_bounded_all_calls_witness :
  (getCacheSize
     (api_run _ icons initial
        ((Load <$> VALID_COUNTRY_CODES)
         ++ ((fun p => Settled p true) <$> seq 0 55)))
   <= 30)%nat.
Proof.
  apply (flagCache_bounded_all_calls string icons
           ((Load <$> VALID_COUNTRY_CODES)
            ++ ((fun p => Settled p true) <$> seq 0 55))).
  vm_compute. reflexivity.
Defined.

Lemma clearCache_forgets_loads_witness :
  flagCache
    (settleLoad icons 0 true
       (loadFlagIcon "US" (clearCache (api_run _ icons initial us_in_flight))).2).2
  = [("US", "US")] /\
  flagCache
    (settleLoad icons 6 true
       (settleLoad icons 0 true
          (loadFlagIcon "US" (clearCache (api_run _ icons initial us_in_flight))).2).2).2
  = [("US", "US")].
Proof.
  assert (Hp : inflight (api_run _ icons initial us_in_flight) !! 0%nat = Some "US")
    by (vm_compute; reflexivity).
  assert (Hflag : icons "US" = Some (Component "US")) by (vm_compute; reflexivity).
  destruct (clearCache_forgets_loads string icons us_in_flight 0 "US" "US" Hp Hflag)
    as (_ & _ & _ & Hfirst & _ & _ & _ & Hsecond).
  split; [exact Hfirst | exact Hsecond].
Defined.

End FlagCacheApi.


(** ** src/app/page.tsx: [initializeApp] and the detection it replicates *)

Module InitializeApp.

Import IpFallback.

Section WithCountries.

Variable Country : Type.
Variable getCountryConfig : string -> option Country.

Local Abbreviation initializeApp := (initializeApp Country getCountryConfig).

(** X18. Once the component has unmounted, [initializeApp] writes no state:
    it settles exactly when the detection settles, with the state it
    started from. *)
Theorem initializeApp_unmounted (fetchFn : fetch_outcome) (st : AppState Country) :
  initializeApp fetchFn false st
  = match detectIp fetchFn 3000 with
    | Resolves _ => Resolves st
    | Rejects => Rejects
    | Pending => Pending
    end.
Proof.
  unfold IpFallback.initializeApp, detectIp.
  destruct (race fetchFn 3000) as [[| | [data |]] | |]; reflexivity.
Qed.

(** X19. While mounted, the page shows what the detection gives: the same
    country in every case and the same address, except that for a payload
    without an address the page shows the "unknown" label where the
    detection gives the "failed" label; and the page is marked initialised
    whenever the detection settles. *)
Theorem initializeApp_agrees_with_detectIp (fetchFn : fetch_outcome)
    (st : AppState Country) :
  match detectIp fetchFn 3000, initializeApp fetchFn true st with
  | Resolves r, Resolves st' =>
    isInitialized st' = true /\
    info_country (ipInfo st') = country r /\
    (info_ip (ipInfo st') = ip r \/
     info_ip (ipInfo st') = UNKNOWN_IP /\ ip r = DEFAULT_IP /\
     exists at_ms data,
       fetchFn = FetchResolves at_ms (JsonData (Some data)) /\
       falsy_string (data_ip data) = true)
  | Pending, Pending => True
  | _, _ => False
  end.
Proof.
  unfold IpFallback.initializeApp, detectIp, race. rewrite timer_delay_3000.
  destruct fetchFn as [| at_ms | at_ms body]; simpl; try (repeat split; left; reflexivity).
  destruct (at_ms <? 3000); [| repeat split; left; reflexivity].
  destruct body as [| | [data |]]; simpl; try (repeat split; left; reflexivity).
  assert (Hinfo :
    or_else (data_country data) "US" = or_else (data_country data) DEFAULT_COUNTRY /\
    (or_else (data_ip data) UNKNOWN_IP = or_else (data_ip data) DEFAULT_IP \/
     or_else (data_ip data) UNKNOWN_IP = UNKNOWN_IP /\
     or_else (data_ip data) DEFAULT_IP = DEFAULT_IP /\
     exists at_ms' data',
       FetchResolves at_ms (JsonData (Some data))
       = FetchResolves at_ms' (JsonData (Some data')) /\
       falsy_string (data_ip data') = true)).
  { split; [reflexivity |].
    destruct (falsy_string (data_ip data)) eqn:Hip.
    - right. unfold or_else. rewrite Hip. repeat split. eauto.
    - left. unfold or_else. rewrite Hip.
      destruct (data_ip data); [reflexivity | discriminate]. }
  destruct (negb (falsy_string (data_country data)) && data_accurate data);
    [destruct (getCountryConfig _) |]; simpl; (split; [reflexivity | exact Hinfo]).
Qed.

(** X20. [initializeApp] changes the selected country in one case only: the
    component is mounted, the lookup answers within 3000 ms with a country
    that is not empty and marked accurate, and [getCountryConfig] knows that
    country, which is then the one selected. *)
Theorem initializeApp_selectedCountry (fetchFn : fetch_outcome) (isMounted : bool)
    (st : AppState Country) :
  (forall st', initializeApp fetchFn isMounted st = Resolves st' ->
     selectedCountry st' = selectedCountry st \/
     exists at_ms data code,
       isMounted = true /\
       fetchFn = FetchResolves at_ms (JsonData (Some data)) /\ at_ms < 3000 /\
       data_country data = Some code /\ code <> "" /\ data_accurate data = true /\
       getCountryConfig code = Some (selectedCountry st')) /\
  (forall at_ms data code detectedCountry,
     isMounted = true ->
     fetchFn = FetchResolves at_ms (JsonData (Some data)) -> at_ms < 3000 ->
     data_country data = Some code -> code <> "" -> data_accurate data = true ->
     getCountryConfig code = Some detectedCountry ->
     exists st', initializeApp fetchFn isMounted st = Resolves st' /\
                 selectedCountry st' = detectedCountry /\
                 info_country (ipInfo st') = code /\
                 isInitialized st' = true).
Proof.
  split.
  - intros st'. unfold IpFallback.initializeApp, race. rewrite timer_delay_3000.
    destruct fetchFn as [| at_ms | at_ms body]; simpl;
      try (destruct isMounted; intros [= <-]; left; reflexivity).
    destruct (Z.ltb_spec at_ms 3000) as [Hlt | Hge];
      [| destruct isMounted; intros [= <-]; left; reflexivity].
    destruct body as [| | [data |]]; simpl;
      try (destruct isMounted; intros [= <-]; left; reflexivity).
    destruct isMounted; simpl; [| intros [= <-]; left; reflexivity].
    destruct (falsy_string (data_country data)) eqn:Hcountry; simpl;
      [intros [= <-]; left; reflexivity |].
    destruct (data_accurate data) eqn:Hacc; [| intros [= <-]; left; reflexivity].
    destruct (data_country data) as [code |] eqn:Hcode; [| discriminate].
    simpl. destruct (getCountryConfig code) as [detectedCountry |] eqn:Hknown;
      intros [= <-]; [right | left; reflexivity].
    exists at_ms, data, code. simpl. repeat split; try assumption.
    intros ->. discriminate.
  - intros at_ms data code detectedCountry -> -> Hlt Hcode Hne Hacc Hknown.
    unfold IpFallback.initializeApp, race. rewrite timer_delay_3000. simpl.
    destruct (Z.ltb_spec at_ms 3000) as [_ | Hge]; [| lia].
    assert (Hcountry : falsy_string (data_country data) = false).
    { rewrite Hcode. simpl. destruct (String.eqb_spec code ""); [contradiction | reflexivity]. }
    unfold or_else. rewrite Hcountry, Hacc, Hcode. simpl. rewrite Hknown.
    eexists. split; [reflexivity |]. simpl. repeat split.
Qed.

End WithCountries.

End InitializeApp.


(** ** hooks/useDebounce.ts: invariants of the two value hooks *)

Module DebounceInvariants.

Import UseDebounce.

Section Hook.

Context {T : Type} `{EqDecision T}.

Implicit Types (w : @world T) (k : hook_kind).

(** The pending flag of [useDebounceWithPending] is raised whenever the
    debounced value lags behind the value, and whenever it is raised a
    timeout is scheduled. *)
Definition flagged w : Prop :=
  mounted w = true ->
  (value w <> debouncedValue w -> isPending w = true) /\
  (isPending w = true -> timers w <> []).

Lemma render_flagged v d w :
  tidy w -> flagged w -> flagged (render WithPending v d w).
Proof.
  intros Htidy Hflag.
  destruct (mounted w) eqn:Hm; [| unfold render; rewrite Hm; exact Hflag].
  destruct (deps_changed WithPending v d w) eqn:Hdeps.
  - rewrite (render_changed WithPending v d w (tidy_clearable w Htidy) Hm Hdeps).
    intros _. cbn [value debouncedValue isPending timers]. split.
    + intros Hne. destruct (decide (v <> debouncedValue w)); [reflexivity | contradiction].
    + intros _. discriminate.
  - destruct (deps_unchanged WithPending v d w Hdeps) as [-> ->].
    unfold render. rewrite Hm, Hdeps. cbn [negb]. intros _. apply Hflag, Hm.
Qed.

Lemma fired_flagged at_ms w : flagged (fired WithPending at_ms w).
Proof.
  intros _. cbn [fired value debouncedValue isPending]. split; [congruence | discriminate].
Qed.

Lemma wait_until_flagged target w : flagged w -> flagged (wait_until target w).
Proof. intros Hflag. exact Hflag. Qed.

Lemma advance_flagged fuel dt w :
  (2 <= fuel)%nat -> tidy w -> flagged w -> flagged (advance WithPending fuel dt w).
Proof.
  intros Hfuel Htidy Hflag.
  rewrite (advance_tidy_eq WithPending fuel dt w Htidy Hfuel).
  apply wait_until_flagged.
  destruct (timers w) as [| t ?]; [exact Hflag |].
  destruct (fires_at t <=? now w + Z.max 0 dt); [| exact Hflag].
  destruct (timers (fired WithPending (fires_at t) w)) as [| t2 ?];
    [apply fired_flagged |].
  destruct (fires_at t2 <=? now w + Z.max 0 dt); apply fired_flagged.
Qed.

Lemma unmount_mounted w : mounted (unmount w) = false.
Proof. unfold unmount. destruct (mounted w) eqn:Hm; [reflexivity | exact Hm]. Qed.

Lemma act_flagged fuel w a :
  (2 <= fuel)%nat -> tidy w -> flagged w -> flagged (act WithPending fuel w a).
Proof.
  intros Hfuel Htidy Hflag. destruct a as [v d | dt |]; simpl.
  - apply render_flagged; assumption.
  - apply advance_flagged; assumption.
  - intros Hm. rewrite unmount_mounted in Hm. discriminate.
Qed.

Lemma run_flagged fuel w acts :
  (2 <= fuel)%nat -> tidy w -> flagged w -> flagged (run WithPending fuel w acts).
Proof.
  intros Hfuel. revert w. induction acts as [| a acts IH]; intros w Htidy Hflag;
    [exact Hflag |].
  apply IH; [apply act_tidy | apply act_flagged]; assumption.
Qed.

Lemma mount_flagged (v : T) d t0 : flagged (mount WithPending v d t0).
Proof.
  rewrite mount_eq. intros _. cbn [value debouncedValue isPending timers].
  split; [congruence | discriminate].
Qed.



(** X21. Both hooks keep at most one timeout scheduled, after any sequence
    of renders, passages of time and unmount: if there is one, the component
    is mounted, [timerRef] holds its handle, it is not overdue, and its
    callback will set the current value; after unmount there is none. *)
Theorem useDebounce_single_timer k (fuel : nat) (v0 : T) (d0 t0 : Z)
    (history : list action) :
  (2 <= fuel)%nat ->
  (length (timers (run k fuel (mount k v0 d0 t0) history)) <= 1)%nat /\
  (forall t, t ∈ timers (run k fuel (mount k v0 d0 t0) history) ->
     mounted (run k fuel (mount k v0 d0 t0) history) = true /\
     timerRef (run k fuel (mount k v0 d0 t0) history) = Some (timer_id t) /\
     captured t = value (run k fuel (mount k v0 d0 t0) history) /\
     now (run k fuel (mount k v0 d0 t0) history) <= fires_at t) /\
  timers (unmount (run k fuel (mount k v0 d0 t0) history)) = [].
Proof.
  intros Hfuel.
  assert (Htidy : tidy (run k fuel (mount k v0 d0 t0) history))
    by (apply run_tidy; [exact Hfuel | apply mount_tidy]).
  destruct (unmount_eq _ Htidy) as (_ & Hgone & _).
  destruct Htidy as (_ & _ & [Hq | (Hm & id & at_ms & Hq & Href & _ & Hdue)]);
    rewrite Hq.
  - split; [simpl; lia |]. split; [| exact Hgone].
    intros t Ht. apply elem_of_nil in Ht. contradiction.
  - split; [simpl; lia |]. split; [| exact Hgone].
    intros t Ht. apply list_elem_of_singleton in Ht. subst t. simpl. auto.
Qed.

(** X22. In [useDebounceWithPending], after any sequence of renders and
    passages of time, [isPending] is true whenever the debounced value
    differs from the value; whenever it is true one timeout is scheduled;
    and once that timeout is due the flag is false and the debounced value
    is the value. *)
Theorem isPending_tracks_lag (fuel : nat) (v0 : T) (d0 t0 : Z)
    (history : list action) :
  (2 <= fuel)%nat ->
  mounted (run WithPending fuel (mount WithPending v0 d0 t0) history) = true ->
  (value (run WithPending fuel (mount WithPending v0 d0 t0) history)
   <> debouncedValue (run WithPending fuel (mount WithPending v0 d0 t0) history) ->
   isPending (run WithPending fuel (mount WithPending v0 d0 t0) history) = true) /\
  (isPending (run WithPending fuel (mount WithPending v0 d0 t0) history) = true ->
   exists t, timers (run WithPending fuel (mount WithPending v0 d0 t0) history) = [t]) /\
  (forall t dt,
     timers (run WithPending fuel (mount WithPending v0 d0 t0) history) = [t] ->
     fires_at t <= now (run WithPending fuel (mount WithPending v0 d0 t0) history)
                   + Z.max 0 dt ->
     isPending
       (advance WithPending fuel dt
          (run WithPending fuel (mount WithPending v0 d0 t0) history)) = false /\
     debouncedValue
       (advance WithPending fuel dt
          (run WithPending fuel (mount WithPending v0 d0 t0) history))
     = value (run WithPending fuel (mount WithPending v0 d0 t0) history)).
Proof.
  intros Hfuel Hm.
  set (w := run WithPending fuel (mount WithPending v0 d0 t0) history) in *.
  assert (Htidy : tidy w) by (apply run_tidy; [exact Hfuel | apply mount_tidy]).
  assert (Hflag : flagged w)
    by (apply run_flagged; [exact Hfuel | apply mount_tidy | apply mount_flagged]).
  destruct (Hflag Hm) as [Hlag Hraised].
  split; [exact Hlag |]. split.
  - intros Hp. specialize (Hraised Hp).
    destruct Htidy as (_ & _ & [Hq | (_ & id & at_ms & Hq & _)]); [contradiction |].
    eauto.
  - intros t dt Hq Hdue.
    rewrite (advance_tidy_eq WithPending fuel dt w Htidy Hfuel), Hq.
    destruct (Z.leb_spec (fires_at t) (now w + Z.max 0 dt)) as [_ | Hlt]; [| lia].
    destruct (timers (fired WithPending (fires_at t) w)) as [| t2 ?];
      [split; reflexivity |].
    destruct (fires_at t2 <=? now w + Z.max 0 dt); split; reflexivity.
Qed.


End Hook.

Lemma useDebounce_single_timer_witness :
  (length
     (timers
        (run Plain 2 (mount Plain "initial" 300 0)
           [Render "a" 300; Advance 100; Render "ab" 300; Advance 100]))
   <= 1)%nat /\
  timers
    (unmount
       (run Plain 2 (mount Plain "initial" 300 0)
          [Render "a" 300; Advance 100; Render "ab" 300; Advance 100]))
  = [].
Proof.
  destruct (useDebounce_single_timer Plain 2 "initial" 300 0
              [Render "a" 300; Advance 100; Render "ab" 300; Advance 100]
              ltac:(lia)) as (Hone & _ & Hnone).
  split; [exact Hone | exact Hnone].
Defined.

Lemma isPending_tracks_lag_witness :
  isPending
    (run WithPending 2 (mount WithPending "initial" 300 0)
       [Render "a" 300; Advance 100]) = true /\
  isPending
    (advance WithPending 2 200
       (run WithPending 2 (mount WithPending "initial" 300 0)
          [Render "a" 300; Advance 100])) = false.
Proof.
  destruct (isPending_tracks_lag 2 "initial" 300 0 [Render "a" 300; Advance 100]
              ltac:(lia) eq_refl) as (Hlag & _ & Hdue).
  split.
  - apply Hlag. vm_compute. discriminate.
  - apply (Hdue (mkTimer 2 300 "a") 200); [vm_compute; reflexivity | vm_compute; discriminate].
Defined.


End DebounceInvariants.


(** ** hooks/useDebounce.ts: [useDebouncedCallback] *)

Module UseDebouncedCallback.

Section Hook.

(** The arguments of the callback, and the callbacks the component may
    pass. *)
Context {A C : Type}.

(** A pending timeout: its handle, the time it is due and the [args] its
    callback closed over. *)
Record timer : Type := mkTimer {
  timer_id : nat;
  fires_at : Z;
  args : A
}.

(** One hook and the timer queue of its page.  [invoked] logs every call of
    [callbackRef.current] with its time, the callback called and the
    arguments. *)
Record world : Type := mkWorld {
  now : Z;
  timers : list timer;
  next_id : nat;
  mounted : bool;
  callbackRef : C;
  timerRef : option nat;
  invoked : list (Z * C * A)
}.

(** [clearTimeout(id)] *)
Definition clearTimeout (id : nat) (w : world) : world :=
  mkWorld (now w) (filter (fun t => timer_id t <> id) (timers w)) (next_id w)
          (mounted w) (callbackRef w) (timerRef w) (invoked w).

(** [if (timerRef.current) clearTimeout(timerRef.current)] *)
Definition clear_current (w : world) : world :=
  match UseDebounce.truthy_handle (timerRef w) with
  | Some id => clearTimeout id w
  | None => w
  end.

(** The first render at time [t0]: both refs are created, the effects run.
    Handles start at 1. *)
Definition mount (callback : C) (t0 : Z) : world :=
  mkWorld t0 [] 1 true callback None [].

(** A later render with the prop [callback]: the first effect stores it. *)
Definition render (callback : C) (w : world) : world :=
  if negb (mounted w) then w
  else mkWorld (now w) (timers w) (next_id w) (mounted w) callback (timerRef w)
               (invoked w).

(** A call of the function returned by a render with the prop [delay]; a
    negative delay counts as 0. *)
Definition call (delay : Z) (a : A) (w : world) : world :=
  let w := clear_current w in
  mkWorld (now w) (timers w ++ [mkTimer (next_id w) (now w + Z.max 0 delay) a])
          (S (next_id w)) (mounted w) (callbackRef w) (Some (next_id w)) (invoked w).

(** Unmounting runs the cleanup of the second effect. *)
Definition unmount (w : world) : world :=
  if negb (mounted w) then w
  else
    let w := clear_current w in
    mkWorld (now w) (timers w) (next_id w) false (callbackRef w) (timerRef w)
            (invoked w).

(** The timer [t] fires: [callbackRef.current(...args)]. *)
Definition fire (t : timer) (w : world) : world :=
  let at_ms := Z.max (now w) (fires_at t) in
  mkWorld at_ms (filter (fun t' => timer_id t' <> timer_id t) (timers w)) (next_id w)
          (mounted w) (callbackRef w) (timerRef w)
          (invoked w ++ [(at_ms, callbackRef w, args t)]).

(** The timer to fire next among those due by [target]: the earliest, and
    among equals the one set first. *)
Fixpoint next_due (target : Z) (queue : list timer) : option timer :=
  match queue with
  | [] => None
  | t :: queue' =>
    match next_due target queue' with
    | Some t' =>
      if (fires_at t <=? target) && (fires_at t <=? fires_at t') then Some t
      else Some t'
    | None => if fires_at t <=? target then Some t else None
    end
  end.

Fixpoint run_timers (fuel : nat) (target : Z) (w : world) : world :=
  match fuel with
  | O => w
  | S fuel' =>
    match next_due target (timers w) with
    | Some t => run_timers fuel' target (fire t w)
    | None => w
    end
  end.

Definition wait_until (target : Z) (w : world) : world :=
  mkWorld (Z.max (now w) target) (timers w) (next_id w) (mounted w) (callbackRef w)
          (timerRef w) (invoked w).

(** Time passes by [dt] milliseconds.  A firing timer schedules none, so
    one round per pending timer fires all that are due. *)
Definition advance (dt : Z) (w : world) : world :=
  let target := now w + Z.max 0 dt in
  wait_until target (run_timers (length (timers w)) target w).

Inductive action : Type :=
| Render (callback : C)
| Call (delay : Z) (a : A)
| Advance (dt : Z)
| Unmount.

Definition act (w : world) (x : action) : world :=
  match x with
  | Render callback => render callback w
  | Call delay a => call delay a w
  | Advance dt => advance dt w
  | Unmount => unmount w
  end.

Definition run (w : world) (acts : list action) : world := foldl act w acts.

(** Further calls after a first one, each [gap] milliseconds after the one
    before. *)
Definition burst (d : Z) (calls : list (Z * A)) : list action :=
  flat_map (fun u => [Advance u.1; Call d u.2]) calls.

Definition elapsed (calls : list (Z * A)) : Z :=
  foldr (fun u acc => u.1 + acc) 0 calls.


(** *** Invariant *)

(** At most one timeout is pending; it is the one [timerRef] holds and it is
    not overdue. *)
Definition tidy (w : world) : Prop :=
  (1 <= next_id w)%nat /\
  (timers w = [] \/
   exists id at_ms a,
     timers w = [mkTimer id at_ms a] /\ timerRef w = Some id /\
     id <> 0%nat /\ now w <= at_ms).












(** The timeout of the last call is the one pending: set at [t_arm] for
    [t_arm + d], closed over [a]. *)
Definition armed (w : world) (d t_arm : Z) (a : A) (m : bool) (cb : C)
    (log : list (Z * C * A)) : Prop :=
  tidy w /\ now w = t_arm /\ mounted w = m /\ callbackRef w = cb /\
  (exists id, timers w = [mkTimer id (t_arm + d) a]) /\
  invoked w = log.









End Hook.



End UseDebouncedCallback.


(** ** src/app/page.tsx: the window of [DomainList] *)

Module DomainList.

(** *** src/lib/__tests__/virtualList.test.ts *)

Record VirtualListConfig : Type := mkConfig {
  totalItems : Z;
  cfg_visibleCount : Z;
  batchSize : Z
}.

Definition calculateRenderedCount (config : VirtualListConfig) : Z :=
  Z.min (cfg_visibleCount config) (totalItems config).

Definition loadMoreItems (currentVisible totalItems batchSize : Z) : Z :=
  Z.min (currentVisible + batchSize) totalItems.

(** *** The component *)

(** [array.slice(0, n)] for an integer [n]; a negative [n] counts from the
    end. *)
Definition slice0 {X : Type} (n : Z) (l : list X) : list X :=
  if n <? 0 then take (Z.to_nat (Z.of_nat (length l) + n)) l
  else take (Z.to_nat n) l.

Record state : Type := mkState {
  searchQuery : string;
  filteredQuery : string;
  visibleCount : Z
}.

(** [useState('')], [useState(50)], [useState('')] *)
Definition initial : state := mkState "" "" 50.

Section Component.

(** The prop [allDomains], and the two string methods the filter calls. *)
Variable allDomains : list string.
Variable toLowerCase : string -> string.
Variable includes : string -> string -> bool.

Definition filteredDomains (s : state) : list string :=
  if String.eqb (filteredQuery s) "" then allDomains
  else
    let query := toLowerCase (filteredQuery s) in
    List.filter (fun d => includes (toLowerCase d) query) allDomains.

Definition visibleDomains (s : state) : list string :=
  slice0 (visibleCount s) (filteredDomains s).

(** What happens to the component: the input changes, the 300 ms timeout of
    the search fires, the observer reports the sentinel. *)
Inductive event : Type :=
| SetSearchQuery (q : string)
| DebounceFires
| Observed (isIntersecting : bool).

Definition step (s : state) (e : event) : state :=
  match e with
  | SetSearchQuery q => mkState q (filteredQuery s) (visibleCount s)
  | DebounceFires => mkState (searchQuery s) (searchQuery s) 50
  | Observed isIntersecting =>
    if isIntersecting && (visibleCount s <? Z.of_nat (length (filteredDomains s))) then
      mkState (searchQuery s) (filteredQuery s)
              (Z.min (visibleCount s + 50) (Z.of_nat (length (filteredDomains s))))
    else s
  end.

Definition run (s : state) (evs : list event) : state := foldl step s evs.

(** The window starts at 50 and never passes the end of a longer list. *)
Definition windowed (s : state) : Prop :=
  50 <= visibleCount s <= Z.max 50 (Z.of_nat (length (filteredDomains s))).

Lemma windowed_initial : windowed initial.
Proof. unfold windowed. simpl. lia. Qed.

Lemma step_windowed s e : windowed s -> windowed (step s e).
Proof.
  unfold windowed. intros Hs. destruct e as [q | | b]; simpl.
  - exact Hs.
  - lia.
  - destruct b; simpl; [| exact Hs].
    destruct (Z.ltb_spec (visibleCount s) (Z.of_nat (length (filteredDomains s))));
      [| exact Hs].
    unfold filteredDomains in *. simpl. lia.
Qed.

Lemma run_windowed s evs : windowed s -> windowed (run s evs).
Proof.
  revert s. induction evs as [| e evs IH]; intros s Hs; [exact Hs |].
  apply IH, step_windowed, Hs.
Qed.

Lemma filteredDomains_incl s d : In d (filteredDomains s) -> In d allDomains.
Proof.
  unfold filteredDomains. destruct (String.eqb (filteredQuery s) ""); [tauto |].
  rewrite filter_In. tauto.
Qed.

(** X26. After any sequence of inputs, debounce timeouts and observer
    reports, the window is at least 50 and at most the longer of 50 and the
    filtered list; the rendered domains are the first
    [min(visibleCount, length)] filtered domains, the number the test's
    [calculateRenderedCount] gives, and each of them is one of
    [allDomains]. *)
Theorem DomainList_window (evs : list event) :
  50 <= visibleCount (run initial evs) /\
  visibleCount (run initial evs)
  <= Z.max 50 (Z.of_nat (length (filteredDomains (run initial evs)))) /\
  visibleDomains (run initial evs)
  = take (Z.to_nat (visibleCount (run initial evs))) (filteredDomains (run initial evs)) /\
  Z.of_nat (length (visibleDomains (run initial evs)))
  = calculateRenderedCount
      (mkConfig (Z.of_nat (length (filteredDomains (run initial evs))))
                (visibleCount (run initial evs)) 50) /\
  (forall d, In d (visibleDomains (run initial evs)) -> In d allDomains).
Proof.
  pose proof (run_windowed initial evs windowed_initial) as [Hlow Hhigh].
  set (s := run initial evs) in *.
  assert (Hslice : visibleDomains s = take (Z.to_nat (visibleCount s)) (filteredDomains s)).
  { unfold visibleDomains, slice0.
    destruct (Z.ltb_spec (visibleCount s) 0); [lia | reflexivity]. }
  repeat split; try assumption.
  - rewrite Hslice, length_take. unfold calculateRenderedCount. simpl. lia.
  - intros d Hd. rewrite Hslice in Hd. apply filteredDomains_incl with s.
    apply list_elem_of_In. apply list_elem_of_In in Hd.
    eapply subseteq_take, Hd.
Qed.

Lemma observed_visibleCount s n :
  visibleCount (run s (repeat (Observed true) n))
  = (if visibleCount s <? Z.of_nat (length (filteredDomains s))
     then Z.min (visibleCount s + 50 * Z.of_nat n) (Z.of_nat (length (filteredDomains s)))
     else visibleCount s) /\
  filteredQuery (run s (repeat (Observed true) n)) = filteredQuery s.
Proof.
  revert s. induction n as [| n IH]; intros s.
  - simpl. split; [| reflexivity].
    destruct (Z.ltb_spec (visibleCount s) (Z.of_nat (length (filteredDomains s)))); lia.
  - change (run s (repeat (Observed true) (S n)))
      with (run (step s (Observed true)) (repeat (Observed true) n)).
    destruct (IH (step s (Observed true))) as [-> ->].
    assert (Hsame : filteredDomains (step s (Observed true)) = filteredDomains s).
    { simpl. destruct (visibleCount s <? _); reflexivity. }
    rewrite Hsame. simpl step.
    destruct (Z.ltb_spec (visibleCount s) (Z.of_nat (length (filteredDomains s))))
      as [Hlt | Hge]; cbn [visibleCount filteredQuery].
    + split; [| reflexivity].
      destruct (Z.ltb_spec (Z.min (visibleCount s + 50)
                              (Z.of_nat (length (filteredDomains s))))
                  (Z.of_nat (length (filteredDomains s)))); lia.
    + split; [| reflexivity].
      destruct (Z.ltb_spec (visibleCount s) (Z.of_nat (length (filteredDomains s)))); lia.
Qed.

Lemma loadMoreItems_iter (c total : Z) (n : nat) :
  Z.min (Nat.iter n (fun c => loadMoreItems c total 50) c) total
  = Z.min (c + 50 * Z.of_nat n) total.
Proof.
  revert c. induction n as [| n IH]; intros c.
  - simpl. f_equal. lia.
  - rewrite Nat.iter_succ_r, IH. unfold loadMoreItems. lia.
Qed.

(** X27. Each report of the sentinel shows the next 50 filtered domains:
    from a state whose window is not negative, after [n] reports the
    component renders the first [min(visibleCount + 50 n, length)] filtered
    domains, the filter unchanged; that number is what [n] rounds of the
    test's [loadMoreItems] with batch size 50 give, also when the window had
    already passed the end of the list. *)
Theorem DomainList_load_more (s : state) (n : nat) :
  0 <= visibleCount s ->
  filteredDomains (run s (repeat (Observed true) n)) = filteredDomains s /\
  visibleDomains (run s (repeat (Observed true) n))
  = take (Z.to_nat (Z.min (visibleCount s + 50 * Z.of_nat n)
                          (Z.of_nat (length (filteredDomains s)))))
         (filteredDomains s) /\
  Z.of_nat (length (visibleDomains (run s (repeat (Observed true) n))))
  = Z.min (visibleCount s + 50 * Z.of_nat n) (Z.of_nat (length (filteredDomains s))) /\
  Z.of_nat (length (visibleDomains (run s (repeat (Observed true) n))))
  = calculateRenderedCount
      (mkConfig (Z.of_nat (length (filteredDomains s)))
                (Nat.iter n
                   (fun c => loadMoreItems c (Z.of_nat (length (filteredDomains s))) 50)
                   (visibleCount s))
                50).
Proof.
  intros Hwindow.
  destruct (observed_visibleCount s n) as [Hcount Hquery].
  assert (Hsame : filteredDomains (run s (repeat (Observed true) n)) = filteredDomains s)
    by (unfold filteredDomains; rewrite Hquery; reflexivity).
  assert (Hvisible :
    visibleDomains (run s (repeat (Observed true) n))
    = take (Z.to_nat (Z.min (visibleCount s + 50 * Z.of_nat n)
                            (Z.of_nat (length (filteredDomains s)))))
           (filteredDomains s)).
  { unfold visibleDomains, slice0. rewrite Hsame, Hcount.
    destruct (Z.ltb_spec (visibleCount s) (Z.of_nat (length (filteredDomains s))))
      as [Hlt | Hge].
    - destruct (Z.ltb_spec (Z.min (visibleCount s + 50 * Z.of_nat n)
                              (Z.of_nat (length (filteredDomains s)))) 0);
        [lia | reflexivity].
    - destruct (Z.ltb_spec (visibleCount s) 0); [lia |].
      rewrite !take_ge by lia. reflexivity. }
  assert (Hlength :
    Z.of_nat (length (visibleDomains (run s (repeat (Observed true) n))))
    = Z.min (visibleCount s + 50 * Z.of_nat n) (Z.of_nat (length (filteredDomains s)))).
  { rewrite Hvisible, length_take. lia. }
  split; [exact Hsame |]. split; [exact Hvisible |]. split; [exact Hlength |].
  rewrite Hlength. unfold calculateRenderedCount. simpl.
  symmetry. apply loadMoreItems_iter.
Qed.

End Component.

(** A list of 120 domains, filtered by a test that accepts every domain. *)
Definition sample_domains : list string := replicate 120 "mail.example".

Lemma DomainList_load_more_witness :
  Z.of_nat
    (length
       (visibleDomains sample_domains (fun d => d) (fun _ _ => true)
          (run sample_domains (fun d => d) (fun _ _ => true) initial
             (repeat (Observed true) 1))))
  = 100 /\
  Z.of_nat
    (length
       (visibleDomains sample_domains (fun d => d) (fun _ _ => true)
          (run sample_domains (fun d => d) (fun _ _ => true) initial
             (repeat (Observed true) 2))))
  = 120.
Proof.
  assert (Hwindow : 0 <= visibleCount initial) by (simpl; lia).
  split.
  - destruct (DomainList_load_more sample_domains (fun d => d) (fun _ _ => true)
                initial 1 Hwindow) as (_ & _ & Hlength & _).
    rewrite Hlength. vm_compute. reflexivity.
  - destruct (DomainList_load_more sample_domains (fun d => d) (fun _ _ => true)
                initial 2 Hwindow) as (_ & _ & Hlength & _).
    rewrite Hlength. vm_compute. reflexivity.
Defined.

End DomainList.


(** ** src/app/page.tsx: saving the identity shown *)

Module SaveIdentity.

Import IdentityData.

Inductive SaveStatus : Type :=
| status_idle
| status_saving
| status_saved.

(** The part of the page that [handleSaveIdentity] reads and writes:
    [shown] is [userInfo] with the code and name of [selectedCountry],
    [save_timeouts] the pending 300 ms callbacks with the identity each
    closed over, [saveTimerRef_pending] whether the 2000 ms timeout of
    [saveTimerRef] is pending. *)
Record page : Type := mkPage {
  shown : IdentityInput;
  saveStatus : SaveStatus;
  isSaved : bool;
  save_timeouts : list IdentityInput;
  saveTimerRef_pending : bool
}.

(** The record [addIdentity] builds. *)
Definition new_record (identity : IdentityInput) (now_id now_created : Z)
    (random36 : string) : SavedIdentity :=
  mkIdentity (fresh_id now_id random36) (in_firstName identity) (in_lastName identity)
    (in_birthday identity) (in_phone identity) (in_password identity)
    (in_email identity) (in_countryCode identity) (in_countryName identity)
    now_created.

(** What happens while one identity is shown: the save button is clicked,
    a 300 ms timeout fires (with the clock readings and the random text
    [addIdentity] then gets), the 2000 ms timeout fires. *)
Inductive event : Type :=
| Click
| SaveTimeout (now_id now_created : Z) (random36 : string)
| IdleTimeout.

Section WithJSON.

Variable JSON_parse : string -> completion (list SavedIdentity).
Variable JSON_stringify : list SavedIdentity -> string.

Local Abbreviation getSavedIdentities := (getSavedIdentities JSON_parse).
Local Abbreviation addIdentity := (addIdentity JSON_parse JSON_stringify).
Local Abbreviation isIdentitySaved := (isIdentitySaved JSON_parse).
Local Abbreviation round_trips := (round_trips JSON_parse JSON_stringify).

(** The page once [identity] is shown: [generate] has reset the two states
    and the effect on [userInfo.email] has run. *)
Definition show (identity : IdentityInput) (e : env) : page :=
  mkPage identity status_idle
    (if String.eqb (in_email identity) "" then false
     else isIdentitySaved (in_email identity) e)
    [] false.

(** [handleSaveIdentity()] up to its return. *)
Definition handleSaveIdentity (pg : page) : page :=
  if match saveStatus pg with status_saving => true | _ => false end
     || isSaved pg || String.eqb (in_email (shown pg)) ""
  then pg
  else mkPage (shown pg) status_saving (isSaved pg)
              (save_timeouts pg ++ [shown pg]) (saveTimerRef_pending pg).

Definition step (st : page * env) (ev : event) : page * env :=
  let '(pg, e) := st in
  match ev with
  | Click => (handleSaveIdentity pg, e)
  | SaveTimeout now_id now_created random36 =>
    match save_timeouts pg with
    | [] => st
    | captured :: rest =>
      (mkPage (shown pg) status_saved true rest true,
       (addIdentity captured now_id now_created random36 e).2)
    end
  | IdleTimeout =>
    if saveTimerRef_pending pg
    then (mkPage (shown pg) status_idle (isSaved pg) (save_timeouts pg) false, e)
    else st
  end.

Definition run (st : page * env) (evs : list event) : page * env := foldl step st evs.







End WithJSON.

Definition two_clicks : list event :=
  [Click; Click; SaveTimeout 1700000000000 1700000000001 "0.4fzyo82mvyr";
   Click; IdleTimeout; Click; SaveTimeout 1700000002500 1700000002501 "0.9q1w2e3r4t5"].

(** The lists the stand-in parser knows: the stored one, and it with either
    record the timeouts of [two_clicks] would add. *)
Definition known : list (list SavedIdentity) :=
  [[earlier];
   [saved_newcomer; earlier];
   [new_record newcomer 1700000002500 1700000002501 "0.9q1w2e3r4t5"; earlier]].


(** In the run [two_clicks] the second click is ignored and the identity is
    stored once. *)
Remark two_clicks_one_record :
  getSavedIdentities (SavedIdentities.read_identities known)
    (run (SavedIdentities.read_identities known) SavedIdentities.show_identities
       (show (SavedIdentities.read_identities known) newcomer SavedIdentities.one_saved,
        SavedIdentities.one_saved) two_clicks).2
  = [saved_newcomer; earlier].
Proof. vm_compute. reflexivity. Qed.

End SaveIdentity.
